(** * Vibe Coordinator: license lifecycle engine

    A shallow embedding of the TypeScript sources

      - [src/lib/license.ts]          (signing, verification, offline TTL)
      - [src/lib/db.ts]               (customer and license store, sql.js)
      - [src/lib/revocation.ts]       (file based revocation registry)
      - [src/lib/payment-gateway.ts]  (payment event gateway)
      - [src/routes/paddle.ts], [src/routes/stripe.ts]
                                      (plan of a purchase, webhook signature,
                                       Paddle handlers)

    together with the properties stated for them.

    Conventions of the embedding.

    - JavaScript strings are [string]s: sequences of 8-bit code units.  All
      keys, identifiers and timestamps the program produces are ASCII, for
      which UTF-16 code-unit order, UTF-8 encoding and byte order agree.
    - JavaScript numbers are mathematical integers [Z]; every number the
      program computes with is an integer below 2^53 in magnitude, so the
      IEEE double operations are exact.  A [Date] carries the TimeClip
      range check of ECMAScript.
    - A plain object is its list of own enumerable properties in
      enumeration order; no key of this program is an array index.
    - Code that reads the clock, draws a UUID, or touches the database
      handle or the file system runs in the monad [M]: a [World] is passed
      along and a result is either a value or a thrown [JsError].  What a
      function changed before it threw stays changed, as in JavaScript.
    - [JSON.parse], the Ed25519 library and the conversion of objects by
      [Buffer.from] belong to the runtime or to dependencies: they are
      parameters (the classes [JSONParser], [Ed25519] and [NodeBuffer]).
      What is assumed of them is stated in [JSONParserLaws] and
      [Ed25519Laws].  A reference parser, proved to obey its laws, and
      stand-ins for the other two serve to run the program on concrete
      worlds.  The reading of a date from a text and the HMAC of
      [node:crypto] are parameters as well ([DateParser], [NodeCrypto]);
      nothing is assumed of them.
    - [console.log] and its kin change nothing the program reads.  The
      log statement that opens [processPaymentEvent] is written out all the
      same: converting its arguments to strings can throw, before the [try]
      is entered.
    - The types of TypeScript are erased at run time.  The functions are
      modelled on values of their declared types; [verifyLicense] and
      [processPaymentEvent] are modelled, besides, on what a caller may
      pass in their place ([processPaymentEvent_any]; what the handlers do
      with a field of another type is the parameter [UntypedHandlers]).

    The embedding comes first, then the notions the properties are stated
    with and the concrete worlds they are tried on, then the properties. *)

From Stdlib Require Import ZArith NArith List String Ascii Bool Lia.
From Stdlib Require Import DecimalString DecimalZ Permutation OrderedTypeEx.
Import ListNotations.

Set Warnings "-register-all".

Local Open Scope string_scope.
Local Open Scope list_scope.
Local Open Scope Z_scope.

(* ================================================================== *)
(** * The JavaScript runtime *)
(* ================================================================== *)

(** ** Errors and completion records *)

Record JsError : Type := mkError { err_name : string; err_message : string }.

(** [String(err)] for an [Error] object: [Error.prototype.toString]. *)
Definition String_of_error (e : JsError) : string :=
  if String.eqb (err_name e) "" then err_message e
  else if String.eqb (err_message e) "" then err_name e
  else (err_name e ++ ": " ++ err_message e)%string.

Definition Error (msg : string) : JsError := mkError "Error" msg.
Definition TypeError (msg : string) : JsError := mkError "TypeError" msg.
Definition RangeError (msg : string) : JsError := mkError "RangeError" msg.

Inductive Exc (A : Type) : Type :=
| Ok (a : A)
| Throw (e : JsError).
Arguments Ok {A} a.
Arguments Throw {A} e.

Definition exc_bind {A B} (x : Exc A) (f : A -> Exc B) : Exc B :=
  match x with
  | Ok a => f a
  | Throw e => Throw e
  end.

(** ** Numbers and strings *)

(** [Number::toString] on an integer. *)
Definition Z_to_string (z : Z) : string := NilZero.string_of_int (Z.to_int z).

(** Decimal rendering of [z >= 0], left padded with zeros to [width]. *)
Definition pad0 (width : nat) (z : Z) : string :=
  let s := Z_to_string z in
  (String.concat "" (repeat "0" (width - String.length s)) ++ s)%string.

(** ** Dates *)

(** A [Date] object holds a time value in milliseconds since the epoch, or
    NaN (an invalid date). *)
Inductive Date : Type :=
| ValidDate (t : Z)
| InvalidDate.

Definition maxTimeValue : Z := 8640000000000000.

(** [new Date(x)] for a number [x]: TimeClip. *)
Definition Date_of_number (x : Z) : Date :=
  if Z.abs x <=? maxTimeValue then ValidDate x else InvalidDate.

(** [d.getTime()]: [None] stands for NaN. *)
Definition getTime (d : Date) : option Z :=
  match d with
  | ValidDate t => Some t
  | InvalidDate => None
  end.

(** [new Date(a.getTime() + x)]. *)
Definition Date_plus (d : Date) (x : Z) : Date :=
  match getTime d with
  | Some t => Date_of_number (t + x)
  | None => InvalidDate
  end.

(** [a < b] on two dates: both are converted to numbers, and every
    comparison with NaN is false. *)
Definition Date_lt (a b : Date) : bool :=
  match getTime a, getTime b with
  | Some x, Some y => x <? y
  | _, _ => false
  end.

Definition msPerDay : Z := 24 * 60 * 60 * 1000.

(** Year, month and day of a day number counted from 1970-01-01
    (proleptic Gregorian calendar, as ECMAScript prescribes). *)
Definition civil_from_days (days : Z) : Z * Z * Z :=
  let z := days + 719468 in
  let era := z / 146097 in
  let doe := z - era * 146097 in
  let yoe := (doe - doe / 1460 + doe / 36524 - doe / 146096) / 365 in
  let doy := doe - (365 * yoe + yoe / 4 - yoe / 100) in
  let mp := (5 * doy + 2) / 153 in
  let d := doy - (153 * mp + 2) / 5 + 1 in
  let m := if mp <? 10 then mp + 3 else mp - 9 in
  let y := yoe + era * 400 + (if m <=? 2 then 1 else 0) in
  (y, m, d).

Definition ISO_year (y : Z) : string :=
  if (0 <=? y) && (y <=? 9999) then pad0 4 y
  else if y <? 0 then ("-" ++ pad0 6 (- y))%string
  else ("+" ++ pad0 6 y)%string.

(** [d.toISOString()]: throws a [RangeError] on an invalid date. *)
Definition toISOString (d : Date) : Exc string :=
  match d with
  | InvalidDate => Throw (RangeError "Invalid time value")
  | ValidDate t =>
      let days := t / msPerDay in
      let ms := t mod msPerDay in
      let '(y, m, dd) := civil_from_days days in
      Ok (ISO_year y ++ "-" ++ pad0 2 m ++ "-" ++ pad0 2 dd ++ "T"
          ++ pad0 2 (ms / 3600000) ++ ":" ++ pad0 2 (ms / 60000 mod 60) ++ ":"
          ++ pad0 2 (ms / 1000 mod 60) ++ "." ++ pad0 3 (ms mod 1000) ++ "Z")%string
  end.

(** The text SQLite's [datetime] gives for a number of seconds since the
    epoch: [YYYY-MM-DD HH:MM:SS]. *)
Definition sqlite_datetime (secs : Z) : string :=
  let '(y, m, dd) := civil_from_days (secs / 86400) in
  let s := secs mod 86400 in
  (pad0 4 y ++ "-" ++ pad0 2 m ++ "-" ++ pad0 2 dd ++ " "
   ++ pad0 2 (s / 3600) ++ ":" ++ pad0 2 (s / 60 mod 60) ++ ":" ++ pad0 2 (s mod 60))%string.

(** ** JSON values *)

Inductive jsval : Type :=
| JNull
| JBool (b : bool)
| JNum (n : Z)
| JStr (s : string)
| JArr (items : list jsval)
| JObj (props : list (string * jsval)).

(** An object: own enumerable properties in enumeration order. *)
Definition jsobject : Type := list (string * jsval).

(** [o[k]] on own properties; [None] is [undefined]. *)
Fixpoint obj_get {V : Type} (k : string) (o : list (string * V)) : option V :=
  match o with
  | [] => None
  | (k', v) :: o' => if String.eqb k k' then Some v else obj_get k o'
  end.

(** [o[k] = v]: an existing property keeps its place, a new one goes last. *)
Fixpoint obj_set {V : Type} (k : string) (v : V) (o : list (string * V))
  : list (string * V) :=
  match o with
  | [] => [(k, v)]
  | (k', v') :: o' =>
      if String.eqb k k' then (k', v) :: o' else (k', v') :: obj_set k v o'
  end.

(** [const { k, ...rest } = o]: the rest object. *)
Definition obj_remove {V : Type} (k : string) (o : list (string * V))
  : list (string * V) :=
  filter (fun kv => negb (String.eqb k (fst kv))) o.

(** [Object.keys(o)]. *)
Definition Object_keys {V : Type} (o : list (string * V)) : list string :=
  map fst o.

(** *** JSON.stringify *)

Definition dquote : ascii := ascii_of_N 34.

Definition hex_digit (n : N) : ascii :=
  ascii_of_N (if (n <? 10)%N then 48 + n else 87 + n)%N.

(** QuoteJSONString, one code unit at a time. *)
Definition quote_char (c : ascii) : string :=
  let n := N_of_ascii c in
  if (n =? 34)%N then String "\" (String dquote EmptyString)
  else if (n =? 92)%N then "\\"
  else if (n =? 8)%N then "\b"
  else if (n =? 9)%N then "\t"
  else if (n =? 10)%N then "\n"
  else if (n =? 12)%N then "\f"
  else if (n =? 13)%N then "\r"
  else if (n <? 32)%N then
    String "\" (String "u" (String "0" (String "0"
      (String (hex_digit (n / 16)) (String (hex_digit (n mod 16)) EmptyString)))))
  else String c EmptyString.

Fixpoint quote_body (s : string) : string :=
  match s with
  | EmptyString => EmptyString
  | String c s' => (quote_char c ++ quote_body s')%string
  end.

Definition QuoteJSONString (s : string) : string :=
  String dquote (quote_body s ++ String dquote EmptyString)%string.

(** [partial.join(sep)]. *)
Definition join (sep : string) (parts : list string) : string :=
  String.concat sep parts.

(** The closing steps shared by SerializeJSONObject and SerializeJSONArray:
    [partial] holds the serialized members, [stepback] the indentation of
    the enclosing level. *)
Definition wrap_members (open close gap stepback : string)
    (partial : list string) : string :=
  match partial with
  | [] => (open ++ close)%string
  | _ =>
      if String.eqb gap "" then (open ++ join "," partial ++ close)%string
      else
        let indent := (stepback ++ gap)%string in
        (open ++ String "010" indent
           ++ join ("," ++ String "010" indent) partial
           ++ String "010" stepback ++ close)%string
  end.

(** [nodup] keeping the first occurrence, as the PropertyList of
    [JSON.stringify] is built from an array replacer. *)
Fixpoint PropertyList_of (seen keys : list string) : list string :=
  match keys with
  | [] => []
  | k :: ks =>
      if existsb (String.eqb k) seen then PropertyList_of seen ks
      else k :: PropertyList_of (k :: seen) ks
  end.

(** SerializeJSONProperty.  [plist] is the PropertyList of an array
    replacer ([None] without one): it selects and orders the keys of every
    object, nested ones included.  [gap] is the indentation unit and
    [stepback] the current indentation. *)
Fixpoint SerializeJSON (plist : option (list string)) (gap stepback : string)
    (v : jsval) {struct v} : string :=
  match v with
  | JNull => "null"
  | JBool true => "true"
  | JBool false => "false"
  | JNum n => Z_to_string n
  | JStr s => QuoteJSONString s
  | JArr items =>
      wrap_members "[" "]" gap stepback
        (map (SerializeJSON plist gap (stepback ++ gap)) items)
  | JObj props =>
      let members :=
        map (fun kv => match kv with
                       | (k, x) => (k, SerializeJSON plist gap (stepback ++ gap) x)
                       end) props in
      let K := match plist with
               | Some keys => keys
               | None => map fst props
               end in
      let sep := if String.eqb gap "" then ":" else ": " in
      wrap_members "{" "}" gap stepback
        (flat_map (fun P => match obj_get P members with
                            | Some strP => [(QuoteJSONString P ++ sep ++ strP)%string]
                            | None => []
                            end) K)
  end.

(** [JSON.stringify(v, replacer, space)] with an array of strings (or
    nothing) as replacer and a number of spaces (at most 10) as [space]. *)
Definition JSON_stringify (v : jsval) (replacer : option (list string))
    (space : nat) : string :=
  SerializeJSON (option_map (PropertyList_of []) replacer)
    (String.concat "" (repeat " " (Nat.min space 10))) "" v.

(** [JSON.parse] belongs to the runtime and is taken as a parameter of the
    development; [None] stands for the [SyntaxError] it throws.  The
    properties assumed of it are stated in [JSONParserLaws] below. *)
Class JSONParser : Type := { JSON_parse : string -> option jsval }.

(** ** Conversion to a string *)



(** ** [Array.prototype.sort] without a comparator *)

(** Strings are compared by [String.leb]: lexicographic on code units. *)

Fixpoint sort_insert (x : string) (l : list string) : list string :=
  match l with
  | [] => [x]
  | y :: l' => if String.leb x y then x :: l else y :: sort_insert x l'
  end.

(** [keys.sort()].  The sorting algorithm of the engine is stable; on
    strings, equal elements are indistinguishable, so any sorting function
    gives this result. *)
Fixpoint Array_sort (l : list string) : list string :=
  match l with
  | [] => []
  | x :: l' => sort_insert x (Array_sort l')
  end.

(* ================================================================== *)
(** * The world the program runs in *)
(* ================================================================== *)

(** [config] of [lib/config.ts], read from the environment once. *)
Record Config : Type := {
  databaseUrl : string;
  licensePrivateKey : string;
  licensePublicKey : string
}.

(** Rows of the two tables created by [initSchema]; the columns are those
    of the [CREATE TABLE] statements.  [created_at] is filled by SQLite
    with [datetime('now')], a clock reading in whole seconds; it is kept
    as that number of seconds, whose order is the order of the text. *)
Record CustomerRow : Type := {
  cust_id : string;
  cust_email : string;
  cust_stripe_customer_id : option string;
  cust_created_at : Z
}.

Record LicenseRow : Type := {
  lic_id : string;
  lic_customer_id : string;
  lic_plan : string;
  lic_issued_at : string;
  lic_expires_at : string;
  lic_revoked_at : option string;
  lic_created_at : Z
}.

(** A sql.js [Database]: the rows of each table in rowid order. *)
Record Database : Type := {
  customers : list CustomerRow;
  licenses : list LicenseRow
}.

Definition empty_Database : Database := {| customers := []; licenses := [] |}.

Record World : Type := {
  db : option Database;          (* the module variable [db] of db.ts *)
  db_file : option Database;     (* the image last written to [databaseUrl] *)
  data_dir : bool;               (* does DATA_DIR exist *)
  revoked_file : option string;  (* contents of REVOKED_FILE, if it exists *)
  clock : nat -> Z;              (* successive readings of the system clock, ms *)
  ticks : nat;                   (* readings taken so far *)
  uuids : nat -> string;         (* successive results of [uuid()] *)
  drawn : nat                    (* UUIDs drawn so far *)
}.

Definition set_db (d : option Database) (w : World) : World :=
  {| db := d; db_file := db_file w; data_dir := data_dir w;
     revoked_file := revoked_file w; clock := clock w; ticks := ticks w;
     uuids := uuids w; drawn := drawn w |}.

Definition set_db_file (d : option Database) (w : World) : World :=
  {| db := db w; db_file := d; data_dir := data_dir w;
     revoked_file := revoked_file w; clock := clock w; ticks := ticks w;
     uuids := uuids w; drawn := drawn w |}.

Definition set_data_dir (b : bool) (w : World) : World :=
  {| db := db w; db_file := db_file w; data_dir := b;
     revoked_file := revoked_file w; clock := clock w; ticks := ticks w;
     uuids := uuids w; drawn := drawn w |}.

Definition set_revoked_file (f : option string) (w : World) : World :=
  {| db := db w; db_file := db_file w; data_dir := data_dir w;
     revoked_file := f; clock := clock w; ticks := ticks w;
     uuids := uuids w; drawn := drawn w |}.

Definition set_ticks (n : nat) (w : World) : World :=
  {| db := db w; db_file := db_file w; data_dir := data_dir w;
     revoked_file := revoked_file w; clock := clock w; ticks := n;
     uuids := uuids w; drawn := drawn w |}.

Definition set_drawn (n : nat) (w : World) : World :=
  {| db := db w; db_file := db_file w; data_dir := data_dir w;
     revoked_file := revoked_file w; clock := clock w; ticks := ticks w;
     uuids := uuids w; drawn := n |}.

(** ** The monad of effectful code *)

Definition M (A : Type) : Type := World -> Exc A * World.

Definition ret {A} (a : A) : M A := fun w => (Ok a, w).

Definition throw {A} (e : JsError) : M A := fun w => (Throw e, w).

Definition bind {A B} (c : M A) (k : A -> M B) : M B :=
  fun w => match c w with
           | (Ok a, w') => k a w'
           | (Throw e, w') => (Throw e, w')
           end.

(** [try { c } catch (err) { h err }]. *)
Definition try_catch {A} (c : M A) (h : JsError -> M A) : M A :=
  fun w => match c w with
           | (Ok a, w') => (Ok a, w')
           | (Throw e, w') => h e w'
           end.

Definition lift {A} (x : Exc A) : M A := fun w => (x, w).

Declare Scope M_scope.
Delimit Scope M_scope with M.
Notation "x <- c ;; k" := (bind c (fun x => k))
  (at level 61, c at next level, right associativity) : M_scope.
Notation "c ;; k" := (bind c (fun _ => k))
  (at level 61, right associativity) : M_scope.
Local Open Scope M_scope.

(** [console.log(text)], and [console.warn] and [console.error] likewise,
    write to the output streams of the process, which the program does not
    read: the world stays as it is. *)
Definition console_log (text : string) : M unit := ret tt.

(** [Date.now()], in milliseconds. *)
Definition Date_now : M Z :=
  fun w => (Ok (clock w (ticks w)), set_ticks (S (ticks w)) w).

(** [new Date()]: the host clock always yields a valid time value. *)
Definition new_Date : M Date := t <- Date_now ;; ret (ValidDate t).

(** [new Date().toISOString()]. *)
Definition now_ISO : M string := d <- new_Date ;; lift (toISOString d).

(** [uuid()]. *)
Definition uuid : M string :=
  fun w => (Ok (uuids w (drawn w)), set_drawn (S (drawn w)) w).

(* ================================================================== *)
(** * lib/db.ts: the customer and license store *)
(* ================================================================== *)

Section Store.

Variable config : Config.

(** [getDb()]. *)
Definition getDb : M Database :=
  fun w => match db w with
           | Some d => (Ok d, w)
           | None => (Throw (Error "Database not initialized. Call initDb() first."), w)
           end.

(** [saveDb()]: nothing without a handle, nothing for an in-memory
    database, else the exported image replaces the file. *)
Definition saveDb : M unit :=
  fun w => match db w with
           | None => (Ok tt, w)
           | Some d =>
               if String.eqb (databaseUrl config) ":memory:" then (Ok tt, w)
               else (Ok tt, set_db_file (Some d) w)
           end.

(** [initSchema()]: [CREATE ... IF NOT EXISTS] leaves existing tables and
    their rows alone. *)
Definition initSchema : M unit := _ <- getDb ;; saveDb.

(** [initDb()]. *)
Definition initDb : M Database :=
  fun w => match db w with
           | Some d => (Ok d, w)
           | None =>
               let fresh :=
                 if String.eqb (databaseUrl config) ":memory:" then empty_Database
                 else match db_file w with
                      | Some image => image
                      | None => empty_Database
                      end in
               (_ <- initSchema ;; ret fresh) (set_db (Some fresh) w)
           end.

(** [getDb().run(sql, params)] for a statement [stmt] that changes the
    database or fails; on failure the database is left as it was. *)
Definition db_run (stmt : Database -> Exc Database) : M unit :=
  d <- getDb ;;
  match stmt d with
  | Ok d' => fun w => (Ok tt, set_db (Some d') w)
  | Throw e => throw e
  end.

(** [datetime('now')] of a column default. *)
Definition sqlite_now : M Z := t <- Date_now ;; ret (t / 1000).

(** [INSERT INTO customers (id, email, stripe_customer_id) VALUES (?, ?, ?)];
    [id] is the primary key. *)
Definition insert_customer (row : CustomerRow) (d : Database) : Exc Database :=
  if existsb (fun c => String.eqb (cust_id c) (cust_id row)) (customers d)
  then Throw (Error "UNIQUE constraint failed: customers.id")
  else Ok {| customers := customers d ++ [row]; licenses := licenses d |}.

(** [INSERT INTO licenses (id, customer_id, plan, issued_at, expires_at)
    VALUES (?, ?, ?, ?, ?)]; [id] is the primary key. *)
Definition insert_license (row : LicenseRow) (d : Database) : Exc Database :=
  if existsb (fun l => String.eqb (lic_id l) (lic_id row)) (licenses d)
  then Throw (Error "UNIQUE constraint failed: licenses.id")
  else Ok {| customers := customers d; licenses := licenses d ++ [row] |}.

(** [x || null] on an optional string: [undefined] and the empty string
    are falsy. *)
Definition or_null (x : option string) : option string :=
  match x with
  | Some s => if String.eqb s "" then None else Some s
  | None => None
  end.

(** [findCustomerByEmail(email)]: the first row of
    [SELECT * FROM customers WHERE email = ?]. *)
Definition findCustomerByEmail (email : string) : M (option CustomerRow) :=
  d <- getDb ;;
  ret (find (fun c => String.eqb (cust_email c) email) (customers d)).

(** [createCustomer(id, email, stripeCustomerId?)]. *)
Definition createCustomer (id email : string) (stripeCustomerId : option string)
  : M unit :=
  _ <- getDb ;;
  created <- sqlite_now ;;
  _ <- db_run (insert_customer
                 {| cust_id := id; cust_email := email;
                    cust_stripe_customer_id := or_null stripeCustomerId;
                    cust_created_at := created |}) ;;
  saveDb.

(** [createLicense(id, customerId, plan, issuedAt, expiresAt)]. *)
Definition createLicense (id customerId plan issuedAt expiresAt : string)
  : M unit :=
  _ <- getDb ;;
  created <- sqlite_now ;;
  _ <- db_run (insert_license
                 {| lic_id := id; lic_customer_id := customerId; lic_plan := plan;
                    lic_issued_at := issuedAt; lic_expires_at := expiresAt;
                    lic_revoked_at := None; lic_created_at := created |}) ;;
  saveDb.

Definition is_null {A} (x : option A) : bool :=
  match x with
  | None => true
  | Some _ => false
  end.

(** [ORDER BY created_at DESC LIMIT 1]: a row with the greatest
    [created_at]; among rows of the same second the first one in rowid order
    is kept (SQL leaves that choice open). *)
Definition latest (rows : list LicenseRow) : option LicenseRow :=
  fold_left (fun best r =>
               match best with
               | None => Some r
               | Some b => if lic_created_at b <? lic_created_at r
                           then Some r else Some b
               end) rows None.

(** [findLicenseByCustomer(customerId)]:
    [SELECT * FROM licenses WHERE customer_id = ? AND revoked_at IS NULL
     ORDER BY created_at DESC LIMIT 1]. *)
Definition findLicenseByCustomer (customerId : string) : M (option LicenseRow) :=
  d <- getDb ;;
  ret (latest (filter (fun l => String.eqb (lic_customer_id l) customerId
                                && is_null (lic_revoked_at l)) (licenses d))).

(** [stmt.getAsObject()] on a row of [licenses]: one property per column
    of the table; a [NULL] is [null]. *)
Definition license_getAsObject (l : LicenseRow) : jsobject :=
  [ ("id", JStr (lic_id l));
    ("customer_id", JStr (lic_customer_id l));
    ("plan", JStr (lic_plan l));
    ("issued_at", JStr (lic_issued_at l));
    ("expires_at", JStr (lic_expires_at l));
    ("revoked_at", match lic_revoked_at l with
                   | Some s => JStr s
                   | None => JNull
                   end);
    ("created_at", JStr (sqlite_datetime (lic_created_at l))) ].

(** A row with its [revoked_at] column set. *)
Definition with_revoked_at (revokedAt : string) (l : LicenseRow) : LicenseRow :=
  {| lic_id := lic_id l; lic_customer_id := lic_customer_id l;
     lic_plan := lic_plan l; lic_issued_at := lic_issued_at l;
     lic_expires_at := lic_expires_at l; lic_revoked_at := Some revokedAt;
     lic_created_at := lic_created_at l |}.

(** [UPDATE licenses SET revoked_at = ? WHERE customer_id = ? AND
    revoked_at IS NULL]. *)
Definition update_revoked_at (revokedAt customerId : string) (d : Database)
  : Exc Database :=
  Ok {| customers := customers d;
        licenses :=
          map (fun l =>
                 if String.eqb (lic_customer_id l) customerId
                    && is_null (lic_revoked_at l)
                 then with_revoked_at revokedAt l
                 else l) (licenses d) |}.

End Store.

(* ================================================================== *)
(** * lib/revocation.ts: the revocation registry *)
(* ================================================================== *)

Section Registry.

Context {JP : JSONParser}.

(** [ensureDataDir()]. *)
Definition ensureDataDir : M unit :=
  fun w => if data_dir w then (Ok tt, w) else (Ok tt, set_data_dir true w).

(** [fs.existsSync(REVOKED_FILE)]. *)
Definition existsSync_REVOKED_FILE : M bool :=
  fun w => (Ok (negb (is_null (revoked_file w))), w).

(** [fs.readFileSync(REVOKED_FILE, "utf-8")]. *)
Definition readFileSync_REVOKED_FILE : M string :=
  fun w => match revoked_file w with
           | Some raw => (Ok raw, w)
           | None => (Throw (Error "ENOENT: no such file or directory"), w)
           end.

(** [fs.writeFileSync(REVOKED_FILE, data, "utf-8")] run to completion. *)
Definition writeFileSync_REVOKED_FILE (data : string) : M unit :=
  fun w => (Ok tt, set_revoked_file (Some data) w).

(** [JSON.parse(raw)]. *)
Definition JSON_parse_M (raw : string) : M jsval :=
  match JSON_parse raw with
  | Some v => ret v
  | None => throw (mkError "SyntaxError" "Unexpected token in JSON")
  end.

(** [{ entries: [], last_updated: new Date().toISOString() }]. *)
Definition empty_store : M jsval :=
  now <- now_ISO ;;
  ret (JObj [("entries", JArr []); ("last_updated", JStr now)]).

(** [loadRevocationStore()]. *)
Definition loadRevocationStore : M jsval :=
  _ <- ensureDataDir ;;
  present <- existsSync_REVOKED_FILE ;;
  if negb present then empty_store
  else
    try_catch
      (raw <- readFileSync_REVOKED_FILE ;; JSON_parse_M raw)
      (fun _ => empty_store).

(** [store.entries]: reading a property of [null] throws, any other
    value without the property gives [undefined]. *)
Definition store_entries (store : jsval) : Exc (option jsval) :=
  match store with
  | JNull => Throw (TypeError "Cannot read properties of null (reading 'entries')")
  | JObj props => Ok (obj_get "entries" props)
  | _ => Ok None
  end.

(** The receiver of [store.entries.some], [.find], [.filter] and [.push]:
    anything but an array has no such method. *)
Definition entries_array (store : jsval) : Exc (list jsval) :=
  exc_bind (store_entries store)
    (fun es => match es with
               | Some (JArr items) => Ok items
               | None => Throw (TypeError "Cannot read properties of undefined")
               | Some _ => Throw (TypeError "store.entries.some is not a function")
               end).

(** [e.license_id === licenseId]. *)
Definition entry_matches (licenseId : string) (e : jsval) : Exc bool :=
  match e with
  | JNull => Throw (TypeError "Cannot read properties of null (reading 'license_id')")
  | JObj props =>
      match obj_get "license_id" props with
      | Some (JStr s) => Ok (String.eqb s licenseId)
      | _ => Ok false
      end
  | _ => Ok false
  end.

(** [entries.find(e => e.license_id === licenseId)]: the callback runs on
    the elements in order until it answers true. *)
Fixpoint Array_find (licenseId : string) (entries : list jsval)
  : Exc (option jsval) :=
  match entries with
  | [] => Ok None
  | e :: rest =>
      exc_bind (entry_matches licenseId e)
        (fun b => if b then Ok (Some e) else Array_find licenseId rest)
  end.

(** [entries.some(e => e.license_id === licenseId)]. *)
Definition Array_some (licenseId : string) (entries : list jsval) : Exc bool :=
  exc_bind (Array_find licenseId entries) (fun r => Ok (negb (is_null r))).

(** [entries.filter(e => e.license_id !== licenseId)]. *)
Fixpoint Array_filter_out (licenseId : string) (entries : list jsval)
  : Exc (list jsval) :=
  match entries with
  | [] => Ok []
  | e :: rest =>
      exc_bind (entry_matches licenseId e)
        (fun b => exc_bind (Array_filter_out licenseId rest)
                    (fun kept => Ok (if b then kept else e :: kept)))
  end.

(** [store.k = v] on a value that [store.entries] could be read from. *)
Definition store_set (k : string) (v : jsval) (store : jsval) : jsval :=
  match store with
  | JObj props => JObj (obj_set k v props)
  | _ => store
  end.

(** [saveRevocationStore(store)]. *)
Definition saveRevocationStore (store : jsval) : M unit :=
  _ <- ensureDataDir ;;
  now <- now_ISO ;;
  writeFileSync_REVOKED_FILE
    (JSON_stringify (store_set "last_updated" (JStr now) store) None 2).

(** [isRevoked(licenseId)]. *)
Definition isRevoked (licenseId : string) : M bool :=
  store <- loadRevocationStore ;;
  lift (exc_bind (entries_array store) (Array_some licenseId)).

(** [getRevocationInfo(licenseId)]; [None] is [null]. *)
Definition getRevocationInfo (licenseId : string) : M (option jsval) :=
  store <- loadRevocationStore ;;
  lift (exc_bind (entries_array store) (Array_find licenseId)).

(** [addRevocation(licenseId, reason)]. *)
Definition addRevocation (licenseId reason : string) : M unit :=
  store <- loadRevocationStore ;;
  entries <- lift (entries_array store) ;;
  dup <- lift (Array_some licenseId entries) ;;
  if dup : bool then ret tt
  else
    now <- now_ISO ;;
    let entry := JObj [("license_id", JStr licenseId);
                       ("revoked_at", JStr now);
                       ("reason", JStr reason)] in
    saveRevocationStore (store_set "entries" (JArr (entries ++ [entry])) store).

(** [removeRevocation(licenseId)]. *)
Definition removeRevocation (licenseId : string) : M bool :=
  store <- loadRevocationStore ;;
  entries <- lift (entries_array store) ;;
  kept <- lift (Array_filter_out licenseId entries) ;;
  if (List.length kept <? List.length entries)%nat then
    _ <- saveRevocationStore (store_set "entries" (JArr kept) store) ;;
    ret true
  else ret false.

(** [listRevocations()]: [store.entries] as it is; [None] is [undefined]. *)
Definition listRevocations : M (option jsval) :=
  store <- loadRevocationStore ;;
  lift (store_entries store).

(** [x.length]: defined on arrays and strings, a plain property of an
    object, [undefined] on numbers and booleans. *)
Definition js_length (x : option jsval) : Exc (option jsval) :=
  match x with
  | None => Throw (TypeError "Cannot read properties of undefined (reading 'length')")
  | Some JNull => Throw (TypeError "Cannot read properties of null (reading 'length')")
  | Some (JArr items) => Ok (Some (JNum (Z.of_nat (List.length items))))
  | Some (JStr s) => Ok (Some (JNum (Z.of_nat (String.length s))))
  | Some (JObj props) => Ok (obj_get "length" props)
  | Some _ => Ok None
  end.

(** [getRevocationCount()]. *)
Definition getRevocationCount : M (option jsval) :=
  store <- loadRevocationStore ;;
  lift (exc_bind (store_entries store) js_length).

End Registry.

(* ================================================================== *)
(** * lib/license.ts: signing and verification *)
(* ================================================================== *)

(** A [Uint8Array]: its elements, one [ascii] per byte. *)
Definition Uint8Array : Type := list ascii.

(** [@noble/ed25519] is a dependency, taken as a parameter: [signAsync
    (message, privateKey)] and [verifyAsync (signature, message,
    publicKey)]; a rejected promise is a [Throw]. *)
Class Ed25519 : Type := {
  ed_signAsync : Uint8Array -> Uint8Array -> Exc Uint8Array;
  ed_verifyAsync : Uint8Array -> Uint8Array -> Uint8Array -> Exc bool
}.

(** [Buffer] belongs to the Node.js runtime.  [Buffer.from(value,
    "base64")] reads a string as Base64 text; that part is modelled below.
    Given an array or another object it copies the elements of the array,
    or of what the object converts to, as bytes, and throws when the object
    cannot be converted; that part is taken as a parameter. *)
Class NodeBuffer : Type := {
  Buffer_from_object : jsval -> Exc Uint8Array
}.

(** The interface [SignedLicense] (extending [LicensePayload]), for code
    that only reads fields. *)
Record SignedLicense : Type := {
  plan : string;
  customer_id : string;
  issued_at : string;
  expires_at : string;
  offline_ttl_days : Z;
  signature : string
}.

(** ** Helpers *)

(** [new TextEncoder().encode(s)]: UTF-8, for code units below 256. *)
Fixpoint TextEncoder_encode (s : string) : Uint8Array :=
  match s with
  | EmptyString => []
  | String c s' =>
      let n := N_of_ascii c in
      if (n <? 128)%N then c :: TextEncoder_encode s'
      else ascii_of_N (192 + n / 64) :: ascii_of_N (128 + n mod 64)
             :: TextEncoder_encode s'
  end.

Definition is_StrWhiteSpaceChar (c : ascii) : bool :=
  let n := N_of_ascii c in
  ((9 <=? n) && (n <=? 13) || (n =? 32) || (n =? 160))%N.

Definition hex_value (c : ascii) : option Z :=
  let n := Z.of_N (N_of_ascii c) in
  if (48 <=? n) && (n <=? 57) then Some (n - 48)
  else if (65 <=? n) && (n <=? 70) then Some (n - 55)
  else if (97 <=? n) && (n <=? 102) then Some (n - 87)
  else None.

Fixpoint skip_StrWhiteSpace (s : string) : string :=
  match s with
  | String c s' => if is_StrWhiteSpaceChar c then skip_StrWhiteSpace s' else s
  | EmptyString => s
  end.

(** The longest prefix of hexadecimal digits, as a number; [None] when
    there is no digit. *)
Fixpoint hex_prefix (acc : option Z) (s : string) : option Z :=
  match s with
  | String c s' =>
      match hex_value c with
      | Some d => hex_prefix (Some (16 * match acc with Some a => a | None => 0 end + d)) s'
      | None => acc
      end
  | EmptyString => acc
  end.

Definition strip_0x (s : string) : string :=
  match s with
  | String "0" (String "x" s') => s'
  | String "0" (String "X" s') => s'
  | _ => s
  end.

(** [parseInt(s, 16)]; [None] is NaN. *)
Definition parseInt16 (s : string) : option Z :=
  match skip_StrWhiteSpace s with
  | String "-" s' => option_map Z.opp (hex_prefix None (strip_0x s'))
  | String "+" s' => hex_prefix None (strip_0x s')
  | s' => hex_prefix None (strip_0x s')
  end.

(** Storing a number into a [Uint8Array]: NaN becomes 0, the rest wraps. *)
Definition ToUint8 (x : option Z) : ascii :=
  match x with
  | Some n => ascii_of_N (Z.to_N (n mod 256))
  | None => ascii_of_N 0
  end.

(** [hexToBytes(hex)]: byte [i] is [parseInt(hex.substr(i * 2, 2), 16)],
    for [i] below [hex.length / 2] rounded down. *)
Fixpoint hexToBytes (hex : string) : Uint8Array :=
  match hex with
  | String a (String b rest) =>
      ToUint8 (parseInt16 (String a (String b EmptyString))) :: hexToBytes rest
  | _ => []
  end.

(** *** Base64, as [Buffer] does it *)

Definition base64_char (n : N) : ascii :=
  ascii_of_N (if n <? 26 then 65 + n
              else if n <? 52 then 71 + n
              else if n <? 62 then n - 4
              else if n =? 62 then 43 else 47)%N.

(** The value of a character of the alphabet; [Buffer] reads the URL-safe
    characters too. *)
Definition unbase64 (c : ascii) : option N :=
  let n := N_of_ascii c in
  (if (65 <=? n) && (n <=? 90) then Some (n - 65)
   else if (97 <=? n) && (n <=? 122) then Some (n - 71)
   else if (48 <=? n) && (n <=? 57) then Some (n + 4)
   else if (n =? 43) || (n =? 45) then Some 62
   else if (n =? 47) || (n =? 95) then Some 63
   else None)%N.

Definition pad_char : ascii := "=".

(** [Buffer.from(bytes).toString("base64")]. *)
Fixpoint base64_encode (bs : Uint8Array) : string :=
  match bs with
  | [] => EmptyString
  | [a] =>
      let x := N_of_ascii a in
      String (base64_char (x / 4)) (String (base64_char (x mod 4 * 16))
        (String pad_char (String pad_char EmptyString)))
  | [a; b] =>
      let x := N_of_ascii a in
      let y := N_of_ascii b in
      String (base64_char (x / 4)) (String (base64_char (x mod 4 * 16 + y / 16))
        (String (base64_char (y mod 16 * 4)) (String pad_char EmptyString)))
  | a :: b :: c :: rest =>
      let x := N_of_ascii a in
      let y := N_of_ascii b in
      let z := N_of_ascii c in
      String (base64_char (x / 4)) (String (base64_char (x mod 4 * 16 + y / 16))
        (String (base64_char (y mod 16 * 4 + z / 64))
           (String (base64_char (z mod 64)) (base64_encode rest))))
  end%N.

(** The values of the characters up to the first [=]; a character outside
    the alphabet is skipped. *)
Fixpoint base64_sextets (s : string) : list N :=
  match s with
  | EmptyString => []
  | String c s' =>
      if Ascii.eqb c pad_char then []
      else match unbase64 c with
           | Some n => n :: base64_sextets s'
           | None => base64_sextets s'
           end
  end.

(** Four values give three bytes; of a last incomplete group, three
    values give two bytes, two give one, a single one none. *)
Fixpoint base64_bytes (l : list N) : Uint8Array :=
  match l with
  | a :: b :: c :: d :: rest =>
      ascii_of_N (a * 4 + b / 16) :: ascii_of_N (b mod 16 * 16 + c / 4)
        :: ascii_of_N (c mod 4 * 64 + d) :: base64_bytes rest
  | [a; b; c] => [ascii_of_N (a * 4 + b / 16); ascii_of_N (b mod 16 * 16 + c / 4)]
  | [a; b] => [ascii_of_N (a * 4 + b / 16)]
  | _ => []
  end%N.

(** [bytesToBase64(bytes)]. *)
Definition bytesToBase64 (bytes : Uint8Array) : string := base64_encode bytes.

(** [base64ToBytes(base64)] on a string. *)
Definition base64ToBytes (base64 : string) : Uint8Array :=
  base64_bytes (base64_sextets base64).

(** [base64ToBytes(x)] for whatever [x] a caller passes, [None] being
    [undefined]: [Buffer.from] throws a [TypeError] unless [x] is a string
    or an object. *)
Definition Buffer_from {NB : NodeBuffer} (x : option jsval) : Exc Uint8Array :=
  match x with
  | Some (JStr base64) => Ok (base64ToBytes base64)
  | Some (JArr items) => Buffer_from_object (JArr items)
  | Some (JObj props) => Buffer_from_object (JObj props)
  | _ =>
      Throw (TypeError ("The first argument must be of type string or an instance "
                        ++ "of Buffer, ArrayBuffer, or Array or an Array-like Object."))
  end.

(** [canonicalize(obj)]: [JSON.stringify(obj, Object.keys(obj).sort())]. *)
Definition canonicalize (obj : jsobject) : string :=
  JSON_stringify (JObj obj) (Some (Array_sort (Object_keys obj))) 0.

(** The own enumerable properties of an array, or of a string taken as an
    object: one per index. *)
Fixpoint indexed (i : nat) (items : list jsval) : jsobject :=
  match items with
  | [] => []
  | x :: rest => (Z_to_string (Z.of_nat i), x) :: indexed (S i) rest
  end.

Definition chars_of (s : string) : list jsval :=
  map (fun c => JStr (String c EmptyString)) (list_ascii_of_string s).

(** [const { signature, ...payload } = license]: the value of the property
    ([None] is [undefined]) and the rest object.  Destructuring [null]
    throws. *)
Definition destructure_signature (license : jsval)
  : Exc (option jsval * jsobject) :=
  match license with
  | JNull => Throw (TypeError "Cannot destructure 'license' as it is null.")
  | JObj props => Ok (obj_get "signature" props, obj_remove "signature" props)
  | JArr items => Ok (None, indexed 0 items)
  | JStr s => Ok (None, indexed 0 (chars_of s))
  | JNum _ | JBool _ => Ok (None, [])
  end.

Section License.

Variable config : Config.
Context {ED : Ed25519} {NB : NodeBuffer}.

(** [signLicense(payload)]; the promise is rejected when signing throws. *)
Definition signLicense (payload : jsobject) : Exc jsobject :=
  let privateKey := hexToBytes (licensePrivateKey config) in
  let message := canonicalize payload in
  exc_bind (ed_signAsync (TextEncoder_encode message) privateKey)
    (fun sig => Ok (obj_set "signature" (JStr (bytesToBase64 sig)) payload)).

(** The body of the [try] block of [verifyLicense].  The interface
    [SignedLicense] is erased at run time: the function receives any
    value. *)
Definition verifyLicense_try (license : jsval) : Exc bool :=
  let publicKey := hexToBytes (licensePublicKey config) in
  exc_bind (destructure_signature license)
    (fun '(signature, payload) =>
       let message := canonicalize payload in
       exc_bind (Buffer_from signature)
         (fun sig => ed_verifyAsync sig (TextEncoder_encode message) publicKey)).

(** [verifyLicense(license)]: [try { ... } catch { return false; }]. *)
Definition verifyLicense (license : jsval) : Exc bool :=
  match verifyLicense_try license with
  | Ok b => Ok b
  | Throw _ => Ok false
  end.

End License.

(** [isWithinOfflineTTL(license, lastVerified)]. *)
Definition isWithinOfflineTTL (license : SignedLicense) (lastVerified : Date)
  : M bool :=
  let ttlMs := offline_ttl_days license * 24 * 60 * 60 * 1000 in
  let deadline := Date_plus lastVerified ttlMs in
  now <- new_Date ;;
  ret (Date_lt now deadline).

(** ** Keys in hexadecimal *)

(** [Buffer.from(bytes).toString('hex')], by which the README of the
    repository prints the generated keys: two lower-case digits a byte. *)
Definition Buffer_toString_hex (bytes : Uint8Array) : string :=
  String.concat ""
    (map (fun c => let n := N_of_ascii c in
                   String (hex_digit (n / 16)) (String (hex_digit (n mod 16)) ""))
       bytes).

(** ** Expiry *)

(** [Date.parse] belongs to the runtime and is taken as a parameter: the
    [Date] that [new Date(text)] makes of a text, an invalid one when the
    text is no date. *)
Class DateParser : Type := { Date_parse : string -> Date }.

(** [isLicenseExpired(license)]. *)
Definition isLicenseExpired {DP : DateParser} (license : SignedLicense) : M bool :=
  let expiresAt := Date_parse (expires_at license) in
  now <- new_Date ;;
  ret (Date_lt expiresAt now).

(* ================================================================== *)
(** * lib/payment-gateway.ts: the payment event gateway *)
(* ================================================================== *)

Inductive PaymentProvider : Type := stripe | paddle.

Definition provider_string (p : PaymentProvider) : string :=
  match p with
  | stripe => "stripe"
  | paddle => "paddle"
  end.

(** The type [PaymentEventType] names four event types; it is erased at
    run time, where the [default] branch of the dispatch receives any
    other string. *)
Inductive PaymentEventType : Type :=
| checkout_completed
| subscription_updated
| subscription_cancelled
| payment_failed
| other_event_type (name : string).

Definition eventType_string (t : PaymentEventType) : string :=
  match t with
  | checkout_completed => "checkout_completed"
  | subscription_updated => "subscription_updated"
  | subscription_cancelled => "subscription_cancelled"
  | payment_failed => "payment_failed"
  | other_event_type name => name
  end.

Inductive Plan : Type := FREE | PRO.

Definition plan_string (p : Plan) : string :=
  match p with
  | FREE => "FREE"
  | PRO => "PRO"
  end.

Record PaymentEvent : Type := {
  provider : PaymentProvider;
  eventType : PaymentEventType;
  email : string;
  ev_plan : Plan;
  externalCustomerId : string;
  externalTransactionId : string;
  expiresAt : option Date;
  metadata : option (list (string * string))
}.

Record PaymentResult : Type := {
  success : bool;
  customerId : option string;
  licenseId : option string;
  error : option string
}.

Section Gateway.

Variable config : Config.
Context {JP : JSONParser} {ED : Ed25519}.

(** [event.expiresAt || new Date(now.getTime() + 365 * 24 * 60 * 60 * 1000)]:
    a [Date] object is truthy whatever its time value. *)
Definition expiry (event : PaymentEvent) (now : Date) : Date :=
  match expiresAt event with
  | Some d => d
  | None => Date_plus now (365 * 24 * 60 * 60 * 1000)
  end.

(** The object literal [{ plan, customer_id, issued_at, expires_at,
    offline_ttl_days: 30 }] of both issuing handlers. *)
Definition LicensePayload_literal (plan customer_id issued_at expires_at : string)
  : jsobject :=
  [ ("plan", JStr plan);
    ("customer_id", JStr customer_id);
    ("issued_at", JStr issued_at);
    ("expires_at", JStr expires_at);
    ("offline_ttl_days", JNum 30) ].

(** The statements shared by [handleCheckoutCompleted] and
    [handleSubscriptionUpdated] from [const now = new Date()] on: build the
    payload, sign it, store the license.  [createLicense] is called with
    seven arguments, [event.provider] and [event.externalTransactionId]
    last; it declares five parameters, the two extra arguments are
    evaluated and dropped. *)
Definition issue_license (event : PaymentEvent) (customer_id : string)
  : M PaymentResult :=
  now <- new_Date ;;
  let expiresAt := expiry event now in
  issued_at <- lift (toISOString now) ;;
  expires_at <- lift (toISOString expiresAt) ;;
  let payload :=
    LicensePayload_literal (plan_string (ev_plan event)) customer_id
      issued_at expires_at in
  _ <- lift (signLicense config payload) ;;
  licenseId <- uuid ;;
  _ <- createLicense config licenseId customer_id (plan_string (ev_plan event))
         issued_at expires_at ;;
  ret {| success := true; customerId := Some customer_id;
         licenseId := Some licenseId; error := None |}.

(** [handleCheckoutCompleted(event)].  [createCustomer] is called with four
    arguments, [stripeId] and [paddleId]; it declares three parameters, so
    [paddleId] is dropped. *)
Definition handleCheckoutCompleted (event : PaymentEvent) : M PaymentResult :=
  found <- findCustomerByEmail (email event) ;;
  customer_id <-
    match found with
    | Some customer => ret (cust_id customer)
    | None =>
        customerId <- uuid ;;
        let stripeId := match provider event with
                        | stripe => Some (externalCustomerId event)
                        | paddle => None
                        end in
        _ <- createCustomer config customerId (email event) stripeId ;;
        ret customerId
    end ;;
  issue_license event customer_id.

(** [handleSubscriptionUpdated(event)]. *)
Definition handleSubscriptionUpdated (event : PaymentEvent) : M PaymentResult :=
  found <- findCustomerByEmail (email event) ;;
  match found with
  | None =>
      ret {| success := false; customerId := None; licenseId := None;
             error := Some "Customer not found" |}
  | Some customer =>
      existingLicense <- findLicenseByCustomer (cust_id customer) ;;
      let unchanged :=
        match existingLicense with
        | Some l => String.eqb (lic_plan l) (plan_string (ev_plan event))
        | None => false
        end in
      if unchanged then
        ret {| success := true; customerId := Some (cust_id customer);
               licenseId := None; error := None |}
      else issue_license event (cust_id customer)
  end.

(** [handleSubscriptionCancelled(event)]. *)
Definition handleSubscriptionCancelled (event : PaymentEvent) : M PaymentResult :=
  found <- findCustomerByEmail (email event) ;;
  match found with
  | None =>
      ret {| success := false; customerId := None; licenseId := None;
             error := Some "Customer not found" |}
  | Some customer =>
      _ <- addRevocation (cust_id customer)
             ("Subscription cancelled via " ++ provider_string (provider event))%string ;;
      _ <- getDb ;;
      revokedAt <- now_ISO ;;
      _ <- db_run (update_revoked_at revokedAt (cust_id customer)) ;;
      _ <- saveDb config ;;
      ret {| success := true; customerId := Some (cust_id customer);
             licenseId := None; error := None |}
  end.

(** [handlePaymentFailed(event)]. *)
Definition handlePaymentFailed (event : PaymentEvent) : PaymentResult :=
  {| success := true; customerId := None; licenseId := None; error := None |}.

(** The [switch] inside the [try] block of [processPaymentEvent]. *)
Definition dispatch (event : PaymentEvent) : M PaymentResult :=
  match eventType event with
  | checkout_completed => handleCheckoutCompleted event
  | subscription_updated => handleSubscriptionUpdated event
  | subscription_cancelled => handleSubscriptionCancelled event
  | payment_failed => ret (handlePaymentFailed event)
  | other_event_type name =>
      ret {| success := false; customerId := None; licenseId := None;
             error := Some ("Unknown event type: " ++ name)%string |}
  end.

(** [processPaymentEvent(event)] for an event of the declared type: the
    log statement, then
    [try { switch ... } catch (err) { return { success: false, error: String(err) }; }]. *)
Definition processPaymentEvent (event : PaymentEvent) : M PaymentResult :=
  console_log ("[payment] Processing " ++ provider_string (provider event) ++ ":"
               ++ eventType_string (eventType event) ++ " for " ++ email event)%string ;;
  try_catch (dispatch event)
    (fun err => ret {| success := false; customerId := None; licenseId := None;
                       error := Some (String_of_error err) |}).

End Gateway.

(** ** An event of any shape *)

(** The types of TypeScript are erased at run time, and the routes build
    their events from what [JSON.parse] gave them: [processPaymentEvent]
    may be called with [undefined], with [null], or with an object whose
    fields hold other values than the interface [PaymentEvent] says.
    [EventFields] is such an object, in the three fields that the log
    statement converts to strings before the [try] is entered: they hold
    any value, [None] being [undefined].  The other fields are read inside
    the [try] only. *)
Record EventFields : Type := {
  any_provider : option jsval;
  any_eventType : option jsval;
  any_email : option jsval;
  any_plan : Plan;
  any_externalCustomerId : string;
  any_externalTransactionId : string;
  any_expiresAt : option Date;
  any_metadata : option (list (string * string))
}.






(** What [handleCheckoutCompleted], [handleSubscriptionUpdated] and
    [handleSubscriptionCancelled] do with a provider or an email that is no
    string is decided by how sql.js binds such a value: it is taken as a
    parameter, of which nothing is assumed. *)
Class UntypedHandlers : Type := {
  handle_untyped : EventFields -> M PaymentResult
}.

Section AnyEvent.

Variable config : Config.
Context {JP : JSONParser} {ED : Ed25519} {UH : UntypedHandlers}.




End AnyEvent.

(* ================================================================== *)
(** * routes/paddle.ts and routes/stripe.ts: what the routes compute *)
(* ================================================================== *)

(** ** Strings *)

(** [s.toLowerCase()], for code units below 256: the letters [A] to [Z]
    and the capital letters of Latin-1. *)
Definition toLowerCase_unit (c : ascii) : ascii :=
  let n := N_of_ascii c in
  if ((65 <=? n) && (n <=? 90) || (192 <=? n) && (n <=? 214)
      || (216 <=? n) && (n <=? 222))%N
  then ascii_of_N (n + 32) else c.

Fixpoint toLowerCase (s : string) : string :=
  match s with
  | EmptyString => EmptyString
  | String c s' => String (toLowerCase_unit c) (toLowerCase s')
  end.

(** [s.includes(part)]. *)
Fixpoint includes (s part : string) : bool :=
  String.prefix part s
  || match s with
     | EmptyString => false
     | String _ s' => includes s' part
     end.

(** [s.split(sep)] for a separator of one code unit. *)
Fixpoint split (sep : ascii) (s : string) : list string :=
  match s with
  | EmptyString => [EmptyString]
  | String c s' =>
      if Ascii.eqb c sep then EmptyString :: split sep s'
      else match split sep s' with
           | head :: tail => String c head :: tail
           | [] => [String c EmptyString]
           end
  end.

(** [s.slice(n)] for [n >= 0]. *)
Fixpoint slice (n : nat) (s : string) : string :=
  match n, s with
  | S n', String _ s' => slice n' s'
  | _, _ => s
  end.

Definition dec_value (c : ascii) : option Z :=
  let n := Z.of_N (N_of_ascii c) in
  if (48 <=? n) && (n <=? 57) then Some (n - 48) else None.

(** The longest prefix of decimal digits, as a number; [None] when there is
    no digit. *)
Fixpoint dec_prefix (acc : option Z) (s : string) : option Z :=
  match s with
  | String c s' =>
      match dec_value c with
      | Some d => dec_prefix (Some (10 * match acc with Some a => a | None => 0 end + d)) s'
      | None => acc
      end
  | EmptyString => acc
  end.

(** [parseInt(s, 10)]; [None] is NaN.  The runtime rounds a number of
    more than 15 digits to a double; no such number is within 300 of a
    clock reading, which is all [verifyPaddleSignature] asks of it. *)
Definition parseInt10 (s : string) : option Z :=
  match skip_StrWhiteSpace s with
  | String "-" s' => option_map Z.opp (dec_prefix None s')
  | String "+" s' => dec_prefix None s'
  | s' => dec_prefix None s'
  end.

(** [x] as a condition, for a string that may be [undefined]: the empty
    string is falsy. *)
Definition truthy (x : option string) : bool :=
  match x with
  | Some s => negb (String.eqb s "")
  | None => false
  end.

(** ** The plan of a purchase *)

(** The parts of the interfaces [PaddleItem], [PaddleEventData] and
    [PaddleWebhookEvent] that the code reads; a field marked [?] in the
    interface, or reached through [?.], is an option. *)
Record PaddleProduct : Type := {
  product_name : option string;
  product_custom_data : option (list (string * string))
}.

Record PaddleItem : Type := { item_product : option PaddleProduct }.

Record BillingPeriod : Type := { starts_at : string; ends_at : string }.

Record PaddleEventData : Type := {
  data_id : string;
  data_customer_id : string;
  data_items : option (list PaddleItem);
  data_custom_data : option (list (string * string));
  data_current_billing_period : option BillingPeriod
}.

Record PaddleWebhookEvent : Type := {
  event_id : string;
  event_type : string;
  occurred_at : string;
  data : PaddleEventData
}.

(** [item.product?.custom_data?.plan]. *)
Definition planFromCustomData (item : PaddleItem) : option string :=
  match item_product item with
  | Some product =>
      match product_custom_data product with
      | Some custom_data => obj_get "plan" custom_data
      | None => None
      end
  | None => None
  end.

(** [item.product?.name?.toLowerCase() || ""]. *)
Definition productName (item : PaddleItem) : string :=
  match item_product item with
  | Some product =>
      match product_name product with
      | Some name => toLowerCase name
      | None => EmptyString
      end
  | None => EmptyString
  end.

(** The [for] loop of [determinePlanFromItems], and the [return] after
    it. *)
Fixpoint plan_of_items (items : list PaddleItem) : Plan :=
  match items with
  | [] => PRO
  | item :: rest =>
      let plan := planFromCustomData item in
      if match plan with
         | Some p => String.eqb p "PRO" || String.eqb p "pro"
         | None => false
         end
      then PRO
      else if includes (productName item) "pro" || includes (productName item) "premium"
      then PRO
      else plan_of_items rest
  end.

(** [determinePlanFromItems(items)] of routes/paddle.ts. *)
Definition determinePlanFromItems (items : option (list PaddleItem)) : Plan :=
  match items with
  | None => FREE
  | Some [] => FREE
  | Some items => plan_of_items items
  end.

(** [determinePlanFromPriceId(priceId)] of routes/stripe.ts;
    [proPriceId] is [process.env.STRIPE_PRO_PRICE_ID]. *)
Definition determinePlanFromPriceId (proPriceId priceId : option string) : Plan :=
  match priceId with
  | None => FREE
  | Some id =>
      if String.eqb id "" then FREE
      else if truthy proPriceId
              && match proPriceId with
                 | Some pro => String.eqb id pro
                 | None => false
                 end
      then PRO
      else if includes (toLowerCase id) "pro" || includes (toLowerCase id) "premium"
      then PRO
      else PRO
  end.

(** ** The signature of a Paddle webhook *)

(** [crypto.createHmac("sha256", secret).update(data).digest("hex")]
    belongs to the runtime and is taken as a parameter. *)
Class NodeCrypto : Type := { hmac_sha256_hex : string -> string -> string }.

(** [Buffer.from(s)]: the UTF-8 bytes of a string. *)
Definition Buffer_from_string (s : string) : Uint8Array := TextEncoder_encode s.

(** [crypto.timingSafeEqual(a, b)]: a [RangeError] unless the two have the
    same length. *)
Definition timingSafeEqual (a b : Uint8Array) : Exc bool :=
  if negb (List.length a =? List.length b)%nat
  then Throw (RangeError "Input buffers must have the same byte length")
  else Ok (String.eqb (string_of_list_ascii a) (string_of_list_ascii b)).

(** [Math.abs(now - eventTime) > 300]: false when [eventTime] is NaN. *)
Definition too_old (now : Z) (eventTime : option Z) : bool :=
  match eventTime with
  | Some t => 300 <? Z.abs (now - t)
  | None => false
  end.

(** [verifyPaddleSignature(payload, signature, secret)]; [secret] is [None]
    when it is [undefined]. *)
Definition verifyPaddleSignature {NC : NodeCrypto}
    (payload signature : string) (secret : option string) : M bool :=
  match secret with
  | None => ret true
  | Some secret =>
      if String.eqb secret "" then ret true
      else
        try_catch
          (let parts := split ";" signature in
           let tsMatch := find (String.prefix "ts=") parts in
           let h1Match := find (String.prefix "h1=") parts in
           match tsMatch, h1Match with
           | Some tsMatch, Some h1Match =>
               let timestamp := slice 3 tsMatch in
               let expectedSignature := slice 3 h1Match in
               let eventTime := parseInt10 timestamp in
               t <- Date_now ;;
               let now := t / 1000 in
               if too_old now eventTime then ret false
               else
                 let signedPayload := (timestamp ++ ":" ++ payload)%string in
                 let computedSignature := hmac_sha256_hex secret signedPayload in
                 lift (timingSafeEqual (Buffer_from_string expectedSignature)
                         (Buffer_from_string computedSignature))
           | _, _ => ret false
           end)
          (fun _ => ret false)
  end.

(** ** The handlers of the Paddle webhook *)

Module PaddleRoute.

Section Handlers.

Variable config : Config.
Context {JP : JSONParser} {ED : Ed25519} {DP : DateParser}.

(** [data.custom_data?.email]. *)
Definition custom_email (data : PaddleEventData) : option string :=
  match data_custom_data data with
  | Some custom_data => obj_get "email" custom_data
  | None => None
  end.

(** [if (data.current_billing_period?.ends_at) expiresAt = new Date(...)]. *)
Definition period_end (data : PaddleEventData) : option Date :=
  match data_current_billing_period data with
  | Some period =>
      if String.eqb (ends_at period) "" then None
      else Some (Date_parse (ends_at period))
  | None => None
  end.

(** [handleTransactionCompleted(event)] of routes/paddle.ts. *)
Definition handleTransactionCompleted (event : PaddleWebhookEvent) : M unit :=
  let data := data event in
  match custom_email data with
  | Some email =>
      if String.eqb email "" then ret tt
      else
        let plan := determinePlanFromItems (data_items data) in
        let expiresAt := period_end data in
        _ <- processPaymentEvent config
               {| provider := paddle; eventType := checkout_completed;
                  email := email; ev_plan := plan;
                  externalCustomerId := data_customer_id data;
                  externalTransactionId := data_id data;
                  expiresAt := expiresAt; metadata := data_custom_data data |} ;;
        ret tt
  | None => ret tt
  end.

(** [handleSubscriptionUpdated(event)] of routes/paddle.ts. *)
Definition handleSubscriptionUpdated (event : PaddleWebhookEvent) : M unit :=
  let data := data event in
  match custom_email data with
  | Some email =>
      if String.eqb email "" then ret tt
      else
        let plan := determinePlanFromItems (data_items data) in
        let expiresAt := period_end data in
        _ <- processPaymentEvent config
               {| provider := paddle; eventType := subscription_updated;
                  email := email; ev_plan := plan;
                  externalCustomerId := data_customer_id data;
                  externalTransactionId := data_id data;
                  expiresAt := expiresAt; metadata := data_custom_data data |} ;;
        ret tt
  | None => ret tt
  end.

(** [handleSubscriptionCanceled(event)] of routes/paddle.ts. *)
Definition handleSubscriptionCanceled (event : PaddleWebhookEvent) : M unit :=
  let data := data event in
  match custom_email data with
  | Some email =>
      if String.eqb email "" then ret tt
      else
        _ <- processPaymentEvent config
               {| provider := paddle; eventType := subscription_cancelled;
                  email := email; ev_plan := FREE;
                  externalCustomerId := data_customer_id data;
                  externalTransactionId := data_id data;
                  expiresAt := None; metadata := data_custom_data data |} ;;
        ret tt
  | None => ret tt
  end.

End Handlers.

End PaddleRoute.

(* ================================================================== *)
(** * Values that stand for JavaScript values *)
(* ================================================================== *)

(** The number an array-index key denotes: a canonical numeric string
    below 2^32 - 1. *)
Definition array_index (k : string) : option Z :=
  match NilZero.uint_of_string k with
  | Some d =>
      let n := Z.of_uint d in
      if String.eqb (Z_to_string n) k && (n <? 4294967295) then Some n else None
  | None => None
  end.

(** Own property keys come in enumeration order: array indices first, in
    ascending order, then the other keys in the order they were added. *)
Fixpoint keys_ordered (last : option Z) (seen_plain : bool) (keys : list string)
  : bool :=
  match keys with
  | [] => true
  | k :: ks =>
      match array_index k with
      | Some i =>
          negb seen_plain
          && match last with
             | Some j => j <? i
             | None => true
             end
          && keys_ordered (Some i) false ks
      | None => keys_ordered last true ks
      end
  end.

Fixpoint distinct (keys : list string) : bool :=
  match keys with
  | [] => true
  | k :: ks => negb (existsb (String.eqb k) ks) && distinct ks
  end.

Definition keys_ok (keys : list string) : bool :=
  distinct keys && keys_ordered None false keys.

(** A [jsval] stands for a JavaScript value when the keys of each object in
    it are distinct and in enumeration order. *)
Fixpoint json_wf (v : jsval) : bool :=
  match v with
  | JArr items => forallb json_wf items
  | JObj props =>
      keys_ok (map fst props)
      && forallb (fun kv => match kv with
                            | (_, x) => json_wf x
                            end) props
  | _ => true
  end.

(** What is assumed of [JSON.parse]: it reads back what [JSON.stringify
    (v, null, 2)] wrote, it returns JavaScript values, and it rejects the
    empty text. *)
Class JSONParserLaws (JP : JSONParser) : Prop := {
  parse_stringify :
    forall v, json_wf v = true -> JSON_parse (JSON_stringify v None 2) = Some v;
  parse_wf : forall raw v, JSON_parse raw = Some v -> json_wf v = true;
  parse_empty : JSON_parse "" = None
}.


(** What is assumed of the signature library: signatures are 64 bytes
    long, and nothing else verifies. *)
Class Ed25519Laws (ED : Ed25519) : Prop := {
  signature_length :
    forall message key sig,
      ed_signAsync message key = Ok sig -> List.length sig = 64%nat;
  verified_length :
    forall sig message key,
      ed_verifyAsync sig message key = Ok true -> List.length sig = 64%nat
}.

(* ================================================================== *)
(** * A reference JSON parser *)
(* ================================================================== *)

(** A recursive descent parser for the JSON texts over the values of
    [jsval]: integers as numbers, code units below 256 in strings.  It
    serves as an instance of [JSONParser] to run the program on concrete
    worlds. *)
Module RefJSON.

Definition is_ws (c : ascii) : bool :=
  let n := N_of_ascii c in
  ((n =? 32) || (n =? 9) || (n =? 10) || (n =? 13))%N.

Fixpoint skip_ws (s : string) : string :=
  match s with
  | String c s' => if is_ws c then skip_ws s' else s
  | EmptyString => s
  end.

Definition is_digit (c : ascii) : bool :=
  let n := N_of_ascii c in ((48 <=? n) && (n <=? 57))%N.

Definition unescape (c : ascii) : option ascii :=
  let n := N_of_ascii c in
  (if n =? 34 then Some dquote
   else if n =? 92 then Some "\"%char
   else if n =? 47 then Some "/"%char
   else if n =? 98 then Some (ascii_of_N 8)
   else if n =? 102 then Some (ascii_of_N 12)
   else if n =? 110 then Some (ascii_of_N 10)
   else if n =? 114 then Some (ascii_of_N 13)
   else if n =? 116 then Some (ascii_of_N 9)
   else None)%N.

Definition hex4 (a b c d : ascii) : option Z :=
  match hex_value a, hex_value b, hex_value c, hex_value d with
  | Some x, Some y, Some z, Some t => Some (((x * 16 + y) * 16 + z) * 16 + t)
  | _, _, _, _ => None
  end.

Definition cons_char (c : ascii) (r : option (string * string))
  : option (string * string) :=
  match r with
  | Some (body, rest) => Some (String c body, rest)
  | None => None
  end.

(** The characters of a string literal after its opening quote, and the
    text after the closing quote. *)
Fixpoint parse_string_body (s : string) : option (string * string) :=
  match s with
  | EmptyString => None
  | String c rest =>
      if Ascii.eqb c dquote then Some (EmptyString, rest)
      else if Ascii.eqb c "\" then
        match rest with
        | String e rest' =>
            match unescape e with
            | Some ch => cons_char ch (parse_string_body rest')
            | None =>
                if Ascii.eqb e "u" then
                  match rest' with
                  | String h1 (String h2 (String h3 (String h4 rest''))) =>
                      match hex4 h1 h2 h3 h4 with
                      | Some n =>
                          if n <? 256
                          then cons_char (ascii_of_N (Z.to_N n))
                                 (parse_string_body rest'')
                          else None
                      | None => None
                      end
                  | _ => None
                  end
                else None
            end
        | EmptyString => None
        end
      else if (N_of_ascii c <? 32)%N then None
      else cons_char c (parse_string_body rest)
  end.

Fixpoint take_digits (s : string) : string * string :=
  match s with
  | String c s' =>
      if is_digit c then let (ds, rest) := take_digits s' in (String c ds, rest)
      else (EmptyString, s)
  | EmptyString => (EmptyString, s)
  end.

Definition starts_fraction (s : string) : bool :=
  match s with
  | String c _ => Ascii.eqb c "." || Ascii.eqb c "e" || Ascii.eqb c "E"
  | EmptyString => false
  end.

(** An integer literal: an optional minus sign, then [0] or digits not
    starting with [0]; a fraction or an exponent is not read. *)
Definition parse_number (s : string) : option (Z * string) :=
  let '(sign, s1) := match s with
                     | String c r => if Ascii.eqb c "-" then ("-", r) else ("", s)
                     | EmptyString => ("", s)
                     end in
  let (ds, rest) := take_digits s1 in
  match ds with
  | EmptyString => None
  | String c ds' =>
      if Ascii.eqb c "0" && negb (String.eqb ds' "") then None
      else if starts_fraction rest then None
      else match NilZero.int_of_string (sign ++ ds) with
           | Some d => Some (Z.of_int d, rest)
           | None => None
           end
  end.

Definition expect (word : string) (v : jsval) (s : string)
  : option (jsval * string) :=
  if String.prefix word s
  then Some (v, String.substring (String.length word)
                  (String.length s - String.length word) s)
  else None.

(** [CreateDataProperty] on the object a parser is building. *)
Definition define (k : string) (v : jsval) (o : jsobject) : jsobject :=
  obj_set k v o.

Fixpoint parse_value (fuel : nat) (s : string) : option (jsval * string) :=
  match fuel with
  | O => None
  | S fuel' =>
      match skip_ws s with
      | EmptyString => None
      | String c rest =>
          if Ascii.eqb c "n" then expect "null" JNull (String c rest)
          else if Ascii.eqb c "t" then expect "true" (JBool true) (String c rest)
          else if Ascii.eqb c "f" then expect "false" (JBool false) (String c rest)
          else if Ascii.eqb c dquote then
            match parse_string_body rest with
            | Some (body, rest') => Some (JStr body, rest')
            | None => None
            end
          else if Ascii.eqb c "[" then
            match skip_ws rest with
            | String c' rest' =>
                if Ascii.eqb c' "]" then Some (JArr [], rest')
                else parse_items fuel' rest []
            | EmptyString => None
            end
          else if Ascii.eqb c "{" then
            match skip_ws rest with
            | String c' rest' =>
                if Ascii.eqb c' "}" then Some (JObj [], rest')
                else parse_members fuel' rest []
            | EmptyString => None
            end
          else
            match parse_number (String c rest) with
            | Some (n, rest') => Some (JNum n, rest')
            | None => None
            end
      end
  end

with parse_items (fuel : nat) (s : string) (acc : list jsval)
  : option (jsval * string) :=
  match fuel with
  | O => None
  | S fuel' =>
      match parse_value fuel' s with
      | Some (v, rest) =>
          match skip_ws rest with
          | String c rest' =>
              if Ascii.eqb c "," then parse_items fuel' rest' (acc ++ [v])
              else if Ascii.eqb c "]" then Some (JArr (acc ++ [v]), rest')
              else None
          | EmptyString => None
          end
      | None => None
      end
  end

with parse_members (fuel : nat) (s : string) (acc : jsobject)
  : option (jsval * string) :=
  match fuel with
  | O => None
  | S fuel' =>
      match skip_ws s with
      | String c rest =>
          if Ascii.eqb c dquote then
            match parse_string_body rest with
            | Some (k, rest1) =>
                match skip_ws rest1 with
                | String c1 rest2 =>
                    if Ascii.eqb c1 ":" then
                      match parse_value fuel' rest2 with
                      | Some (v, rest3) =>
                          match skip_ws rest3 with
                          | String c3 rest4 =>
                              if Ascii.eqb c3 ","
                              then parse_members fuel' rest4 (define k v acc)
                              else if Ascii.eqb c3 "}"
                              then Some (JObj (define k v acc), rest4)
                              else None
                          | EmptyString => None
                          end
                      | None => None
                      end
                    else None
                | EmptyString => None
                end
            | None => None
            end
          else None
      | EmptyString => None
      end
  end.

(** The whole text is one value, with white space around it.  A value
    whose keys are not in enumeration order is not returned: the parser
    does not move array-index keys to the front as the engine would. *)
Definition parse (raw : string) : option jsval :=
  match parse_value (2 * String.length raw + 2) raw with
  | Some (v, rest) =>
      match skip_ws rest with
      | EmptyString => if json_wf v then Some v else None
      | _ => None
      end
  | None => None
  end.

End RefJSON.

#[export] Instance RefJSONParser : JSONParser := {| JSON_parse := RefJSON.parse |}.

(* ================================================================== *)
(** * Stand-ins for the signature library and for [Buffer] *)
(* ================================================================== *)

(** A keyed digest with the interface of Ed25519, in the way the test
    suite of the gateway replaces [signLicense] by a mock: a key is 32
    bytes, a signature 64 bytes, and the public key of a private key is
    that key itself.  The signature is the key followed by 32 bytes of the
    message: its length and the message itself when it has fewer than 32
    bytes, a mark and a checksum when it is longer.  It only serves to run
    the program on concrete inputs. *)
Module MockEd.

Definition checksum (message : Uint8Array) : N :=
  fold_left (fun acc c => (acc * 31 + N_of_ascii c) mod 4294967296)%N message 7%N.

Definition digest (message : Uint8Array) : Uint8Array :=
  if (List.length message <? 32)%nat
  then ascii_of_nat (List.length message)
         :: message ++ repeat zero (31 - List.length message)
  else ascii_of_nat 255
         :: map (fun i => ascii_of_N (checksum message / N.pow 2 (N.of_nat i)))
              (seq 0 31).

Definition sign (message key : Uint8Array) : Uint8Array := key ++ digest message.

Definition ascii_list_eqb (a b : Uint8Array) : bool :=
  String.eqb (string_of_list_ascii a) (string_of_list_ascii b).

Definition signAsync (message key : Uint8Array) : Exc Uint8Array :=
  if (List.length key =? 32)%nat then Ok (sign message key)
  else Throw (Error "private key of length 32 expected").

Definition verifyAsync (sig message key : Uint8Array) : Exc bool :=
  if negb (List.length sig =? 64)%nat
  then Throw (Error "signature of length 64 expected")
  else if negb (List.length key =? 32)%nat
  then Throw (Error "public key of length 32 expected")
  else Ok (ascii_list_eqb sig (sign message key)).

End MockEd.

#[export] Instance MockEd25519 : Ed25519 :=
  {| ed_signAsync := MockEd.signAsync; ed_verifyAsync := MockEd.verifyAsync |}.

(** A stand-in for the conversion of objects to bytes: an array of
    integers is copied, each modulo 256, and anything else is refused.  The
    concrete inputs below carry their signatures as strings. *)
Module MockBuffer.

Fixpoint bytes_of (items : list jsval) : option Uint8Array :=
  match items with
  | [] => Some []
  | JNum n :: rest => option_map (cons (ToUint8 (Some n))) (bytes_of rest)
  | _ => None
  end.

Definition from_object (value : jsval) : Exc Uint8Array :=
  match value with
  | JArr items =>
      match bytes_of items with
      | Some bytes => Ok bytes
      | None => Throw (TypeError "an array of integers expected")
      end
  | _ => Throw (TypeError "an array of integers expected")
  end.

End MockBuffer.

#[export] Instance MockNodeBuffer : NodeBuffer :=
  {| Buffer_from_object := MockBuffer.from_object |}.


(** A stand-in for the handlers on an event outside its type: the store
    refuses to bind a value that is no string. *)
#[export] Instance MockUntypedHandlers : UntypedHandlers :=
  {| handle_untyped :=
       fun _ => throw (Error "Wrong API use : tried to bind a value of an unknown type") |}.

(** ** A reader of dates *)

(** A stand-in for [Date.parse]: it reads the format [toISOString] writes,
    [YYYY-MM-DDTHH:mm:ss.sssZ], and takes any other text for no date. *)
Module MockDate.

Definition is_digit (c : ascii) : bool :=
  match dec_value c with Some _ => true | None => false end.

(** The [len] digits from [start] on, as a number. *)
Definition field (start len : nat) (s : string) : option Z :=
  let part := String.substring start len s in
  if (String.length part =? len)%nat && forallb is_digit (list_ascii_of_string part)
  then dec_prefix None part
  else None.

(** The number of days from the epoch to a day of the calendar. *)
Definition days_from_civil (y m d : Z) : Z :=
  let y' := if m <=? 2 then y - 1 else y in
  let era := y' / 400 in
  let yoe := y' - era * 400 in
  let doy := (153 * ((m + 9) mod 12) + 2) / 5 + d - 1 in
  era * 146097 + (yoe * 365 + yoe / 4 - yoe / 100 + doy) - 719468.

Definition marks (s : string) : bool :=
  String.eqb (String.substring 4 1 s) "-" && String.eqb (String.substring 7 1 s) "-"
  && String.eqb (String.substring 10 1 s) "T" && String.eqb (String.substring 13 1 s) ":"
  && String.eqb (String.substring 16 1 s) ":" && String.eqb (String.substring 19 1 s) "."
  && String.eqb (String.substring 23 2 s) "Z".

Definition parse (s : string) : Date :=
  match field 0 4 s, field 5 2 s, field 8 2 s,
        field 11 2 s, field 14 2 s, field 17 2 s, field 20 3 s with
  | Some y, Some mo, Some d, Some h, Some mi, Some sec, Some ms =>
      if marks s && (1 <=? mo) && (mo <=? 12) && (1 <=? d) && (d <=? 31)
         && (h <=? 23) && (mi <=? 59) && (sec <=? 59)
      then ValidDate (days_from_civil y mo d * msPerDay
                      + ((h * 60 + mi) * 60 + sec) * 1000 + ms)
      else InvalidDate
  | _, _, _, _, _, _, _ => InvalidDate
  end.

End MockDate.

#[export] Instance MockDateParser : DateParser := {| Date_parse := MockDate.parse |}.

(* ================================================================== *)
(** * The notions the properties are stated with *)
(* ================================================================== *)

(** ** The runtime *)

(** The text [new Date().toISOString()] yields in a world. *)
Definition ISO_at (w : World) : string :=
  match toISOString (ValidDate (clock w (ticks w))) with
  | Ok s => s
  | Throw _ => EmptyString
  end.

Definition tick (w : World) : World := set_ticks (S (ticks w)) w.

(** The world after [ensureDataDir()]. *)
Definition with_data_dir (w : World) : World :=
  if data_dir w then w else set_data_dir true w.

(** ** The registry *)

(** [e.license_id === licenseId], for an entry that is not [null]. *)
Definition matchesb (licenseId : string) (e : jsval) : bool :=
  match e with
  | JObj props =>
      match obj_get "license_id" props with
      | Some (JStr s) => String.eqb s licenseId
      | _ => false
      end
  | _ => false
  end.

Definition not_null (e : jsval) : bool :=
  match e with
  | JNull => false
  | _ => true
  end.

(** The number of entries of a list for a subject. *)
Definition count_subject (subject : string) (entries : list jsval) : nat :=
  List.length (filter (matchesb subject) entries).

(** The entry [addRevocation] pushes. *)
Definition revocation_entry (licenseId revokedAt reason : string) : jsval :=
  JObj [("license_id", JStr licenseId); ("revoked_at", JStr revokedAt);
        ("reason", JStr reason)].

Section RegistryNotions.

Context {JP : JSONParser}.

(** The store [loadRevocationStore] makes up when it finds no usable file. *)
Definition fresh_store (w : World) : jsval :=
  JObj [("entries", JArr []); ("last_updated", JStr (ISO_at (with_data_dir w)))].

(** The registry file is missing, or its text is not JSON. *)
Definition registry_unreadable (w : World) : Prop :=
  revoked_file w = None
  \/ exists raw, revoked_file w = Some raw /\ JSON_parse raw = None.

(** The value [JSON.parse] reads from the registry file, if any. *)
Definition registry_value (w : World) : option jsval :=
  match revoked_file w with
  | Some raw => JSON_parse raw
  | None => None
  end.

(** The entries a load of the registry sees. *)
Definition registry_entries (w : World) : list jsval :=
  match registry_value w with
  | Some (JObj props) =>
      match obj_get "entries" props with
      | Some (JArr items) => items
      | _ => []
      end
  | _ => []
  end.

(** The registry file is missing or unreadable, or it holds an object whose
    [entries] is an array without [null]s: the shape the registry writes. *)
Definition registry_ok (w : World) : Prop :=
  match registry_value w with
  | None => True
  | Some v =>
      exists props items,
        v = JObj props /\ obj_get "entries" props = Some (JArr items)
        /\ forallb not_null items = true
  end.

(** *** A write that is stopped *)

(** [fs.writeFileSync(REVOKED_FILE, data, "utf-8")] opens the file with
    flag ["w"], which creates it or cuts it to length 0, and then writes
    [data] into it.  This is the world when the process stops after
    [written] code units of [data] have reached the file. *)
Definition writeFileSync_REVOKED_FILE_stopped (written : nat) (data : string)
  : M unit :=
  fun w => (Ok tt, set_revoked_file (Some (String.substring 0 written data)) w).

(** [saveRevocationStore(store)], stopped during its write. *)
Definition saveRevocationStore_stopped (written : nat) (store : jsval) : M unit :=
  _ <- ensureDataDir ;;
  now <- now_ISO ;;
  writeFileSync_REVOKED_FILE_stopped written
    (JSON_stringify (store_set "last_updated" (JStr now) store) None 2).

(** The text [saveRevocationStore(store)] writes in world [w]. *)
Definition saved_text (store : jsval) (w : World) : string :=
  JSON_stringify (store_set "last_updated" (JStr (ISO_at (with_data_dir w))) store)
    None 2.

(** C9 as stated: whenever a write of the registry stops, the file is either
    the old one or the new one. *)
Definition atomic_replace : Prop :=
  forall (store : jsval) (w : World) (written : nat),
    (written <= String.length (saved_text store w))%nat ->
    let stopped := snd (saveRevocationStore_stopped written store w) in
    revoked_file stopped = revoked_file w
    \/ revoked_file stopped = revoked_file (snd (saveRevocationStore store w)).

End RegistryNotions.

(** ** The gateway *)

(** What the [UPDATE] of a cancellation does to one license row. *)
Definition revoke_row (revokedAt customerId : string) (l : LicenseRow) : LicenseRow :=
  if String.eqb (lic_customer_id l) customerId && is_null (lic_revoked_at l)
  then with_revoked_at revokedAt l else l.

Definition cancelled (c : CustomerRow) : Exc PaymentResult :=
  Ok {| success := true; customerId := Some (cust_id c); licenseId := None;
        error := None |}.




Section GatewayNotions.

Variable config : Config.
Context {JP : JSONParser} {ED : Ed25519}.

(** Processing a list of events one after the other. *)
Fixpoint run_events (events : list PaymentEvent) (w : World)
  : list (Exc PaymentResult) * World :=
  match events with
  | [] => ([], w)
  | e :: rest =>
      let (r, w1) := processPaymentEvent config e w in
      let (rs, w2) := run_events rest w1 in
      (r :: rs, w2)
  end.



End GatewayNotions.

(** ** Canonical texts *)

(** The canonical form in the words of the specification: the payload as
    compact JSON, its keys sorted lexicographically. *)
Fixpoint insert_by_key (kv : string * jsval) (l : jsobject) : jsobject :=
  match l with
  | [] => [kv]
  | kv' :: l' =>
      if String.leb (fst kv) (fst kv') then kv :: l else kv' :: insert_by_key kv l'
  end.

Fixpoint sort_by_key (o : jsobject) : jsobject :=
  match o with
  | [] => []
  | kv :: o' => insert_by_key kv (sort_by_key o')
  end.

Definition canonical_form (o : jsobject) : string :=
  JSON_stringify (JObj (sort_by_key o)) None 0.

(** The values of a license payload are strings and numbers. *)
Definition is_primitive (v : jsval) : bool :=
  match v with
  | JArr _ | JObj _ => false
  | _ => true
  end.

Definition flat (o : jsobject) : Prop :=
  Forall (fun kv => is_primitive (snd kv) = true) o.

(** ** Signatures *)

(** The text before the first [=] of a Base64 text: the text with its
    padding cut off. *)
Fixpoint before_pad (s : string) : string :=
  match s with
  | EmptyString => EmptyString
  | String c s' => if Ascii.eqb c pad_char then EmptyString else String c (before_pad s')
  end.

(** The message [verifyLicense] checks the signature of. *)
Definition verified_message (props : jsobject) : Uint8Array :=
  TextEncoder_encode (canonicalize (obj_remove "signature" props)).

Section SignatureNotions.

Variable config : Config.
Context {ED : Ed25519}.

(** The configured keys are a key pair: the private key signs every
    message, and the public key verifies what it signed. *)
Definition keypair_matches : Prop :=
  forall message,
  exists sig,
    ed_signAsync message (hexToBytes (licensePrivateKey config)) = Ok sig
    /\ ed_verifyAsync sig message (hexToBytes (licensePublicKey config)) = Ok true.


End SignatureNotions.


(** ** JSON texts *)

(** The notions the reference parser is reasoned about with: how a
    serialized value starts and ends, and what it means for the parser to
    read a value back. *)
Module RefJSONText.

Import RefJSON.

Local Open Scope string_scope.

Fixpoint all_ws (s : string) : bool :=
  match s with
  | EmptyString => true
  | String c s' => is_ws c && all_ws s'
  end.

(** The first character of a text, for texts that start a token. *)
Definition starts_with (P : ascii -> bool) (s : string) : bool :=
  match s with
  | String c _ => P c
  | EmptyString => false
  end.

Definition number_end (rest : string) : bool :=
  negb (starts_with is_digit rest) && negb (starts_fraction rest).

(** A number text starts with a digit or a minus sign. *)
Definition number_start (c : ascii) : bool := is_digit c || Ascii.eqb c "-".

Fixpoint size (v : jsval) : nat :=
  match v with
  | JArr items => S (fold_right (fun x n => S (size x + n)) 0%nat items)
  | JObj props =>
      S (fold_right (fun kv n => S (match kv with (_, x) => size x end + n)) 0%nat props)
  | _ => 1
  end.

(** The keys of every object are distinct. *)
Fixpoint json_distinct (v : jsval) : bool :=
  match v with
  | JArr items => forallb json_distinct items
  | JObj props =>
      distinct (map fst props)
      && forallb (fun kv => match kv with (_, x) => json_distinct x end) props
  | _ => true
  end.

(** Induction on values, with the hypothesis for the items of an array
    and for the values of the properties of an object. *)
Section Induction.

Variable P : jsval -> Prop.
Hypothesis HNull : P JNull.
Hypothesis HBool : forall b, P (JBool b).
Hypothesis HNum : forall n, P (JNum n).
Hypothesis HStr : forall s, P (JStr s).
Hypothesis HArr : forall items, Forall P items -> P (JArr items).
Hypothesis HObj : forall props, Forall (fun kv => P (snd kv)) props -> P (JObj props).

Fixpoint jsval_induction (v : jsval) : P v :=
  match v with
  | JNull => HNull
  | JBool b => HBool b
  | JNum n => HNum n
  | JStr s => HStr s
  | JArr items =>
      HArr items
        ((fix all (l : list jsval) : Forall P l :=
            match l with
            | [] => Forall_nil P
            | x :: l' => Forall_cons x (jsval_induction x) (all l')
            end) items)
  | JObj props =>
      HObj props
        ((fix all (l : list (string * jsval)) : Forall (fun kv => P (snd kv)) l :=
            match l with
            | [] => Forall_nil _
            | (k, x) :: l' =>
                Forall_cons (P := fun kv => P (snd kv)) (k, x) (jsval_induction x) (all l')
            end) props)
  end.

End Induction.

Abbreviation ser := (SerializeJSON None).

Definition pre (gap stepback : string) : string :=
  if String.eqb gap "" then "" else String "010" (stepback ++ gap).

Definition post (gap stepback : string) : string :=
  if String.eqb gap "" then "" else String "010" stepback.

Fixpoint members_text (pre post close rest : string) (parts : list string) : string :=
  match parts with
  | [] => post ++ close ++ rest
  | [p] => p ++ post ++ close ++ rest
  | p :: ps => p ++ String "," (pre ++ members_text pre post close rest ps)
  end.

(** The first character of a value is no white space and none of
    [,], [\]], [}]. *)
Definition value_start (c : ascii) : bool :=
  negb (is_ws c) && negb (Ascii.eqb c "]") && negb (Ascii.eqb c "}")
  && negb (Ascii.eqb c ",").

(** The text after a value, in an array or an object or at the end: it
    does not continue a number. *)
Definition value_end (rest : string) : bool := number_end rest.

(** [v] is read back from its text, whatever follows. *)
Definition reads (v : jsval) : Prop :=
  forall gap stepback rest fuel,
    all_ws gap = true -> all_ws stepback = true ->
    (size v <= fuel)%nat -> value_end rest = true ->
    parse_value fuel (ser gap stepback v ++ rest) = Some (v, rest).

(** The separator after a key and the text of one property, as
    [SerializeJSON] writes them. *)
Definition colon (gap : string) : string := if String.eqb gap "" then ":" else ": ".

Definition member_text (gap stepback : string) (kv : string * jsval) : string :=
  QuoteJSONString (fst kv) ++ colon gap ++ ser gap (stepback ++ gap) (snd kv).

Definition total (parts : list string) : nat :=
  fold_right (fun p n => S (String.length p + n)) 0%nat parts.

End RefJSONText.

(** ** The shape of the registry *)

Section RegistryInvariant.

Context {JP : JSONParser}.

(** No subject has more than one entry in the registry. *)
Definition registry_unique (w : World) : Prop :=
  forall subject, (count_subject subject (registry_entries w) <= 1)%nat.

(** The registry file holds JSON, but not an object with an array as
    [entries]. *)
Definition registry_misshapen (w : World) : Prop :=
  exists v, registry_value w = Some v
            /\ forall props items,
                 v = JObj props -> obj_get "entries" props <> Some (JArr items).

End RegistryInvariant.

(** ** What a computation does to the world *)

(** [c] takes every world to a world that [R] relates to it. *)
Definition steps {A : Type} (R : World -> World -> Prop) (c : M A) : Prop :=
  forall w, R w (snd (c w)).

(** The registry file is left as it is. *)
Definition same_registry (w w' : World) : Prop := revoked_file w' = revoked_file w.

(** The database, in memory and on disk, is left as it is. *)
Definition same_database (w w' : World) : Prop :=
  db w' = db w /\ db_file w' = db_file w.

(** The database file is left as it is. *)
Definition same_db_file (w w' : World) : Prop := db_file w' = db_file w.

(** The database file holds what the database in memory holds. *)
Definition in_sync (w : World) : Prop := db_file w = db w.

Definition keeps_in_sync (w w' : World) : Prop := in_sync w -> in_sync w'.

(** A license row later on: the row itself, or the row with [revoked_at]
    set where it was [NULL]. *)
Definition stamped (l l' : LicenseRow) : Prop :=
  l' = l \/ (lic_revoked_at l = None /\ exists t, l' = with_revoked_at t l).

(** A database later on: the customers it had, followed by new ones; the
    licenses it had, some of them stamped, followed by new ones. *)
Definition grows (d d' : Database) : Prop :=
  (exists new_customers, customers d' = customers d ++ new_customers)
  /\ (exists old new_licenses,
        licenses d' = old ++ new_licenses /\ Forall2 stamped (licenses d) old).

(** An initialised database stays initialised and only grows. *)
Definition append_only (w w' : World) : Prop :=
  forall d, db w = Some d -> exists d', db w' = Some d' /\ grows d d'.

(** ** Issuing *)

(** The text [toISOString()] gives for a time value. *)
Definition ISO_of (t : Z) : string :=
  match toISOString (ValidDate t) with
  | Ok s => s
  | Throw _ => EmptyString
  end.

Section IssuingNotions.

Variable config : Config.
Context {ED : Ed25519}.

(** The configured private key signs every message. *)
Definition key_signs : Prop :=
  forall message,
  exists sig, ed_signAsync message (hexToBytes (licensePrivateKey config)) = Ok sig.

End IssuingNotions.

(** The license row [issue_license] stores for a customer, from the clock
    readings [now] of [new Date()] and [inserted] of the insertion. *)
Definition issued_row (event : PaymentEvent) (id customer_id : string)
    (now expires inserted : Z) : LicenseRow :=
  {| lic_id := id; lic_customer_id := customer_id;
     lic_plan := plan_string (ev_plan event);
     lic_issued_at := ISO_of now; lic_expires_at := ISO_of expires;
     lic_revoked_at := None; lic_created_at := inserted / 1000 |}.

(** The customer row a checkout stores for an unknown email. *)
Definition checkout_customer (event : PaymentEvent) (id : string) (inserted : Z)
  : CustomerRow :=
  {| cust_id := id; cust_email := email event;
     cust_stripe_customer_id :=
       match provider event with
       | stripe => or_null (Some (externalCustomerId event))
       | paddle => None
       end;
     cust_created_at := inserted / 1000 |}.

(** The database with a row more. *)
Definition with_license (l : LicenseRow) (d : Database) : Database :=
  {| customers := customers d; licenses := licenses d ++ [l] |}.

Definition with_customer (c : CustomerRow) (d : Database) : Database :=
  {| customers := customers d ++ [c]; licenses := licenses d |}.

Definition failure (message : string) : PaymentResult :=
  {| success := false; customerId := None; licenseId := None; error := Some message |}.

Section IssuedWorld.

Variable config : Config.

(** The world after [issue_license] has read the clock, drawn an id and
    stored its row. *)
Definition issued_world (l : LicenseRow) (d : Database) (w : World) : World :=
  let w1 := tick (set_drawn (S (drawn w)) (tick w)) in
  if String.eqb (databaseUrl config) ":memory:"
  then set_db (Some (with_license l d)) w1
  else set_db_file (Some (with_license l d)) (set_db (Some (with_license l d)) w1).

(** The world after [createCustomer] has stored its row. *)
Definition customer_world (c : CustomerRow) (d : Database) (w : World) : World :=
  if String.eqb (databaseUrl config) ":memory:"
  then set_db (Some (with_customer c d)) (tick w)
  else set_db_file (Some (with_customer c d))
         (set_db (Some (with_customer c d)) (tick w)).

End IssuedWorld.

(* ================================================================== *)
(** * Concrete worlds *)
(* ================================================================== *)

Definition test_config : Config :=
  {| databaseUrl := ":memory:";
     licensePrivateKey := "000102030405060708090a0b0c0d0e0f101112131415161718191a1b1c1d1e1f";
     licensePublicKey := "000102030405060708090a0b0c0d0e0f101112131415161718191a1b1c1d1e1f" |}.

(** The world at process start: no database handle, no data directory; the
    clock advances by a second at each reading. *)
Definition boot : World :=
  {| db := None; db_file := None; data_dir := false; revoked_file := None;
     clock := fun n => 1767225600000 + 1000 * Z.of_nat n; ticks := 0;
     uuids := fun n => ("uuid-" ++ Z_to_string (Z.of_nat n))%string; drawn := 0 |}.

(** The world after [initDb()]. *)
Definition started : World := snd (initDb test_config boot).

(** The event of the test "should create license with correct payment
    provider". *)
Definition paddle_checkout : PaymentEvent :=
  {| provider := paddle; eventType := checkout_completed;
     email := "paddle@example.com"; ev_plan := PRO;
     externalCustomerId := "ctm_paddle"; externalTransactionId := "txn_paddle";
     expiresAt := None; metadata := None |}.

Definition paddle_event (type : PaymentEventType) : PaymentEvent :=
  {| provider := paddle; eventType := type;
     email := "paddle@example.com"; ev_plan := PRO;
     externalCustomerId := "ctm_paddle"; externalTransactionId := "txn_later";
     expiresAt := None; metadata := None |}.

(** The world after that checkout. *)
Definition subscribed : World :=
  snd (processPaymentEvent test_config paddle_checkout started).

Definition paddle_customer : CustomerRow :=
  {| cust_id := "uuid-0"; cust_email := "paddle@example.com";
     cust_stripe_customer_id := None; cust_created_at := 1767225600 |}.

Definition paddle_license : LicenseRow :=
  {| lic_id := "uuid-1"; lic_customer_id := "uuid-0"; lic_plan := "PRO";
     lic_issued_at := "2026-01-01T00:00:01.000Z";
     lic_expires_at := "2027-01-01T00:00:01.000Z";
     lic_revoked_at := None; lic_created_at := 1767225602 |}.

(** A world whose registry file is not JSON. *)
Definition corrupted : World := set_revoked_file (Some "{ entries: [") subscribed.

(** The world after a cancellation: the registry holds one entry. *)
Definition revoked_world : World :=
  snd (processPaymentEvent test_config (paddle_event subscription_cancelled) subscribed).

(** A store with a second entry, about to be saved. *)
Definition two_entries : jsval :=
  JObj [("entries",
         JArr [revocation_entry "uuid-0" "2026-01-01T00:00:04.000Z"
                 "Subscription cancelled via paddle";
               revocation_entry "uuid-7" "2026-01-02T00:00:00.000Z"
                 "Subscription cancelled via stripe"]);
        ("last_updated", JStr "2026-01-01T00:00:05.000Z")].

(** The credential issued by the gateway: 30 days of offline trust. *)
Definition issued_license : SignedLicense :=
  {| plan := "PRO"; customer_id := "C"; issued_at := "2026-01-01T00:00:00.000Z";
     expires_at := "2027-01-01T00:00:00.000Z"; offline_ttl_days := 30;
     signature := "" |}.

(** A world whose clock always reads [t]. *)
Definition world_at (t : Z) : World :=
  {| db := None; db_file := None; data_dir := false; revoked_file := None;
     clock := fun _ => t; ticks := 0; uuids := fun _ => EmptyString; drawn := 0 |}.

Definition sample_payload : jsobject :=
  LicensePayload_literal "PRO" "uuid-0" "2026-01-01T00:00:01.000Z"
    "2027-01-01T00:00:01.000Z".

(** The same payload, built with its fields in the opposite order. *)
Definition sample_payload_permuted : jsobject :=
  [ ("offline_ttl_days", JNum 30);
    ("expires_at", JStr "2027-01-01T00:00:01.000Z");
    ("issued_at", JStr "2026-01-01T00:00:01.000Z");
    ("customer_id", JStr "uuid-0");
    ("plan", JStr "PRO") ].

Definition sample_signature : string :=
  match signLicense test_config sample_payload with
  | Ok signed => match obj_get "signature" signed with
                 | Some (JStr s) => s
                 | _ => EmptyString
                 end
  | Throw _ => EmptyString
  end.

Definition sample_signed : jsobject :=
  obj_set "signature" (JStr sample_signature) sample_payload.





(** ** A database file, a registry without entries, a webhook *)

(** The configuration with the database in a file, as it is by default. *)
Definition file_config : Config :=
  {| databaseUrl := "./data/coordinator.db";
     licensePrivateKey := licensePrivateKey test_config;
     licensePublicKey := licensePublicKey test_config |}.

(** The world after [initDb()] and the checkout, under that
    configuration. *)
Definition file_subscribed : World :=
  snd (processPaymentEvent file_config paddle_checkout (snd (initDb file_config boot))).

(** A world whose registry file holds JSON without entries. *)
Definition misshapen : World := set_revoked_file (Some "{}") subscribed.

(** A checkout for a new email whose [expiresAt] is an invalid date, as
    [new Date(text)] gives for a text that is no date. *)
Definition undated_checkout : PaymentEvent :=
  {| provider := stripe; eventType := checkout_completed;
     email := "late@example.com"; ev_plan := PRO;
     externalCustomerId := "cus_late"; externalTransactionId := "cs_late";
     expiresAt := Some InvalidDate; metadata := None |}.







(** The webhook Paddle sends when that customer cancels. *)
Definition cancel_webhook : PaddleWebhookEvent :=
  {| event_id := "evt_1"; event_type := "subscription.canceled";
     occurred_at := "2026-01-01T00:00:03.000Z";
     data := {| data_id := "sub_paddle"; data_customer_id := "ctm_paddle";
                data_items := None;
                data_custom_data := Some [("email", "paddle@example.com")];
                data_current_billing_period := None |} |}.

(** A credential with a field that holds an object. *)
Definition with_limits (seats : Z) : jsobject :=
  obj_set "limits" (JObj [("seats", JNum seats)]) sample_signed.

(* ================================================================== *)
(** * Properties *)
(* ================================================================== *)

(** The log statement of [processPaymentEvent] does nothing to an event of
    the declared type. *)
Lemma processPaymentEvent_run (config : Config) {JP : JSONParser} {ED : Ed25519}
    (event : PaymentEvent) :
  processPaymentEvent config event
  = try_catch (dispatch config event)
      (fun err => ret {| success := false; customerId := None; licenseId := None;
                         error := Some (String_of_error err) |}).
Proof. reflexivity. Qed.

(** ** The runtime *)

Lemma toISOString_valid (t : Z) : exists s, toISOString (ValidDate t) = Ok s.
Proof.
  unfold toISOString.
  destruct (civil_from_days (t / msPerDay)) as [[y m] d].
  eexists; reflexivity.
Qed.

Lemma now_ISO_run (w : World) : now_ISO w = (Ok (ISO_at w), tick w).
Proof.
  unfold now_ISO, new_Date, Date_now, bind, ret, lift, ISO_at, tick.
  destruct (toISOString_valid (clock w (ticks w))) as [s ->].
  reflexivity.
Qed.

(** ** Objects and well-formed values *)

Lemma obj_get_set_same {V} (k : string) (x : V) (o : list (string * V)) :
  obj_get k (obj_set k x o) = Some x.
Proof.
  induction o as [| [k' v'] o IH]; simpl.
  - now rewrite String.eqb_refl.
  - destruct (String.eqb k k') eqn:E; simpl; rewrite E; auto.
Qed.

Lemma obj_get_set_other {V} (k k0 : string) (x : V) (o : list (string * V)) :
  k0 <> k -> obj_get k0 (obj_set k x o) = obj_get k0 o.
Proof.
  intros Hne. induction o as [| [k' v'] o IH]; simpl.
  - destruct (String.eqb k0 k) eqn:E; auto.
    apply String.eqb_eq in E. contradiction.
  - destruct (String.eqb k k') eqn:E; simpl.
    + apply String.eqb_eq in E. subst k'.
      destruct (String.eqb k0 k) eqn:E0; auto.
      apply String.eqb_eq in E0. contradiction.
    + now rewrite IH.
Qed.

Lemma obj_get_In {V} (k : string) (x : V) (o : list (string * V)) :
  obj_get k o = Some x -> In (k, x) o.
Proof.
  induction o as [| [k' v'] o IH]; simpl; [discriminate |].
  destruct (String.eqb k k') eqn:E.
  - apply String.eqb_eq in E. intros [= ->]. subst. now left.
  - intros H. right. auto.
Qed.

Lemma obj_get_None_keys {V} (k : string) (o : list (string * V)) :
  obj_get k o = None <-> existsb (String.eqb k) (map fst o) = false.
Proof.
  induction o as [| [k' v'] o IH]; simpl; [tauto |].
  destruct (String.eqb k k'); simpl; [split; discriminate | exact IH].
Qed.

Lemma keys_obj_set {V} (k : string) (x : V) (o : list (string * V)) :
  map fst (obj_set k x o)
  = if existsb (String.eqb k) (map fst o) then map fst o else map fst o ++ [k].
Proof.
  induction o as [| [k' v'] o IH]; simpl; [reflexivity |].
  destruct (String.eqb k k') eqn:E; simpl; [reflexivity |].
  rewrite IH. destruct (existsb (String.eqb k) (map fst o)); reflexivity.
Qed.

Lemma existsb_app_last (k k' : string) (keys : list string) :
  existsb (String.eqb k') (keys ++ [k])
  = existsb (String.eqb k') keys || String.eqb k' k.
Proof.
  rewrite existsb_app. simpl. now rewrite orb_false_r.
Qed.

Lemma distinct_app_new (k : string) (keys : list string) :
  distinct keys = true -> existsb (String.eqb k) keys = false ->
  distinct (keys ++ [k]) = true.
Proof.
  induction keys as [| k' keys IH]; simpl; [reflexivity |].
  intros Hd Hk. apply andb_true_iff in Hd as [Hn Hd].
  apply orb_false_iff in Hk as [Hkk Hk].
  rewrite existsb_app_last, IH by assumption.
  apply negb_true_iff in Hn. rewrite Hn. simpl.
  rewrite String.eqb_sym, Hkk. reflexivity.
Qed.

Lemma keys_ordered_app_plain (k : string) (keys : list string) :
  array_index k = None ->
  forall last seen, keys_ordered last seen keys = true ->
                    keys_ordered last seen (keys ++ [k]) = true.
Proof.
  intros Hk. induction keys as [| k' keys IH]; simpl; intros last seen H.
  - now rewrite Hk.
  - destruct (array_index k').
    + apply andb_true_iff in H as [H1 H2]. rewrite H1. simpl. auto.
    + auto.
Qed.

Lemma keys_ok_set (k : string) {V} (x : V) (o : list (string * V)) :
  array_index k = None ->
  keys_ok (map fst o) = true -> keys_ok (map fst (obj_set k x o)) = true.
Proof.
  intros Hk Hok. rewrite keys_obj_set.
  destruct (existsb (String.eqb k) (map fst o)) eqn:E; [assumption |].
  unfold keys_ok in *. apply andb_true_iff in Hok as [Hd Ho].
  rewrite distinct_app_new, keys_ordered_app_plain; auto.
Qed.

Lemma forallb_obj_set (P : jsval -> bool) (k : string) (x : jsval) (o : jsobject) :
  P x = true ->
  forallb (fun kv => match kv with (_, y) => P y end) o = true ->
  forallb (fun kv => match kv with (_, y) => P y end) (obj_set k x o) = true.
Proof.
  intros Hx. induction o as [| [k' v'] o IH]; simpl.
  - now rewrite Hx.
  - intros H. apply andb_true_iff in H as [H1 H2].
    destruct (String.eqb k k'); simpl.
    + now rewrite Hx, H2.
    + now rewrite H1, IH.
Qed.

Lemma json_wf_set (k : string) (x : jsval) (o : jsobject) :
  array_index k = None -> json_wf x = true -> json_wf (JObj o) = true ->
  json_wf (JObj (obj_set k x o)) = true.
Proof.
  intros Hk Hx Ho. simpl in *. apply andb_true_iff in Ho as [H1 H2].
  rewrite keys_ok_set, forallb_obj_set; auto.
Qed.

Lemma json_wf_get (k : string) (x : jsval) (o : jsobject) :
  json_wf (JObj o) = true -> obj_get k o = Some x -> json_wf x = true.
Proof.
  simpl. intros H Hg. apply andb_true_iff in H as [_ H].
  apply obj_get_In in Hg. rewrite forallb_forall in H. exact (H _ Hg).
Qed.

Lemma json_wf_snoc (items : list jsval) (x : jsval) :
  json_wf (JArr items) = true -> json_wf x = true ->
  json_wf (JArr (items ++ [x])) = true.
Proof.
  simpl. intros H Hx. rewrite forallb_app, H. simpl. now rewrite Hx.
Qed.



Lemma obj_get_remove_other {V} (k k0 : string) (o : list (string * V)) :
  k0 <> k -> obj_get k0 (obj_remove k o) = obj_get k0 o.
Proof.
  intros Hne. unfold obj_remove. induction o as [| [k' v'] o IH]; simpl; [reflexivity |].
  destruct (String.eqb k k') eqn:E; simpl.
  - apply String.eqb_eq in E. subst k'.
    destruct (String.eqb k0 k) eqn:E0; [| exact IH].
    apply String.eqb_eq in E0. contradiction.
  - now rewrite IH.
Qed.

Lemma keys_remove_NoDup {V} (k : string) (o : list (string * V)) :
  NoDup (Object_keys o) -> NoDup (Object_keys (obj_remove k o)).
Proof.
  unfold Object_keys, obj_remove. induction o as [| [k' v'] o IH]; simpl; [auto |].
  intros H. inversion H as [| ? ? Hnotin Hnd]; subst.
  destruct (String.eqb k k'); simpl; [auto |].
  constructor; [| auto].
  intros Hin. apply Hnotin. apply in_map_iff in Hin as (kv & <- & Hin).
  apply in_map_iff. exists kv. split; [reflexivity |].
  now apply filter_In in Hin.
Qed.

Lemma obj_get_Some_iff {V} (k : string) (x : V) (o : list (string * V)) :
  NoDup (map fst o) -> (obj_get k o = Some x <-> In (k, x) o).
Proof.
  intros Hnd. split; [apply obj_get_In |].
  induction o as [| [k' v'] o IH]; simpl; [tauto |].
  inversion Hnd as [| ? ? Hnotin Hnd']; subst.
  intros [[= -> ->] | Hin].
  - now rewrite String.eqb_refl.
  - destruct (String.eqb k k') eqn:E; [| auto].
    apply String.eqb_eq in E. subst k'. exfalso. apply Hnotin.
    apply in_map_iff. exists (k, x). auto.
Qed.

Lemma obj_get_perm {V} (k : string) (o o' : list (string * V)) :
  NoDup (map fst o) -> Permutation o o' -> obj_get k o = obj_get k o'.
Proof.
  intros Hnd Hp.
  assert (Hnd' : NoDup (map fst o'))
    by (eapply Permutation_NoDup; [apply Permutation_map; eassumption | assumption]).
  destruct (obj_get k o) as [x |] eqn:E.
  - symmetry. apply obj_get_Some_iff; auto.
    eapply Permutation_in; eauto. now apply obj_get_In.
  - destruct (obj_get k o') as [x' |] eqn:E'; [| reflexivity].
    apply obj_get_In in E'. apply Permutation_sym in Hp.
    apply (Permutation_in _ Hp) in E'.
    apply obj_get_Some_iff in E'; auto. congruence.
Qed.

Lemma obj_get_map {V W} (f : V -> W) (k : string) (o : list (string * V)) :
  obj_get k (map (fun kv => match kv with (k', x) => (k', f x) end) o)
  = option_map f (obj_get k o).
Proof.
  induction o as [| [k' v'] o IH]; simpl; [reflexivity |].
  destruct (String.eqb k k'); auto.
Qed.

(** ** The store: the license of a customer *)

Lemma latest_from (rows : list LicenseRow) (best : option LicenseRow) :
  let pick := fun best r =>
                match best with
                | None => Some r
                | Some b => if lic_created_at b <? lic_created_at r
                            then Some r else Some b
                end in
  match fold_left pick rows best with
  | None => best = None /\ rows = []
  | Some l =>
      (best = Some l \/ In l rows)
      /\ (forall b, best = Some b -> lic_created_at b <= lic_created_at l)
      /\ (forall r, In r rows -> lic_created_at r <= lic_created_at l)
  end.
Proof.
  intros pick. revert best. induction rows as [| r rows IH]; intros best; simpl.
  - destruct best as [b |]; [| auto].
    split; [now left |]. split; [intros ? [= <-]; lia | contradiction].
  - specialize (IH (pick best r)).
    destruct (fold_left pick rows (pick best r)) as [l |].
    + destruct IH as (Hin & Hbest & Hrows).
      assert (Hr : lic_created_at r <= lic_created_at l
                   /\ forall b, best = Some b -> lic_created_at b <= lic_created_at l).
      { destruct best as [b |]; simpl in *.
        - destruct (Z.ltb_spec (lic_created_at b) (lic_created_at r)).
          + specialize (Hbest r eq_refl). split; [lia |]. intros ? [= <-]. lia.
          + specialize (Hbest b eq_refl). split; [lia |]. intros ? [= <-]. lia.
        - specialize (Hbest r eq_refl). split; [lia | discriminate]. }
      destruct Hr as [Hr Hb].
      split; [| split].
      * destruct Hin as [Hin | Hin]; [| auto].
        destruct best as [b |]; simpl in Hin.
        -- destruct (lic_created_at b <? lic_created_at r); injection Hin as <-; auto.
        -- injection Hin as <-. auto.
      * exact Hb.
      * intros r' [<- | Hr']; auto.
    + destruct IH as [Hnone _]. destruct best as [b |]; simpl in Hnone.
      * destruct (lic_created_at b <? lic_created_at r); discriminate.
      * discriminate.
Qed.

Lemma latest_spec (rows : list LicenseRow) :
  match latest rows with
  | None => rows = []
  | Some l => In l rows /\ forall r, In r rows -> lic_created_at r <= lic_created_at l
  end.
Proof.
  pose proof (latest_from rows None) as H. unfold latest. simpl in H.
  destruct (fold_left _ rows None) as [l |].
  - destruct H as ([H | H] & _ & Hrows); [discriminate | auto].
  - now destruct H.
Qed.






(** ** The gateway: events that change nothing *)

Section GatewayFacts.

Variable config : Config.
Context {JP : JSONParser} {ED : Ed25519}.

(** C8.  A [payment_failed] event is answered by success and leaves the
    world as it was: no license row is created or changed, no revocation
    entry is added; whatever [isRevoked] and [findLicenseByCustomer]
    answered before, for any customer, they answer afterwards (so a customer
    who was not revoked is still not revoked, and the active license row
    is the same). *)
Theorem payment_failed_changes_nothing (event : PaymentEvent) (w : World) :
  eventType event = payment_failed ->
  processPaymentEvent config event w
    = (Ok {| success := true; customerId := None; licenseId := None;
             error := None |}, w)
  /\ (forall id, isRevoked id (snd (processPaymentEvent config event w))
                 = isRevoked id w)
  /\ (forall id, findLicenseByCustomer id (snd (processPaymentEvent config event w))
                 = findLicenseByCustomer id w).
Proof.
  intros Hty.
  assert (Hrun : processPaymentEvent config event w
                 = (Ok {| success := true; customerId := None; licenseId := None;
                          error := None |}, w)).
  { rewrite processPaymentEvent_run. unfold try_catch, dispatch. rewrite Hty. reflexivity. }
  rewrite Hrun. simpl. repeat split.
Qed.






End GatewayFacts.

(** ** The registry: loading *)

Section RegistryFacts.

Context {JP : JSONParser}.

Lemma ensureDataDir_run (w : World) : ensureDataDir w = (Ok tt, with_data_dir w).
Proof. unfold ensureDataDir, with_data_dir. destruct (data_dir w); reflexivity. Qed.

Lemma with_data_dir_file (w : World) :
  revoked_file (with_data_dir w) = revoked_file w.
Proof. unfold with_data_dir. destruct (data_dir w); reflexivity. Qed.

Lemma empty_store_run (w : World) :
  empty_store w
  = (Ok (JObj [("entries", JArr []); ("last_updated", JStr (ISO_at w))]), tick w).
Proof. unfold empty_store, bind. rewrite now_ISO_run. reflexivity. Qed.

Lemma load_absent (w : World) :
  revoked_file w = None ->
  loadRevocationStore w = (Ok (fresh_store w), tick (with_data_dir w)).
Proof.
  intros Hf. unfold loadRevocationStore, bind.
  rewrite ensureDataDir_run. unfold existsSync_REVOKED_FILE.
  rewrite with_data_dir_file, Hf. simpl. apply empty_store_run.
Qed.

Lemma load_corrupt (w : World) (raw : string) :
  revoked_file w = Some raw -> JSON_parse raw = None ->
  loadRevocationStore w = (Ok (fresh_store w), tick (with_data_dir w)).
Proof.
  intros Hf Hp. unfold loadRevocationStore, bind.
  rewrite ensureDataDir_run. unfold existsSync_REVOKED_FILE.
  rewrite with_data_dir_file, Hf. simpl.
  unfold try_catch, bind, readFileSync_REVOKED_FILE, JSON_parse_M.
  rewrite with_data_dir_file, Hf, Hp. unfold throw. apply empty_store_run.
Qed.

Lemma load_parsed (w : World) (raw : string) (v : jsval) :
  revoked_file w = Some raw -> JSON_parse raw = Some v ->
  loadRevocationStore w = (Ok v, with_data_dir w).
Proof.
  intros Hf Hp. unfold loadRevocationStore, bind.
  rewrite ensureDataDir_run. unfold existsSync_REVOKED_FILE.
  rewrite with_data_dir_file, Hf. simpl.
  unfold try_catch, bind, readFileSync_REVOKED_FILE, JSON_parse_M.
  rewrite with_data_dir_file, Hf, Hp. reflexivity.
Qed.

Lemma load_unreadable (w : World) :
  registry_unreadable w ->
  loadRevocationStore w = (Ok (fresh_store w), tick (with_data_dir w)).
Proof.
  intros [Hf | (raw & Hf & Hp)]; [apply load_absent | eapply load_corrupt]; eauto.
Qed.

(** C10.  With the registry file missing or not parseable, every read
    behaves as on an empty registry and raises nothing: no subject is
    revoked, there is no revocation info, the list is empty and the count
    is 0. *)
Theorem unreadable_registry_reads_empty (w : World) (subject : string) :
  registry_unreadable w ->
  fst (isRevoked subject w) = Ok false
  /\ fst (getRevocationInfo subject w) = Ok None
  /\ fst (listRevocations w) = Ok (Some (JArr []))
  /\ fst (getRevocationCount w) = Ok (Some (JNum 0)).
Proof.
  intros Hu.
  unfold isRevoked, getRevocationInfo, listRevocations, getRevocationCount, bind.
  rewrite (load_unreadable w Hu). repeat split.
Qed.

End RegistryFacts.

(** ** The registry: adding a revocation *)

Lemma entry_matches_not_null (licenseId : string) (e : jsval) :
  not_null e = true -> entry_matches licenseId e = Ok (matchesb licenseId e).
Proof.
  destruct e; simpl; try reflexivity; try discriminate.
  intros _. destruct (obj_get "license_id" props) as [[] |]; reflexivity.
Qed.

Lemma Array_find_not_null (licenseId : string) (entries : list jsval) :
  forallb not_null entries = true ->
  Array_find licenseId entries = Ok (find (matchesb licenseId) entries).
Proof.
  induction entries as [| e rest IH]; simpl; [reflexivity |].
  intros H. apply andb_true_iff in H as [He Hrest].
  rewrite entry_matches_not_null by assumption. simpl.
  destruct (matchesb licenseId e); auto.
Qed.

Lemma Array_some_not_null (licenseId : string) (entries : list jsval) :
  forallb not_null entries = true ->
  Array_some licenseId entries = Ok (existsb (matchesb licenseId) entries).
Proof.
  intros H. unfold Array_some. rewrite Array_find_not_null by assumption.
  simpl. f_equal. induction entries as [| e rest IH]; simpl; [reflexivity |].
  simpl in H. apply andb_true_iff in H as [_ H].
  destruct (matchesb licenseId e); simpl; auto.
Qed.

Lemma count_subject_app (subject : string) (a b : list jsval) :
  count_subject subject (a ++ b)
  = (count_subject subject a + count_subject subject b)%nat.
Proof. unfold count_subject. now rewrite filter_app, length_app. Qed.

Lemma count_subject_zero (subject : string) (entries : list jsval) :
  existsb (matchesb subject) entries = false -> count_subject subject entries = 0%nat.
Proof.
  unfold count_subject. induction entries as [| e rest IH]; simpl; [reflexivity |].
  intros H. apply orb_false_iff in H as [-> H]. auto.
Qed.

Lemma count_subject_pos (subject : string) (entries : list jsval) :
  existsb (matchesb subject) entries = true -> (1 <= count_subject subject entries)%nat.
Proof.
  unfold count_subject. induction entries as [| e rest IH]; simpl; [discriminate |].
  destruct (matchesb subject e); simpl; intros H; [lia | auto].
Qed.

Section RegistryWrites.

Context {JP : JSONParser} {JL : JSONParserLaws JP}.

Lemma registry_value_with_data_dir (w : World) :
  registry_value (with_data_dir w) = registry_value w.
Proof. unfold registry_value. now rewrite with_data_dir_file. Qed.

(** What a load returns on a registry in good shape: a well-formed object
    whose [entries] are the registry entries. *)
Lemma load_ok (w : World) :
  registry_ok w ->
  exists props w1,
    loadRevocationStore w = (Ok (JObj props), w1)
    /\ obj_get "entries" props = Some (JArr (registry_entries w))
    /\ forallb not_null (registry_entries w) = true
    /\ json_wf (JObj props) = true
    /\ revoked_file w1 = revoked_file w /\ db w1 = db w /\ db_file w1 = db_file w
    /\ clock w1 = clock w /\ uuids w1 = uuids w.
Proof.
  unfold registry_ok, registry_entries, registry_value.
  destruct (revoked_file w) as [raw |] eqn:Hf.
  - destruct (JSON_parse raw) as [v |] eqn:Hp.
    + intros (props & items & -> & Hget & Hnn).
      exists props, (with_data_dir w). rewrite (load_parsed w raw _ Hf Hp), Hget.
      repeat split; auto.
      * eapply parse_wf; eauto.
      * rewrite with_data_dir_file; auto.
      * unfold with_data_dir; destruct (data_dir w); reflexivity.
      * unfold with_data_dir; destruct (data_dir w); reflexivity.
      * unfold with_data_dir; destruct (data_dir w); reflexivity.
      * unfold with_data_dir; destruct (data_dir w); reflexivity.
    + intros _. eexists _, _. rewrite (load_corrupt w raw Hf Hp).
      unfold fresh_store. repeat split; try reflexivity.
      * simpl. rewrite with_data_dir_file; auto.
      * unfold with_data_dir; destruct (data_dir w); reflexivity.
      * unfold with_data_dir; destruct (data_dir w); reflexivity.
      * unfold with_data_dir; destruct (data_dir w); reflexivity.
      * unfold with_data_dir; destruct (data_dir w); reflexivity.
  - intros _. eexists _, _. rewrite (load_absent w Hf).
    unfold fresh_store. repeat split; try reflexivity.
    + simpl. rewrite with_data_dir_file; auto.
    + unfold with_data_dir; destruct (data_dir w); reflexivity.
    + unfold with_data_dir; destruct (data_dir w); reflexivity.
    + unfold with_data_dir; destruct (data_dir w); reflexivity.
    + unfold with_data_dir; destruct (data_dir w); reflexivity.
Qed.

Lemma registry_value_file (w w' : World) :
  revoked_file w' = revoked_file w -> registry_value w' = registry_value w.
Proof. unfold registry_value. now intros ->. Qed.

Lemma registry_entries_file (w w' : World) :
  revoked_file w' = revoked_file w -> registry_entries w' = registry_entries w.
Proof. unfold registry_entries. intros H. now rewrite (registry_value_file _ _ H). Qed.

Lemma registry_ok_file (w w' : World) :
  revoked_file w' = revoked_file w -> registry_ok w -> registry_ok w'.
Proof. unfold registry_ok. intros H. now rewrite (registry_value_file _ _ H). Qed.

Lemma saveRevocationStore_run (props : jsobject) (w : World) :
  saveRevocationStore (JObj props) w
  = (Ok tt,
     set_revoked_file
       (Some (JSON_stringify
                (JObj (obj_set "last_updated" (JStr (ISO_at (with_data_dir w))) props))
                None 2))
       (tick (with_data_dir w))).
Proof.
  unfold saveRevocationStore, bind. rewrite ensureDataDir_run, now_ISO_run.
  reflexivity.
Qed.

Lemma matchesb_revocation_entry (subject licenseId revokedAt reason : string) :
  matchesb subject (revocation_entry licenseId revokedAt reason)
  = String.eqb licenseId subject.
Proof. reflexivity. Qed.

(** A registry written by [saveRevocationStore] reads back. *)
Lemma registry_after_save (props : jsobject) (items : list jsval) (w : World) :
  json_wf (JObj props) = true -> json_wf (JArr items) = true ->
  forallb not_null items = true ->
  obj_get "entries" props <> None ->
  let w' := snd (saveRevocationStore
                   (store_set "entries" (JArr items) (JObj props)) w) in
  registry_ok w' /\ registry_entries w' = items.
Proof.
  intros Hwf Hitems Hnn Hhas w'.
  assert (Hv : registry_value w'
               = Some (JObj (obj_set "last_updated" (JStr (ISO_at (with_data_dir w)))
                               (obj_set "entries" (JArr items) props)))).
  { unfold w'. simpl store_set. rewrite saveRevocationStore_run.
    unfold registry_value. simpl. apply parse_stringify.
    apply json_wf_set; [reflexivity | reflexivity |].
    apply json_wf_set; [reflexivity | assumption | assumption]. }
  assert (Hget : obj_get "entries"
                   (obj_set "last_updated" (JStr (ISO_at (with_data_dir w)))
                      (obj_set "entries" (JArr items) props))
                 = Some (JArr items)).
  { rewrite obj_get_set_other by discriminate. apply obj_get_set_same. }
  split.
  - unfold registry_ok. rewrite Hv. eauto.
  - unfold registry_entries. now rewrite Hv, Hget.
Qed.

(** [addRevocation] on a registry in good shape: it returns, leaves the
    database alone, and the registry afterwards holds the entries it held,
    followed by one new entry for the subject unless it had one. *)
Lemma addRevocation_spec (licenseId reason : string) (w : World) :
  registry_ok w ->
  exists w',
    addRevocation licenseId reason w = (Ok tt, w')
    /\ registry_ok w' /\ db w' = db w /\ db_file w' = db_file w
    /\ clock w' = clock w /\ uuids w' = uuids w
    /\ exists revokedAt,
         registry_entries w'
         = if existsb (matchesb licenseId) (registry_entries w)
           then registry_entries w
           else registry_entries w ++ [revocation_entry licenseId revokedAt reason].
Proof.
  intros Hok.
  destruct (load_ok w Hok)
    as (props & w1 & Hload & Hget & Hnn & Hwf & Hf1 & Hd1 & Hdf1 & Hc1 & Hu1).
  unfold addRevocation, bind. rewrite Hload.
  unfold lift, entries_array, store_entries, exc_bind. rewrite Hget.
  rewrite (Array_some_not_null _ _ Hnn).
  destruct (existsb (matchesb licenseId) (registry_entries w)) eqn:Hdup.
  - exists w1. unfold ret.
    split; [reflexivity |]. split; [eapply registry_ok_file; eauto |].
    do 4 (split; [assumption |]).
    exists EmptyString. now apply registry_entries_file.
  - rewrite now_ISO_run.
    fold (revocation_entry licenseId (ISO_at w1) reason).
    pose proof (registry_after_save props
                  (registry_entries w ++ [revocation_entry licenseId (ISO_at w1) reason])
                  (tick w1) Hwf) as Hsave.
    assert (Hwfi : json_wf (JArr (registry_entries w
                      ++ [revocation_entry licenseId (ISO_at w1) reason])) = true).
    { apply json_wf_snoc; [| reflexivity]. eapply json_wf_get; eauto. }
    assert (Hnn' : forallb not_null (registry_entries w
                      ++ [revocation_entry licenseId (ISO_at w1) reason]) = true).
    { rewrite forallb_app, Hnn. reflexivity. }
    specialize (Hsave Hwfi Hnn'). rewrite Hget in Hsave.
    specialize (Hsave ltac:(discriminate)). simpl in Hsave.
    destruct Hsave as [Hok' Hent'].
    simpl store_set in *.
    rewrite saveRevocationStore_run in *. simpl snd in *.
    eexists. split; [reflexivity |]. split; [assumption |].
    do 4 (split; [simpl; unfold with_data_dir;
                  destruct (data_dir (tick w1)); simpl; assumption |]).
    eexists. exact Hent'.
Qed.

End RegistryWrites.

(** ** The gateway: cancellation *)

Lemma revoke_row_idem (t t' customerId : string) (l : LicenseRow) :
  revoke_row t' customerId (revoke_row t customerId l) = revoke_row t customerId l.
Proof.
  unfold revoke_row.
  destruct (String.eqb (lic_customer_id l) customerId) eqn:E; simpl.
  - destruct (lic_revoked_at l) eqn:R; simpl.
    + now rewrite E, R.
    + rewrite E. reflexivity.
  - now rewrite E.
Qed.

Lemma revoke_row_stamped (t customerId : string) (l : LicenseRow) :
  lic_customer_id l = customerId ->
  lic_revoked_at (revoke_row t customerId l) <> None.
Proof.
  intros H. unfold revoke_row. rewrite H, String.eqb_refl. simpl.
  destruct (lic_revoked_at l) eqn:R; simpl; congruence.
Qed.

Section Cancellation.

Variable config : Config.
Context {JP : JSONParser} {JL : JSONParserLaws JP} {ED : Ed25519}.

Lemma isRevoked_spec (subject : string) (w : World) :
  registry_ok w ->
  fst (isRevoked subject w) = Ok (existsb (matchesb subject) (registry_entries w)).
Proof.
  intros Hok.
  destruct (load_ok w Hok) as (props & w1 & Hload & Hget & Hnn & _).
  unfold isRevoked, bind. rewrite Hload.
  unfold lift, entries_array, store_entries, exc_bind. rewrite Hget.
  simpl. now apply Array_some_not_null.
Qed.

(** One cancellation, on a world where the customer exists and the registry
    is in good shape. *)
Lemma cancel_step (event : PaymentEvent) (w : World) (d : Database) (c : CustomerRow) :
  eventType event = subscription_cancelled ->
  db w = Some d ->
  find (fun c => String.eqb (cust_email c) (email event)) (customers d) = Some c ->
  registry_ok w ->
  exists w' t t',
    processPaymentEvent config event w = (cancelled c, w')
    /\ registry_ok w'
    /\ registry_entries w'
       = (if existsb (matchesb (cust_id c)) (registry_entries w)
          then registry_entries w
          else registry_entries w
               ++ [revocation_entry (cust_id c) t
                     ("Subscription cancelled via " ++ provider_string (provider event))])
    /\ db w' = Some {| customers := customers d;
                       licenses := map (revoke_row t' (cust_id c)) (licenses d) |}.
Proof.
  intros Hty Hdb Hfind Hok.
  rewrite processPaymentEvent_run. unfold try_catch, dispatch. rewrite Hty.
  unfold handleSubscriptionCancelled, bind at 1.
  unfold findCustomerByEmail, bind at 1. unfold getDb at 1. rewrite Hdb.
  unfold ret at 1. rewrite Hfind.
  destruct (addRevocation_spec (cust_id c)
              ("Subscription cancelled via " ++ provider_string (provider event)) w Hok)
    as (w1 & Hadd & Hok1 & Hdb1 & Hdf1 & _ & _ & t & Hent).
  unfold bind at 1. rewrite Hadd.
  unfold bind at 1. unfold getDb at 1. rewrite Hdb1, Hdb.
  unfold bind at 1. rewrite now_ISO_run.
  unfold bind at 1. unfold db_run, bind at 1, getDb. simpl db. rewrite Hdb1, Hdb.
  unfold update_revoked_at.
  unfold bind, saveDb, ret. simpl db.
  exists (if String.eqb (databaseUrl config) ":memory:"
          then set_db (Some {| customers := customers d;
                               licenses := map (revoke_row (ISO_at w1) (cust_id c)) (licenses d) |})
                 (tick w1)
          else set_db_file (Some {| customers := customers d;
                               licenses := map (revoke_row (ISO_at w1) (cust_id c)) (licenses d) |})
                 (set_db (Some {| customers := customers d;
                               licenses := map (revoke_row (ISO_at w1) (cust_id c)) (licenses d) |})
                 (tick w1))), t, (ISO_at w1).
  destruct (String.eqb (databaseUrl config) ":memory:"); simpl.
  - repeat split; auto.
  - repeat split; auto.
Qed.

(** A world in which the customer has been cancelled before: the registry
    holds the subject and no license row of the customer is unrevoked.
    Cancelling again changes neither. *)
Lemma cancel_again (events : list PaymentEvent) (E : string) (c : CustomerRow) :
  Forall (fun e => eventType e = subscription_cancelled /\ email e = E) events ->
  forall (w : World) (d : Database),
    db w = Some d ->
    find (fun c => String.eqb (cust_email c) E) (customers d) = Some c ->
    registry_ok w ->
    existsb (matchesb (cust_id c)) (registry_entries w) = true ->
    (forall t, map (revoke_row t (cust_id c)) (licenses d) = licenses d) ->
    Forall (fun r => r = cancelled c) (fst (run_events config events w))
    /\ registry_ok (snd (run_events config events w))
    /\ registry_entries (snd (run_events config events w)) = registry_entries w
    /\ db (snd (run_events config events w)) = Some d.
Proof.
  induction 1 as [| e rest [Hty Hmail] Hrest IH]; intros w d Hdb Hfind Hok Hin Hstamped.
  - simpl. auto.
  - rewrite <- Hmail in Hfind.
    destruct (cancel_step e w d c Hty Hdb Hfind Hok) as (w1 & t & t' & Hrun & Hok1 & Hent1 & Hdb1).
    rewrite Hin in Hent1. rewrite Hstamped in Hdb1.
    assert (Hdb1' : db w1 = Some d) by (rewrite Hdb1; destruct d; reflexivity).
    rewrite Hmail in Hfind.
    rewrite <- Hent1 in Hin.
    specialize (IH w1 d Hdb1' Hfind Hok1 Hin Hstamped).
    simpl. rewrite Hrun.
    destruct (run_events config rest w1) as [rs w2]. simpl in *.
    destruct IH as (Hrs & Hok2 & Hent2 & Hdb2).
    repeat split; auto. congruence.
Qed.

(** C4.  A customer found by email [E] is cancelled one or more times, on a
    registry in good shape holding at most one entry for the customer.
    Every cancellation succeeds; afterwards the customer is revoked, the
    registry holds exactly one entry for the customer, and the license
    table is the table before with [revoked_at] stamped on each row of the
    customer that had none (no row is added, removed or otherwise
    changed). *)
Theorem repeated_cancellation
    (first : PaymentEvent) (more : list PaymentEvent) (E : string)
    (w : World) (d : Database) (c : CustomerRow) :
  Forall (fun e => eventType e = subscription_cancelled /\ email e = E)
    (first :: more) ->
  db w = Some d ->
  find (fun c => String.eqb (cust_email c) E) (customers d) = Some c ->
  registry_ok w ->
  (count_subject (cust_id c) (registry_entries w) <= 1)%nat ->
  let results := fst (run_events config (first :: more) w) in
  let w' := snd (run_events config (first :: more) w) in
  Forall (fun r => r = cancelled c) results
  /\ fst (isRevoked (cust_id c) w') = Ok true
  /\ count_subject (cust_id c) (registry_entries w') = 1%nat
  /\ exists revokedAt,
       db w' = Some {| customers := customers d;
                       licenses := map (revoke_row revokedAt (cust_id c)) (licenses d) |}
       /\ forall l, In l (map (revoke_row revokedAt (cust_id c)) (licenses d)) ->
                    lic_customer_id l = cust_id c -> lic_revoked_at l <> None.
Proof.
  intros Hall Hdb Hfind Hok Hcount results w'.
  inversion Hall as [| e es [Hty Hmail] Hmore]; subst e es.
  rewrite <- Hmail in Hfind.
  destruct (cancel_step first w d c Hty Hdb Hfind Hok)
    as (w1 & t & t' & Hrun & Hok1 & Hent1 & Hdb1).
  rewrite Hmail in Hfind.
  assert (Hin1 : existsb (matchesb (cust_id c)) (registry_entries w1) = true).
  { rewrite Hent1.
    destruct (existsb (matchesb (cust_id c)) (registry_entries w)) eqn:Hin; [assumption |].
    rewrite existsb_app. simpl. rewrite String.eqb_refl. apply orb_true_r. }
  assert (Hcount1 : count_subject (cust_id c) (registry_entries w1) = 1%nat).
  { rewrite Hent1.
    destruct (existsb (matchesb (cust_id c)) (registry_entries w)) eqn:Hin.
    - apply count_subject_pos in Hin. lia.
    - rewrite count_subject_app, (count_subject_zero _ _ Hin).
      unfold count_subject. simpl. rewrite String.eqb_refl. reflexivity. }
  set (d1 := {| customers := customers d;
                licenses := map (revoke_row t' (cust_id c)) (licenses d) |}) in *.
  assert (Hstamped : forall t0, map (revoke_row t0 (cust_id c)) (licenses d1) = licenses d1).
  { intros t0. simpl. rewrite map_map. apply map_ext. intros l. apply revoke_row_idem. }
  destruct (cancel_again more E c Hmore w1 d1 Hdb1 Hfind Hok1 Hin1 Hstamped)
    as (Hrs & Hok2 & Hent2 & Hdb2).
  unfold results, w'. simpl. rewrite Hrun.
  destruct (run_events config more w1) as [rs w2]. simpl in *.
  split; [constructor; auto |].
  split; [rewrite (isRevoked_spec _ _ Hok2), Hent2, Hin1; reflexivity |].
  split; [rewrite Hent2; exact Hcount1 |].
  exists t'. split; [exact Hdb2 |].
  intros l Hl Hc. apply in_map_iff in Hl as (l0 & <- & _).
  apply revoke_row_stamped.
  unfold revoke_row in Hc.
  destruct (String.eqb (lic_customer_id l0) (cust_id c) && is_null (lic_revoked_at l0));
    exact Hc.
Qed.

End Cancellation.

(** ** The registry: a write that is stopped *)

Lemma substring_all (s : string) : String.substring 0 (String.length s) s = s.
Proof. induction s; simpl; congruence. Qed.

Lemma substring_none (s : string) : String.substring 0 0 s = EmptyString.
Proof. destruct s; reflexivity. Qed.

Section CrashFacts.

Context {JP : JSONParser} {JL : JSONParserLaws JP}.

Lemma saveRevocationStore_stopped_run (written : nat) (store : jsval) (w : World) :
  saveRevocationStore_stopped written store w
  = (Ok tt, set_revoked_file (Some (String.substring 0 written (saved_text store w)))
              (tick (with_data_dir w))).
Proof.
  unfold saveRevocationStore_stopped, bind. rewrite ensureDataDir_run, now_ISO_run.
  reflexivity.
Qed.

(** C9, as amended.  [saveRevocationStore] rewrites the registry file in
    place: stopped after [written] code units, the file holds that prefix
    of the new text, whatever it held before; with all of them written the
    world is the one [saveRevocationStore] returns in.  A write stopped
    before its first code unit leaves an empty file, on which every subject
    reads as not revoked. *)
Theorem saveRevocationStore_writes_in_place (store : jsval) (w : World) :
  (forall written,
     revoked_file (snd (saveRevocationStore_stopped written store w))
     = Some (String.substring 0 written (saved_text store w)))
  /\ saveRevocationStore_stopped (String.length (saved_text store w)) store w
     = saveRevocationStore store w
  /\ (forall subject,
        fst (isRevoked subject (snd (saveRevocationStore_stopped 0 store w)))
        = Ok false).
Proof.
  repeat split.
  - intros written. now rewrite saveRevocationStore_stopped_run.
  - rewrite saveRevocationStore_stopped_run, substring_all.
    unfold saveRevocationStore, bind. rewrite ensureDataDir_run, now_ISO_run.
    reflexivity.
  - intros subject. unfold isRevoked, bind.
    rewrite load_unreadable; [reflexivity |].
    right. exists EmptyString. rewrite saveRevocationStore_stopped_run.
    simpl. rewrite substring_none. split; [reflexivity | apply parse_empty].
Qed.

End CrashFacts.

(** ** The offline TTL *)

(** What [isWithinOfflineTTL] answers, from the clock reading it takes. *)
Lemma isWithinOfflineTTL_run (license : SignedLicense) (lastVerified : Date) (w : World) :
  isWithinOfflineTTL license lastVerified w
  = (Ok (Date_lt (ValidDate (clock w (ticks w)))
           (Date_plus lastVerified (offline_ttl_days license * 24 * 60 * 60 * 1000))),
     tick w).
Proof. reflexivity. Qed.

(** C7, as amended.  For a valid [lastVerified] whose deadline
    [lastVerified + offline_ttl_days] days is a time value a [Date] can
    hold, the answer is true exactly when the current time is before the
    deadline: true one millisecond before it, false one millisecond after
    it.  When the deadline is beyond the range of [Date], the answer is
    false. *)
Theorem isWithinOfflineTTL_spec (license : SignedLicense) (lastVerified : Z) (w : World) :
  let now := clock w (ticks w) in
  let deadline := lastVerified + offline_ttl_days license * msPerDay in
  (Z.abs deadline <= maxTimeValue ->
     (fst (isWithinOfflineTTL license (ValidDate lastVerified) w) = Ok true
        <-> now < deadline)
     /\ (now = deadline - 1 ->
           fst (isWithinOfflineTTL license (ValidDate lastVerified) w) = Ok true)
     /\ (now = deadline + 1 ->
           fst (isWithinOfflineTTL license (ValidDate lastVerified) w) = Ok false))
  /\ (maxTimeValue < Z.abs deadline ->
        fst (isWithinOfflineTTL license (ValidDate lastVerified) w) = Ok false).
Proof.
  intros now deadline.
  rewrite isWithinOfflineTTL_run. unfold Date_plus, Date_of_number. simpl fst.
  simpl getTime.
  replace (lastVerified + offline_ttl_days license * 24 * 60 * 60 * 1000)
    with deadline by (unfold deadline, msPerDay; lia).
  split.
  - intros Hr. apply Z.leb_le in Hr. rewrite Hr. unfold Date_lt. simpl.
    fold now. repeat split.
    + intros H. injection H as H. now apply Z.ltb_lt.
    + intros H. f_equal. now apply Z.ltb_lt.
    + intros ->. f_equal. apply Z.ltb_lt. lia.
    + intros ->. f_equal. apply Z.ltb_ge. lia.
  - intros Hr. apply Z.leb_gt in Hr. rewrite Hr. reflexivity.
Qed.

(** C7 as stated fails: a [lastVerified] at the last representable
    instant has no representable deadline, and the answer is false although
    the current time is before [lastVerified] plus 30 days. *)
Lemma isWithinOfflineTTL_overflow :
  ~ (forall (license : SignedLicense) (lastVerified : Z) (w : World),
       fst (isWithinOfflineTTL license (ValidDate lastVerified) w) = Ok true
       <-> clock w (ticks w) < lastVerified + offline_ttl_days license * msPerDay).
Proof.
  intros H.
  specialize (H issued_license maxTimeValue (world_at 1767225600000)).
  destruct H as [_ H]. simpl in H.
  assert (Hlt : 1767225600000 < maxTimeValue + 30 * msPerDay)
    by (unfold maxTimeValue, msPerDay; lia).
  specialize (H Hlt). discriminate H.
Qed.

(** ** Canonicalization *)

Lemma leb_trans (a b c : string) :
  String.leb a b = true -> String.leb b c = true -> String.leb a c = true.
Proof.
  unfold String.leb. intros Hab Hbc.
  destruct (String.compare a b) eqn:Eab; try discriminate;
    destruct (String.compare b c) eqn:Ebc; try discriminate.
  - apply String.compare_eq_iff in Eab. subst. now rewrite Ebc.
  - apply String.compare_eq_iff in Eab. subst. now rewrite Ebc.
  - apply String.compare_eq_iff in Ebc. subst. now rewrite Eab.
  - apply String_as_OT.cmp_lt in Eab, Ebc.
    pose proof (String_as_OT.lt_trans _ _ _ Eab Ebc) as H.
    apply String_as_OT.cmp_lt in H. unfold String_as_OT.cmp in H. now rewrite H.
Qed.

Lemma leb_false_leb (a b : string) : String.leb a b = false -> String.leb b a = true.
Proof. intros H. destruct (String.leb_total a b); congruence. Qed.

Lemma sort_insert_comm (x y : string) (l : list string) :
  sort_insert x (sort_insert y l) = sort_insert y (sort_insert x l).
Proof.
  induction l as [| z l IH]; simpl.
  - destruct (String.leb x y) eqn:Exy, (String.leb y x) eqn:Eyx; auto.
    + now rewrite (String.leb_antisym _ _ Exy Eyx).
    + apply leb_false_leb in Exy. congruence.
  - destruct (String.leb y z) eqn:Eyz, (String.leb x z) eqn:Exz; simpl;
      rewrite ?Eyz, ?Exz.
    + destruct (String.leb x y) eqn:Exy, (String.leb y x) eqn:Eyx;
        rewrite ?Eyz, ?Exz; auto.
      * now rewrite (String.leb_antisym _ _ Exy Eyx).
      * apply leb_false_leb in Exy. congruence.
    + destruct (String.leb x y) eqn:Exy.
      * rewrite (leb_trans _ _ _ Exy Eyz) in Exz. discriminate.
      * simpl. now rewrite ?Exz, ?Eyz.
    + destruct (String.leb y x) eqn:Eyx.
      * rewrite (leb_trans _ _ _ Eyx Exz) in Eyz. discriminate.
      * simpl. now rewrite ?Exz, ?Eyz.
    + now rewrite IH.
Qed.

Lemma Array_sort_perm (l l' : list string) :
  Permutation l l' -> Array_sort l = Array_sort l'.
Proof.
  induction 1; simpl; try congruence. apply sort_insert_comm.
Qed.

Lemma sort_insert_perm (x : string) (l : list string) :
  Permutation (sort_insert x l) (x :: l).
Proof.
  induction l as [| y l IH]; simpl; [reflexivity |].
  destruct (String.leb x y); [reflexivity |].
  rewrite IH. apply perm_swap.
Qed.

Lemma Array_sort_is_perm (l : list string) : Permutation (Array_sort l) l.
Proof.
  induction l as [| x l IH]; simpl; [reflexivity |].
  rewrite sort_insert_perm. now constructor.
Qed.

(** The serialization of an object with a PropertyList, in one step. *)
Lemma SerializeJSON_object (K : list string) (gap stepback : string) (o : jsobject) :
  SerializeJSON (Some K) gap stepback (JObj o)
  = wrap_members "{" "}" gap stepback
      (flat_map (fun P =>
                   match option_map (SerializeJSON (Some K) gap (stepback ++ gap))
                           (obj_get P o) with
                   | Some strP =>
                       [(QuoteJSONString P ++ (if String.eqb gap "" then ":" else ": ")
                           ++ strP)%string]
                   | None => []
                   end) K).
Proof.
  simpl. f_equal. apply flat_map_ext. intros P. now rewrite obj_get_map.
Qed.

Lemma canonicalize_unfold (o : jsobject) :
  canonicalize o
  = SerializeJSON (Some (PropertyList_of [] (Array_sort (Object_keys o)))) "" "" (JObj o).
Proof. reflexivity. Qed.

(** Canonicalization does not depend on the order of the properties. *)
Lemma canonicalize_perm (o o' : jsobject) :
  NoDup (Object_keys o) -> Permutation o o' -> canonicalize o = canonicalize o'.
Proof.
  intros Hnd Hp. rewrite !canonicalize_unfold.
  assert (HK : Array_sort (Object_keys o) = Array_sort (Object_keys o'))
    by (apply Array_sort_perm, Permutation_map, Hp).
  rewrite <- HK. rewrite !SerializeJSON_object. f_equal.
  apply flat_map_ext. intros P. now rewrite (obj_get_perm P o o' Hnd Hp).
Qed.

Lemma keys_insert_by_key (kv : string * jsval) (l : jsobject) :
  map fst (insert_by_key kv l) = sort_insert (fst kv) (map fst l).
Proof.
  induction l as [| kv' l IH]; simpl; [reflexivity |].
  destruct (String.leb (fst kv) (fst kv')); simpl; congruence.
Qed.

Lemma keys_sort_by_key (o : jsobject) :
  map fst (sort_by_key o) = Array_sort (map fst o).
Proof.
  induction o as [| kv o IH]; simpl; [reflexivity |].
  now rewrite keys_insert_by_key, IH.
Qed.

Lemma insert_by_key_perm (kv : string * jsval) (l : jsobject) :
  Permutation (insert_by_key kv l) (kv :: l).
Proof.
  induction l as [| kv' l IH]; simpl; [reflexivity |].
  destruct (String.leb (fst kv) (fst kv')); [reflexivity |].
  rewrite IH. apply perm_swap.
Qed.

Lemma sort_by_key_perm (o : jsobject) : Permutation (sort_by_key o) o.
Proof.
  induction o as [| kv o IH]; simpl; [reflexivity |].
  rewrite insert_by_key_perm. now constructor.
Qed.

Lemma PropertyList_of_distinct (keys seen : list string) :
  NoDup keys -> (forall k, In k keys -> ~ In k seen) ->
  PropertyList_of seen keys = keys.
Proof.
  revert seen. induction keys as [| k ks IH]; simpl; intros seen Hnd Hdis;
    [reflexivity |].
  inversion Hnd as [| ? ? Hnotin Hnd']; subst.
  destruct (existsb (String.eqb k) seen) eqn:E.
  - apply existsb_exists in E as (k' & Hin & Heq).
    apply String.eqb_eq in Heq. subst k'. exfalso. apply (Hdis k); auto.
  - f_equal. apply IH; auto.
    intros k' Hin [<- | Hseen]; [contradiction |].
    apply (Hdis k'); auto.
Qed.

Lemma SerializeJSON_primitive (x : jsval) (p p' : option (list string))
    (gap gap' stepback stepback' : string) :
  is_primitive x = true ->
  SerializeJSON p gap stepback x = SerializeJSON p' gap' stepback' x.
Proof. destruct x; simpl; try discriminate; reflexivity. Qed.

(** On a flat object with distinct keys, the array replacer of
    [canonicalize] yields the canonical form. *)
Lemma canonicalize_canonical_form (o : jsobject) :
  NoDup (Object_keys o) -> flat o -> canonicalize o = canonical_form o.
Proof.
  intros Hnd Hflat. rewrite canonicalize_unfold.
  assert (HndK : NoDup (Array_sort (Object_keys o)))
    by (eapply Permutation_NoDup; [symmetry; apply Array_sort_is_perm | assumption]).
  rewrite PropertyList_of_distinct by (auto; intros ? ? []).
  rewrite SerializeJSON_object.
  unfold canonical_form, JSON_stringify. simpl.
  rewrite keys_sort_by_key. f_equal. apply flat_map_ext. intros P.
  rewrite obj_get_map.
  rewrite (obj_get_perm P (sort_by_key o) o).
  - destruct (obj_get P o) as [x |] eqn:E; [| reflexivity]. simpl.
    apply obj_get_In in E. unfold flat in Hflat. rewrite Forall_forall in Hflat.
    specialize (Hflat _ E). simpl in Hflat.
    now rewrite (SerializeJSON_primitive x _ None "" "" "" "" Hflat).
  - rewrite keys_sort_by_key. exact HndK.
  - apply sort_by_key_perm.
Qed.

Section Canonical.

Variable config : Config.
Context {ED : Ed25519}.

(** C3.  Two license payloads (objects with distinct keys whose values
    are strings and numbers) with the same fields in a different order have
    the same canonical text, hence the same bytes before signing; the text
    is the compact JSON of the payload with its keys sorted; and the
    signature [signLicense] attaches is the Base64 text of the signature of
    the UTF-8 bytes of that text. *)
Theorem canonicalization_is_order_independent (payload payload' : jsobject) :
  NoDup (Object_keys payload) -> flat payload -> Permutation payload payload' ->
  canonicalize payload = canonicalize payload'
  /\ TextEncoder_encode (canonicalize payload)
     = TextEncoder_encode (canonicalize payload')
  /\ canonicalize payload = canonical_form payload
  /\ signLicense config payload
     = exc_bind (ed_signAsync (TextEncoder_encode (canonical_form payload))
                   (hexToBytes (licensePrivateKey config)))
         (fun sig => Ok (obj_set "signature" (JStr (bytesToBase64 sig)) payload)).
Proof.
  intros Hnd Hflat Hp.
  pose proof (canonicalize_perm _ _ Hnd Hp) as H1.
  pose proof (canonicalize_canonical_form _ Hnd Hflat) as H2.
  repeat split; auto.
  - now rewrite H1.
  - unfold signLicense. now rewrite H2.
Qed.

End Canonical.

(** ** Base64 *)

Lemma unbase64_base64_char (n : N) :
  (n < 64)%N -> unbase64 (base64_char n) = Some n.
Proof.
  intros H. rewrite <- (N2Nat.id n) in *.
  assert (Hk : (N.to_nat n < 64)%nat) by lia.
  generalize dependent (N.to_nat n). clear n. intros k _ Hk.
  do 64 (destruct k as [| k]; [reflexivity |]). lia.
Qed.

Lemma base64_char_not_pad (n : N) :
  (n < 64)%N -> Ascii.eqb (base64_char n) pad_char = false.
Proof.
  intros H. rewrite <- (N2Nat.id n) in *.
  assert (Hk : (N.to_nat n < 64)%nat) by lia.
  generalize dependent (N.to_nat n). clear n. intros k _ Hk.
  do 64 (destruct k as [| k]; [reflexivity |]). lia.
Qed.

Lemma N_of_ascii_bound (a : ascii) : (N_of_ascii a < 256)%N.
Proof. apply N_ascii_bounded. Qed.

Lemma sextets_cons (n : N) (s : string) :
  (n < 64)%N -> base64_sextets (String (base64_char n) s) = n :: base64_sextets s.
Proof.
  intros H. simpl. now rewrite (base64_char_not_pad n H), (unbase64_base64_char n H).
Qed.

Ltac sextet_arith :=
  repeat match goal with
         | |- context [N_of_ascii ?a] =>
             let H := fresh in pose proof (N_of_ascii_bound a) as H;
             generalize dependent (N_of_ascii a); intros
         end;
  zify; Z.to_euclidean_division_equations; lia.

(** [Buffer] reads back the Base64 text it writes. *)
Lemma base64ToBytes_bytesToBase64 (bytes : Uint8Array) :
  base64ToBytes (bytesToBase64 bytes) = bytes.
Proof.
  unfold base64ToBytes, bytesToBase64.
  assert (H : forall n bs, (List.length bs <= n)%nat ->
                           base64_bytes (base64_sextets (base64_encode bs)) = bs).
  { induction n as [| n IH]; intros bs Hlen.
    - destruct bs; [reflexivity | simpl in Hlen; lia].
    - destruct bs as [| a [| b [| c rest]]].
      + reflexivity.
      + cbn [base64_encode]. rewrite !sextets_cons by sextet_arith.
        simpl. f_equal. rewrite <- (ascii_N_embedding a) at 3. f_equal. sextet_arith.
      + cbn [base64_encode]. rewrite !sextets_cons by sextet_arith.
        simpl. f_equal; [| f_equal].
        * rewrite <- (ascii_N_embedding a) at 3. f_equal. sextet_arith.
        * rewrite <- (ascii_N_embedding b) at 3. f_equal. sextet_arith.
      + cbn [base64_encode]. rewrite !sextets_cons by sextet_arith.
        cbn [base64_bytes]. rewrite IH by (simpl in Hlen; lia).
        f_equal; [| f_equal; [| f_equal]].
        * rewrite <- (ascii_N_embedding a) at 3. f_equal. sextet_arith.
        * rewrite <- (ascii_N_embedding b) at 3. f_equal. sextet_arith.
        * rewrite <- (ascii_N_embedding c) at 3. f_equal. sextet_arith. }
  apply (H (List.length bytes)). lia.
Qed.




(** Text after an [=] is not read: the padding may be cut off. *)
Lemma base64_sextets_pad (s t : string) :
  base64_sextets (s ++ String pad_char t) = base64_sextets s.
Proof.
  induction s as [| c s IH]; simpl; [reflexivity |].
  destruct (Ascii.eqb c pad_char); [reflexivity |].
  destruct (unbase64 c); now rewrite IH.
Qed.

(** The length of a Base64 text, and of the part before its padding. *)
Lemma base64_encode_length (n : nat) :
  forall bytes, (List.length bytes <= n)%nat ->
    String.length (base64_encode bytes) = (4 * ((List.length bytes + 2) / 3))%nat
    /\ String.length (before_pad (base64_encode bytes))
       = ((4 * List.length bytes + 2) / 3)%nat.
Proof.
  induction n as [| n IH]; intros bytes Hn.
  - destruct bytes; [split; reflexivity | simpl in Hn; lia].
  - destruct bytes as [| a [| b [| c rest]]]; try (split; reflexivity).
    + cbn [base64_encode before_pad String.length].
      rewrite !base64_char_not_pad by sextet_arith.
      split; reflexivity.
    + cbn [base64_encode before_pad String.length].
      rewrite !base64_char_not_pad by sextet_arith.
      split; reflexivity.
    + destruct (IH rest) as [Hall Hbefore]; [simpl in Hn; lia |].
      change (List.length (a :: b :: c :: rest)) with (3 + List.length rest)%nat.
      cbn [base64_encode before_pad].
      rewrite !base64_char_not_pad by sextet_arith.
      cbn [String.length]. rewrite Hall, Hbefore.
      generalize (List.length rest). intros m.
      replace (3 + m + 2)%nat with (m + 2 + 1 * 3)%nat by lia.
      replace (4 * (3 + m) + 2)%nat with (4 * m + 2 + 4 * 3)%nat by lia.
      rewrite !Nat.div_add by lia. lia.
Qed.

Lemma before_pad_prefix (s : string) : String.prefix (before_pad s) s = true.
Proof.
  induction s as [| c s IH]; simpl; [reflexivity |].
  destruct (Ascii.eqb c pad_char) eqn:E; [reflexivity |].
  simpl. destruct (ascii_dec c c); [assumption | contradiction].
Qed.

Lemma base64_sextets_before_pad (s : string) :
  base64_sextets (before_pad s) = base64_sextets s.
Proof.
  induction s as [| c s IH]; simpl; [reflexivity |].
  destruct (Ascii.eqb c pad_char) eqn:E; [reflexivity |].
  simpl. rewrite E. destruct (unbase64 c); now rewrite IH.
Qed.


(** ** The reference parser reads what [JSON.stringify] writes *)

Module RefJSONFacts.

Import RefJSON RefJSONText.

Local Open Scope string_scope.

Lemma append_assoc (a b c : string) : ((a ++ b) ++ c = a ++ (b ++ c))%string.
Proof. induction a; simpl; congruence. Qed.

Lemma append_nil_r (a : string) : (a ++ "" = a)%string.
Proof. induction a; simpl; congruence. Qed.

Lemma length_append (a b : string) :
  String.length (a ++ b) = (String.length a + String.length b)%nat.
Proof. induction a; simpl; congruence. Qed.

(** *** White space *)

Lemma skip_ws_app (ws s : string) :
  all_ws ws = true -> skip_ws (ws ++ s) = skip_ws s.
Proof.
  induction ws as [| c ws IH]; simpl; [reflexivity |].
  intros H. apply andb_true_iff in H as [Hc Hws]. now rewrite Hc, IH.
Qed.

Lemma all_ws_app (a b : string) :
  all_ws a = true -> all_ws b = true -> all_ws (a ++ b) = true.
Proof.
  induction a as [| c a IH]; simpl; [auto |].
  intros H Hb. apply andb_true_iff in H as [Hc Ha]. now rewrite Hc, IH.
Qed.

Lemma all_ws_spaces (n : nat) : all_ws (String.concat "" (repeat " " n)) = true.
Proof.
  induction n as [| n IH]; [reflexivity |].
  destruct n as [| n]; [reflexivity |].
  change (repeat " " (S (S n))) with (" " :: repeat " " (S n)).
  simpl String.concat in *. exact IH.
Qed.

Lemma skip_ws_token (s : string) :
  starts_with (fun c => negb (is_ws c)) s = true -> skip_ws s = s.
Proof.
  destruct s as [| c s]; simpl; [reflexivity |].
  intros H. apply negb_true_iff in H. now rewrite H.
Qed.

Lemma parse_value_skip (fuel : nat) (ws s : string) :
  all_ws ws = true -> parse_value fuel (ws ++ s) = parse_value fuel s.
Proof.
  intros H. destruct fuel; simpl; [reflexivity |]. now rewrite skip_ws_app.
Qed.

(** *** Strings *)

Lemma parse_quote_char (c : ascii) (s : string) :
  parse_string_body (quote_char c ++ s) = cons_char c (parse_string_body s).
Proof.
  destruct c as [[|] [|] [|] [|] [|] [|] [|] [|]]; reflexivity.
Qed.

Lemma parse_quote_body (s rest : string) :
  parse_string_body (quote_body s ++ String dquote rest) = Some (s, rest).
Proof.
  induction s as [| c s IH]; simpl; [reflexivity |].
  now rewrite append_assoc, parse_quote_char, IH.
Qed.

Lemma QuoteJSONString_app (s rest : string) :
  (QuoteJSONString s ++ rest)%string
  = String dquote (quote_body s ++ String dquote rest).
Proof.
  unfold QuoteJSONString. simpl. f_equal. now rewrite append_assoc.
Qed.

(** *** Numbers *)

Lemma take_digits_uint (d : Decimal.uint) (rest : string) :
  starts_with is_digit rest = false ->
  take_digits (NilEmpty.string_of_uint d ++ rest) = (NilEmpty.string_of_uint d, rest).
Proof.
  intros Hrest. induction d; simpl; rewrite ?IHd; try reflexivity.
  destruct rest as [| c rest]; simpl in *; [reflexivity |]. now rewrite Hrest.
Qed.

Lemma to_uint_head (p : positive) (d : Decimal.uint) : Pos.to_uint p <> Decimal.D0 d.
Proof.
  intros H.
  pose proof (DecimalPos.Unsigned.to_of (Pos.to_uint p)) as Hn.
  rewrite DecimalPos.Unsigned.of_to in Hn. simpl in Hn.
  pose proof (DecimalPos.Unsigned.to_uint_nonzero p) as Hz.
  rewrite Hn in Hz.
  assert (Hnz : Decimal.nzhead (Pos.to_uint p) <> Decimal.Nil).
  { intros E. apply Hz. now apply DecimalFacts.unorm_0. }
  rewrite (DecimalFacts.unorm_nzhead _ Hnz) in Hn.
  rewrite H in Hn at 1. symmetry in Hn.
  exact (DecimalFacts.nzhead_nonzero _ _ Hn).
Qed.

Lemma parse_number_uint (sign : string) (d : Decimal.uint) (rest : string) (z : Z) :
  d <> Decimal.Nil -> (forall d', d = Decimal.D0 d' -> d' = Decimal.Nil) ->
  number_end rest = true ->
  (sign = "" \/ sign = "-") ->
  NilZero.int_of_string (sign ++ NilEmpty.string_of_uint d) = Some (Z.to_int z) ->
  parse_number (sign ++ NilEmpty.string_of_uint d ++ rest) = Some (z, rest).
Proof.
  intros Hnil Hzero Hend Hsign Hint.
  apply andb_true_iff in Hend as [Hdig Hfrac].
  apply negb_true_iff in Hdig, Hfrac.
  assert (Hsplit :
            match (sign ++ NilEmpty.string_of_uint d ++ rest)%string with
            | String c r =>
                if Ascii.eqb c "-" then ("-", r)
                else ("", (sign ++ NilEmpty.string_of_uint d ++ rest)%string)
            | EmptyString => ("", (sign ++ NilEmpty.string_of_uint d ++ rest)%string)
            end = (sign, (NilEmpty.string_of_uint d ++ rest)%string)).
  { destruct Hsign as [-> | ->]; [| reflexivity].
    destruct d; try reflexivity. now destruct Hnil. }
  unfold parse_number. rewrite Hsplit.
  rewrite (take_digits_uint d rest Hdig), Hfrac, Hint, DecimalZ.of_to.
  destruct d; try reflexivity; try (now destruct Hnil).
  rewrite (Hzero d eq_refl). reflexivity.
Qed.

Lemma parse_number_Z (z : Z) (rest : string) :
  number_end rest = true ->
  parse_number (Z_to_string z ++ rest) = Some (z, rest).
Proof.
  intros Hend. unfold Z_to_string.
  assert (Hint : NilZero.int_of_string (NilZero.string_of_int (Z.to_int z))
                 = Some (Z.to_int z)).
  { apply NilZero.isi; destruct z; simpl; try discriminate;
      intros [= H]; exact (DecimalPos.Unsigned.to_uint_nonnil _ H). }
  destruct z as [| p | p]; simpl Z.to_int in *.
  - apply (parse_number_uint "" (Decimal.D0 Decimal.Nil) rest 0%Z); auto.
    + discriminate.
    + now intros d' [= <-].
  - simpl NilZero.string_of_int in *.
    assert (Hs : NilZero.string_of_uint (Pos.to_uint p)
                 = NilEmpty.string_of_uint (Pos.to_uint p)).
    { destruct (Pos.to_uint p) eqn:E; try reflexivity.
      now destruct (DecimalPos.Unsigned.to_uint_nonnil p). }
    rewrite Hs in *.
    apply (parse_number_uint "" (Pos.to_uint p) rest (Z.pos p)); auto.
    + apply DecimalPos.Unsigned.to_uint_nonnil.
    + intros d' H. now destruct (to_uint_head p d').
  - simpl NilZero.string_of_int in *.
    assert (Hs : NilZero.string_of_uint (Pos.to_uint p)
                 = NilEmpty.string_of_uint (Pos.to_uint p)).
    { destruct (Pos.to_uint p) eqn:E; try reflexivity.
      now destruct (DecimalPos.Unsigned.to_uint_nonnil p). }
    rewrite Hs in *.
    apply (parse_number_uint "-" (Pos.to_uint p) rest (Z.neg p)); auto.
    + apply DecimalPos.Unsigned.to_uint_nonnil.
    + intros d' H. now destruct (to_uint_head p d').
Qed.

Lemma Z_to_string_start (z : Z) : starts_with number_start (Z_to_string z) = true.
Proof.
  unfold Z_to_string. destruct z as [| p | p]; simpl; try reflexivity.
  destruct (Pos.to_uint p); reflexivity.
Qed.

(** *** The shape of a serialized array or object *)

Lemma join_members_text (pre post close rest p : string) (ps : list string) :
  (join (String "," pre) (p :: ps) ++ post ++ close ++ rest)%string
  = members_text pre post close rest (p :: ps).
Proof.
  revert p. induction ps as [| q ps IH]; intros p; [reflexivity |].
  change (join (String "," pre) (p :: q :: ps))
    with (p ++ String "," pre ++ join (String "," pre) (q :: ps)).
  rewrite !append_assoc. rewrite IH. reflexivity.
Qed.

Lemma wrap_members_text (open close gap stepback rest p : string) (ps : list string) :
  (wrap_members open close gap stepback (p :: ps) ++ rest)%string
  = (open ++ pre gap stepback
       ++ members_text (pre gap stepback) (post gap stepback) close rest (p :: ps))%string.
Proof.
  rewrite <- join_members_text.
  unfold wrap_members, pre, post.
  destruct (String.eqb gap ""); rewrite !append_assoc; reflexivity.
Qed.

Lemma all_ws_pre (gap stepback : string) :
  all_ws gap = true -> all_ws stepback = true -> all_ws (pre gap stepback) = true.
Proof.
  intros Hg Hs. unfold pre. destruct (String.eqb gap ""); [reflexivity |].
  simpl. now apply all_ws_app.
Qed.

Lemma all_ws_post (gap stepback : string) :
  all_ws stepback = true -> all_ws (post gap stepback) = true.
Proof.
  intros Hs. unfold post. destruct (String.eqb gap ""); [reflexivity | exact Hs].
Qed.

(** *** Values *)

Lemma parse_value_S (fuel : nat) (s : string) :
  parse_value (S fuel) s
  = match skip_ws s with
    | EmptyString => None
    | String c rest =>
        if Ascii.eqb c "n" then expect "null" JNull (String c rest)
        else if Ascii.eqb c "t" then expect "true" (JBool true) (String c rest)
        else if Ascii.eqb c "f" then expect "false" (JBool false) (String c rest)
        else if Ascii.eqb c dquote then
          match parse_string_body rest with
          | Some (body, rest') => Some (JStr body, rest')
          | None => None
          end
        else if Ascii.eqb c "[" then
          match skip_ws rest with
          | String c' rest' =>
              if Ascii.eqb c' "]" then Some (JArr [], rest')
              else parse_items fuel rest []
          | EmptyString => None
          end
        else if Ascii.eqb c "{" then
          match skip_ws rest with
          | String c' rest' =>
              if Ascii.eqb c' "}" then Some (JObj [], rest')
              else parse_members fuel rest []
          | EmptyString => None
          end
        else
          match parse_number (String c rest) with
          | Some (n, rest') => Some (JNum n, rest')
          | None => None
          end
    end.
Proof. reflexivity. Qed.

Lemma parse_items_S (fuel : nat) (s : string) (acc : list jsval) :
  parse_items (S fuel) s acc
  = match parse_value fuel s with
    | Some (v, rest) =>
        match skip_ws rest with
        | String c rest' =>
            if Ascii.eqb c "," then parse_items fuel rest' (acc ++ [v])
            else if Ascii.eqb c "]" then Some (JArr (acc ++ [v]), rest')
            else None
        | EmptyString => None
        end
    | None => None
    end.
Proof. reflexivity. Qed.

Lemma parse_members_S (fuel : nat) (s : string) (acc : jsobject) :
  parse_members (S fuel) s acc
  = match skip_ws s with
    | String c rest =>
        if Ascii.eqb c dquote then
          match parse_string_body rest with
          | Some (k, rest1) =>
              match skip_ws rest1 with
              | String c1 rest2 =>
                  if Ascii.eqb c1 ":" then
                    match parse_value fuel rest2 with
                    | Some (v, rest3) =>
                        match skip_ws rest3 with
                        | String c3 rest4 =>
                            if Ascii.eqb c3 ","
                            then parse_members fuel rest4 (define k v acc)
                            else if Ascii.eqb c3 "}"
                            then Some (JObj (define k v acc), rest4)
                            else None
                        | EmptyString => None
                        end
                    | None => None
                    end
                  else None
              | EmptyString => None
              end
          | None => None
          end
        else None
    | EmptyString => None
    end.
Proof. reflexivity. Qed.

Lemma number_start_dispatch (c : ascii) :
  number_start c = true ->
  value_start c = true
  /\ Ascii.eqb c "n" = false /\ Ascii.eqb c "t" = false /\ Ascii.eqb c "f" = false
  /\ Ascii.eqb c dquote = false /\ Ascii.eqb c "[" = false /\ Ascii.eqb c "{" = false.
Proof.
  destruct c as [[|] [|] [|] [|] [|] [|] [|] [|]]; cbv; intros H;
    try discriminate H; repeat split.
Qed.

Lemma starts_with_app (P : ascii -> bool) (s rest : string) :
  starts_with P s = true -> starts_with P (s ++ rest) = true.
Proof. destruct s; simpl; [discriminate | auto]. Qed.

Lemma ser_start (v : jsval) (gap stepback rest : string) :
  starts_with value_start (ser gap stepback v ++ rest) = true.
Proof.
  apply starts_with_app.
  destruct v as [| [|] | n | s | items | props]; try reflexivity.
  - pose proof (Z_to_string_start n) as H. simpl.
    destruct (Z_to_string n) as [| c s]; [discriminate |]. simpl in *.
    now apply number_start_dispatch.
  - simpl. unfold wrap_members.
    destruct (map _ items); [reflexivity |].
    destruct (String.eqb gap ""); reflexivity.
  - simpl. unfold wrap_members.
    destruct (flat_map _ _); [reflexivity |].
    destruct (String.eqb gap ""); reflexivity.
Qed.

Lemma value_start_not_ws (s : string) :
  starts_with value_start s = true -> skip_ws s = s.
Proof.
  intros H. apply skip_ws_token. destruct s as [| c s]; [discriminate |].
  simpl in *. unfold value_start in H.
  repeat (apply andb_true_iff in H as [H ?]). exact H.
Qed.

Lemma expect_word (word : string) (v : jsval) (rest : string) :
  expect word v (word ++ rest) = Some (v, rest).
Proof.
  unfold expect.
  assert (Hp : String.prefix word (word ++ rest) = true).
  { induction word as [| c w IH]; simpl; [now destruct rest |].
    destruct (ascii_dec c c); [exact IH | contradiction]. }
  rewrite Hp. f_equal. f_equal.
  rewrite length_append.
  replace (String.length word + String.length rest - String.length word)%nat
    with (String.length rest) by lia.
  induction word as [| c w IH]; simpl.
  - apply substring_all.
  - apply IH. clear IH Hp.
    induction w as [| c' w IH]; simpl; [now destruct rest |].
    destruct (ascii_dec c' c'); [exact IH | contradiction].
Qed.

Lemma reads_null : reads JNull.
Proof.
  intros gap stepback rest [| fuel] _ _ Hfuel _; [simpl in Hfuel; lia |].
  rewrite parse_value_S. simpl (ser _ _ _). simpl skip_ws.
  apply (expect_word "null" JNull rest).
Qed.

Lemma reads_bool (b : bool) : reads (JBool b).
Proof.
  intros gap stepback rest [| fuel] _ _ Hfuel _; [simpl in Hfuel; lia |].
  rewrite parse_value_S. destruct b; simpl (ser _ _ _); simpl skip_ws.
  - apply (expect_word "true" (JBool true) rest).
  - apply (expect_word "false" (JBool false) rest).
Qed.

Lemma reads_str (s : string) : reads (JStr s).
Proof.
  intros gap stepback rest [| fuel] _ _ Hfuel _; [simpl in Hfuel; lia |].
  rewrite parse_value_S. simpl (ser _ _ _). rewrite QuoteJSONString_app.
  simpl skip_ws. cbv beta iota. 
  change (Ascii.eqb dquote "n") with false.
  change (Ascii.eqb dquote "t") with false.
  change (Ascii.eqb dquote "f") with false.
  change (Ascii.eqb dquote dquote) with true.
  cbv beta iota. now rewrite parse_quote_body.
Qed.

Lemma reads_num (n : Z) : reads (JNum n).
Proof.
  intros gap stepback rest [| fuel] _ _ Hfuel Hend; [simpl in Hfuel; lia |].
  rewrite parse_value_S. simpl (ser _ _ _).
  pose proof (Z_to_string_start n) as Hs.
  pose proof (parse_number_Z n rest Hend) as Hn.
  destruct (Z_to_string n) as [| c s]; [discriminate |].
  simpl in Hs. apply number_start_dispatch in Hs
    as (Hv & Hn1 & Hn2 & Hn3 & Hn4 & Hn5 & Hn6).
  rewrite value_start_not_ws by exact Hv.
  simpl append. cbv beta iota. rewrite Hn1, Hn2, Hn3, Hn4, Hn5, Hn6.
  simpl append in Hn. now rewrite Hn.
Qed.

Lemma value_end_post (gap stepback close rest : string) :
  starts_with (fun c => Ascii.eqb c "]" || Ascii.eqb c "}") close = true ->
  value_end (post gap stepback ++ close ++ rest) = true.
Proof.
  intros H. unfold post. destruct (String.eqb gap ""); [| reflexivity].
  destruct close as [| c close]; [discriminate |]. simpl in *.
  destruct c as [[|] [|] [|] [|] [|] [|] [|] [|]]; try discriminate H; reflexivity.
Qed.

Lemma members_text_head (pre post close rest p : string) (ps : list string) :
  exists tail, members_text pre post close rest (p :: ps) = (p ++ tail)%string.
Proof. destruct ps; simpl; eauto. Qed.

(** *** Arrays and objects *)

Section Loops.

Variables gap stepback rest : string.
Hypothesis Hgap : all_ws gap = true.
Hypothesis Hstepback : all_ws stepback = true.

Lemma all_ws_indent : all_ws (stepback ++ gap) = true.
Proof. now apply all_ws_app. Qed.

Lemma items_loop (more : list jsval) :
  forall (x : jsval) (acc : list jsval) (fuel : nat),
    Forall reads (x :: more) ->
    (fold_right (fun x n => S (size x + n)) 0 (x :: more) <= fuel)%nat ->
    parse_items fuel
      (pre gap stepback
         ++ members_text (pre gap stepback) (post gap stepback) "]" rest
              (map (ser gap (stepback ++ gap)) (x :: more))) acc
    = Some (JArr (acc ++ x :: more)%list, rest).
Proof.
  induction more as [| y more IH]; intros x acc fuel Hreads Hfuel;
    inversion Hreads as [| ? ? Hx Hmore]; subst;
    destruct fuel as [| fuel]; simpl in Hfuel; try lia;
    rewrite parse_items_S, parse_value_skip by (now apply all_ws_pre).
  - simpl members_text.
    rewrite (Hx gap (stepback ++ gap) _ fuel Hgap all_ws_indent)
      by (lia || exact (value_end_post gap stepback "]" rest eq_refl)).
    rewrite skip_ws_app by (now apply all_ws_post). reflexivity.
  - change (members_text (pre gap stepback) (post gap stepback) "]" rest
              (map (ser gap (stepback ++ gap)) (x :: y :: more)))
      with (ser gap (stepback ++ gap) x
              ++ String "," (pre gap stepback
                   ++ members_text (pre gap stepback) (post gap stepback) "]" rest
                        (map (ser gap (stepback ++ gap)) (y :: more)))).
    rewrite (Hx gap (stepback ++ gap) _ fuel Hgap all_ws_indent) by (lia || reflexivity).
    assert (Hnext := IH y (acc ++ [x])%list fuel Hmore ltac:(simpl; lia)).
    rewrite <- app_assoc in Hnext. exact Hnext.
Qed.

Lemma obj_set_new (k : string) (x : jsval) (acc : jsobject) :
  existsb (String.eqb k) (map fst acc) = false -> obj_set k x acc = (acc ++ [(k, x)])%list.
Proof.
  induction acc as [| [k' v'] acc IH]; simpl; [reflexivity |].
  intros H. apply orb_false_iff in H as [Hk H]. rewrite Hk. now rewrite IH.
Qed.

Lemma distinct_middle (k : string) (l1 l2 : list string) :
  distinct (l1 ++ k :: l2)%list = true -> existsb (String.eqb k) l1 = false.
Proof.
  induction l1 as [| a l1 IH]; simpl; [reflexivity |].
  intros H. apply andb_true_iff in H as [Ha H].
  rewrite (IH H), orb_false_r.
  apply negb_true_iff in Ha. rewrite existsb_app in Ha.
  apply orb_false_iff in Ha as [_ Ha]. simpl in Ha.
  apply orb_false_iff in Ha as [Ha _]. now rewrite String.eqb_sym.
Qed.

Lemma member_step (kv : string * jsval) (tail : string) (acc : jsobject) (fuel : nat) :
  reads (snd kv) -> (size (snd kv) <= fuel)%nat -> value_end tail = true ->
  parse_members (S fuel) (pre gap stepback ++ (member_text gap stepback) kv ++ tail) acc
  = match skip_ws tail with
    | String c3 rest4 =>
        if Ascii.eqb c3 ","
        then parse_members fuel rest4 (define (fst kv) (snd kv) acc)
        else if Ascii.eqb c3 "}"
        then Some (JObj (define (fst kv) (snd kv) acc), rest4)
        else None
    | EmptyString => None
    end.
Proof.
  intros Hx Hfuel Hend. destruct kv as [k x]. simpl fst in *. simpl snd in *.
  rewrite parse_members_S, skip_ws_app by (now apply all_ws_pre).
  unfold member_text. simpl fst. simpl snd.
  rewrite !append_assoc, QuoteJSONString_app.
  set (R := (ser gap (stepback ++ gap) x ++ tail)%string).
  assert (HR : parse_value fuel R = Some (x, tail))
    by exact (Hx gap (stepback ++ gap) tail fuel Hgap all_ws_indent Hfuel Hend).
  rewrite skip_ws_token by reflexivity. cbv beta iota.
  change (Ascii.eqb dquote dquote) with true. cbv beta iota.
  unfold colon. destruct (String.eqb gap "") eqn:E.
  - change (":" ++ R)%string with (String ":" R).
    rewrite parse_quote_body. cbv beta iota.
    rewrite skip_ws_token by reflexivity. cbv beta iota.
    change (Ascii.eqb ":" ":") with true. cbv beta iota.
    now rewrite HR.
  - change (": " ++ R)%string with (String ":" (" " ++ R)).
    rewrite parse_quote_body. cbv beta iota.
    rewrite skip_ws_token by reflexivity. cbv beta iota.
    change (Ascii.eqb ":" ":") with true. cbv beta iota.
    rewrite (parse_value_skip fuel " " R eq_refl).
    now rewrite HR.
Qed.

Lemma members_loop (more : jsobject) :
  forall (kv : string * jsval) (acc : jsobject) (fuel : nat),
    Forall (fun kv => reads (snd kv)) (kv :: more) ->
    (fold_right (fun kv n => S (match kv with (_, x) => size x end + n)) 0
       (kv :: more) <= fuel)%nat ->
    distinct (map fst (acc ++ kv :: more)%list) = true ->
    parse_members fuel
      (pre gap stepback
         ++ members_text (pre gap stepback) (post gap stepback) "}" rest
              (map (member_text gap stepback) (kv :: more))) acc
    = Some (JObj (acc ++ kv :: more)%list, rest).
Proof.
  induction more as [| kv' more IH]; intros kv acc fuel Hreads Hfuel Hdist;
    inversion Hreads as [| ? ? Hx Hmore]; subst;
    destruct fuel as [| fuel]; simpl in Hfuel; try (destruct kv; lia);
    assert (Hnew : define (fst kv) (snd kv) acc = (acc ++ [kv])%list)
      by (destruct kv as [k x]; apply obj_set_new;
          rewrite map_app in Hdist; exact (distinct_middle _ _ _ Hdist)).
  - change (members_text (pre gap stepback) (post gap stepback) "}" rest
              (map (member_text gap stepback) [kv]))
      with ((member_text gap stepback) kv ++ post gap stepback ++ "}" ++ rest).
    rewrite member_step;
      [| exact Hx | destruct kv; simpl in *; lia
       | exact (value_end_post gap stepback "}" rest eq_refl)].
    rewrite skip_ws_app by (now apply all_ws_post).
    rewrite <- Hnew. reflexivity.
  - change (members_text (pre gap stepback) (post gap stepback) "}" rest
              (map (member_text gap stepback) (kv :: kv' :: more)))
      with ((member_text gap stepback) kv
              ++ String "," (pre gap stepback
                   ++ members_text (pre gap stepback) (post gap stepback) "}" rest
                        (map (member_text gap stepback) (kv' :: more)))).
    rewrite member_step;
      [| exact Hx | destruct kv; simpl in *; lia | reflexivity].
    assert (Hnext : parse_members fuel
                      (pre gap stepback
                         ++ members_text (pre gap stepback) (post gap stepback) "}" rest
                              (map (member_text gap stepback) (kv' :: more)))
                      (define (fst kv) (snd kv) acc)
                    = Some (JObj (acc ++ kv :: kv' :: more)%list, rest)).
    { rewrite Hnew. rewrite (IH kv' (acc ++ [kv])%list fuel Hmore).
      - now rewrite <- app_assoc.
      - destruct kv, kv'. simpl in *. lia.
      - now rewrite <- app_assoc. }
    exact Hnext.
Qed.

End Loops.

Lemma distinct_NoDup (l : list string) : distinct l = true -> NoDup l.
Proof.
  induction l as [| k l IH]; simpl; [constructor |].
  intros H. apply andb_true_iff in H as [Hk Hl]. constructor; auto.
  intros Hin. apply negb_true_iff in Hk.
  assert (existsb (String.eqb k) l = true); [| congruence].
  apply existsb_exists. exists k. split; [assumption | apply String.eqb_refl].
Qed.

Lemma ser_object (gap stepback : string) (props : jsobject) :
  distinct (map fst props) = true ->
  ser gap stepback (JObj props)
  = wrap_members "{" "}" gap stepback (map (member_text gap stepback) props).
Proof.
  intros Hd. apply distinct_NoDup in Hd. cbn [SerializeJSON]. f_equal.
  assert (H : forall l,
             (forall kv, In kv l -> In kv props) ->
             flat_map
               (fun P =>
                  match obj_get P
                          (map (fun kv => match kv with
                                          | (k, x) => (k, ser gap (stepback ++ gap) x)
                                          end) props) with
                  | Some strP =>
                      [(QuoteJSONString P ++ (if String.eqb gap "" then ":" else ": ")
                          ++ strP)%string]
                  | None => []
                  end) (map fst l)
             = map (member_text gap stepback) l).
  { induction l as [| [k x] l IH]; intros Hin; [reflexivity |].
    cbn [map fst flat_map].
    rewrite obj_get_map.
    rewrite (proj2 (obj_get_Some_iff k x props Hd)) by (apply Hin; now left).
    rewrite IH by (intros; apply Hin; now right). reflexivity. }
  exact (H props (fun kv Hin => Hin)).
Qed.

Lemma json_distinct_items (items : list jsval) :
  json_distinct (JArr items) = true -> Forall (fun x => json_distinct x = true) items.
Proof. simpl. intros H. apply Forall_forall. now apply forallb_forall. Qed.

Lemma json_distinct_props (props : jsobject) :
  json_distinct (JObj props) = true ->
  distinct (map fst props) = true
  /\ Forall (fun kv => json_distinct (snd kv) = true) props.
Proof.
  simpl. intros H. apply andb_true_iff in H as [Hd H]. split; [assumption |].
  apply Forall_forall. intros [k x] Hin.
  rewrite forallb_forall in H. exact (H _ Hin).
Qed.

(** Every value with distinct keys is read back from its text. *)
Theorem reads_all (v : jsval) : json_distinct v = true -> reads v.
Proof.
  induction v as [| b | n | s | items IH | props IH] using jsval_induction; intros Hd.
  - apply reads_null.
  - apply reads_bool.
  - apply reads_num.
  - apply reads_str.
  - assert (Hreads : Forall reads items).
    { apply json_distinct_items in Hd. rewrite Forall_forall in *. auto. }
    clear IH Hd. intros gap stepback rest fuel Hgap Hsb Hfuel Hend.
    destruct fuel as [| fuel]; [simpl in Hfuel; lia |].
    destruct items as [| x more].
    + reflexivity.
    + cbn [SerializeJSON map].
      rewrite wrap_members_text.
      pose proof (items_loop gap stepback rest Hgap Hsb more x [] fuel Hreads) as Hloop.
      simpl in Hfuel. specialize (Hloop ltac:(simpl; lia)).
      rewrite parse_value_S.
      destruct (members_text_head (pre gap stepback) (post gap stepback) "]" rest
                  (ser gap (stepback ++ gap) x) (map (ser gap (stepback ++ gap)) more))
        as [tail Htail].
      pose proof (ser_start x gap (stepback ++ gap) tail) as Hstart.
      change (map (ser gap (stepback ++ gap)) (x :: more))
        with (ser gap (stepback ++ gap) x :: map (ser gap (stepback ++ gap)) more)
        in *.
      rewrite Htail in *.
      change ("[" ++ pre gap stepback ++ ser gap (stepback ++ gap) x ++ tail)
        with (String "[" (pre gap stepback ++ ser gap (stepback ++ gap) x ++ tail)).
      rewrite skip_ws_token by reflexivity. cbv beta iota.
      change (Ascii.eqb "[" "n") with false. change (Ascii.eqb "[" "t") with false.
      change (Ascii.eqb "[" "f") with false. change (Ascii.eqb "[" dquote) with false.
      change (Ascii.eqb "[" "[") with true. cbv beta iota.
      rewrite skip_ws_app by (now apply all_ws_pre).
      rewrite (value_start_not_ws _ Hstart).
      destruct (ser gap (stepback ++ gap) x ++ tail) as [| c s] eqn:E;
        [discriminate |].
      simpl in Hstart. unfold value_start in Hstart.
      apply andb_true_iff in Hstart as [Hstart _].
      apply andb_true_iff in Hstart as [Hstart _].
      apply andb_true_iff in Hstart as [_ Hstart].
      apply negb_true_iff in Hstart. rewrite Hstart. exact Hloop.
  - apply json_distinct_props in Hd as [Hkeys Hd].
    assert (Hreads : Forall (fun kv => reads (snd kv)) props).
    { rewrite Forall_forall in *. auto. }
    clear IH Hd. intros gap stepback rest fuel Hgap Hsb Hfuel Hend.
    destruct fuel as [| fuel]; [simpl in Hfuel; lia |].
    rewrite ser_object by assumption.
    destruct props as [| kv more].
    + reflexivity.
    + change (map (member_text gap stepback) (kv :: more))
        with (member_text gap stepback kv :: map (member_text gap stepback) more).
      rewrite wrap_members_text.
      pose proof (members_loop gap stepback rest Hgap Hsb more kv [] fuel Hreads)
        as Hloop.
      simpl in Hfuel. specialize (Hloop ltac:(destruct kv; simpl; lia) Hkeys).
      rewrite parse_value_S.
      destruct (members_text_head (pre gap stepback) (post gap stepback) "}" rest
                  (member_text gap stepback kv) (map (member_text gap stepback) more))
        as [tail Htail].
      change (map (member_text gap stepback) (kv :: more))
        with (member_text gap stepback kv :: map (member_text gap stepback) more)
        in *.
      rewrite Htail in *.
      change ("{" ++ pre gap stepback ++ member_text gap stepback kv ++ tail)
        with (String "{" (pre gap stepback ++ member_text gap stepback kv ++ tail)).
      rewrite skip_ws_token by reflexivity. cbv beta iota.
      change (Ascii.eqb "{" "n") with false. change (Ascii.eqb "{" "t") with false.
      change (Ascii.eqb "{" "f") with false. change (Ascii.eqb "{" dquote) with false.
      change (Ascii.eqb "{" "[") with false. change (Ascii.eqb "{" "{") with true.
      cbv beta iota.
      rewrite skip_ws_app by (now apply all_ws_pre).
      unfold member_text at 1. rewrite append_assoc, QuoteJSONString_app.
      rewrite skip_ws_token by reflexivity. cbv beta iota.
      change (Ascii.eqb dquote "}") with false. cbv beta iota.
      exact Hloop.
Qed.

(** *** Fuel *)

Lemma members_text_length (pre post close rest p : string) (ps : list string) :
  (1 <= String.length close)%nat ->
  (total (p :: ps) <= String.length (members_text pre post close rest (p :: ps)))%nat.
Proof.
  intros Hc. revert p. induction ps as [| q ps IH]; intros p.
  - cbn [members_text total fold_right]. rewrite !length_append. lia.
  - change (members_text pre post close rest (p :: q :: ps))
      with (p ++ String "," (pre ++ members_text pre post close rest (q :: ps))).
    rewrite length_append. cbn [String.length]. rewrite length_append.
    specialize (IH q).
    change (total (p :: q :: ps)) with (S (String.length p + total (q :: ps))). lia.
Qed.

Lemma wrap_members_length (open close gap stepback : string) (parts : list string) :
  (1 <= String.length open)%nat -> (1 <= String.length close)%nat ->
  (S (total parts) <= String.length (wrap_members open close gap stepback parts))%nat.
Proof.
  intros Ho Hc. destruct parts as [| p ps].
  - simpl. rewrite length_append. lia.
  - rewrite <- (append_nil_r (wrap_members open close gap stepback (p :: ps))).
    rewrite wrap_members_text, !length_append.
    pose proof (members_text_length (pre gap stepback) (post gap stepback) close ""
                  p ps Hc). lia.
Qed.

Lemma size_le_length (v : jsval) :
  json_distinct v = true ->
  forall gap stepback, (size v <= String.length (ser gap stepback v))%nat.
Proof.
  induction v as [| b | n | s | items IH | props IH] using jsval_induction;
    intros Hd gap stepback.
  - simpl. lia.
  - destruct b; simpl; lia.
  - simpl. pose proof (Z_to_string_start n).
    destruct (Z_to_string n); [discriminate | simpl; lia].
  - simpl. lia.
  - apply json_distinct_items in Hd.
    cbn [SerializeJSON size].
    pose proof (wrap_members_length "[" "]" gap stepback
                  (map (ser gap (stepback ++ gap)) items)) as Hw.
    specialize (Hw ltac:(simpl; lia) ltac:(simpl; lia)).
    assert (Hsum : (fold_right (fun x n => S (size x + n)) 0 items
                    <= total (map (ser gap (stepback ++ gap)) items))%nat).
    { clear Hw. induction items as [| x items IHi]; simpl; [lia |].
      inversion IH; inversion Hd; subst.
      specialize (IHi ltac:(assumption) ltac:(assumption)).
      assert (size x <= String.length (ser gap (stepback ++ gap) x))%nat by auto.
      lia. }
    lia.
  - apply json_distinct_props in Hd as [Hkeys Hd].
    rewrite ser_object by assumption. cbn [size].
    pose proof (wrap_members_length "{" "}" gap stepback
                  (map (member_text gap stepback) props)) as Hw.
    specialize (Hw ltac:(simpl; lia) ltac:(simpl; lia)).
    assert (Hsum : (fold_right (fun kv n => S (match kv with (_, x) => size x end + n))
                      0 props
                    <= total (map (member_text gap stepback) props))%nat).
    { clear Hw Hkeys. induction props as [| [k x] props IHp]; simpl; [lia |].
      inversion IH; inversion Hd; subst.
      specialize (IHp ltac:(assumption) ltac:(assumption)).
      assert (size x <= String.length (ser gap (stepback ++ gap) x))%nat by auto.
      set (T := total (map (member_text gap stepback) props)) in *.
      unfold member_text. simpl fst. simpl snd. rewrite !length_append. lia. }
    lia.
Qed.

Lemma json_wf_distinct (v : jsval) : json_wf v = true -> json_distinct v = true.
Proof.
  induction v as [| b | n | s | items IH | props IH] using jsval_induction;
    try reflexivity; simpl; intros H.
  - apply forallb_forall. intros x Hin.
    rewrite forallb_forall in H. rewrite Forall_forall in IH. auto.
  - apply andb_true_iff in H as [Hk H]. unfold keys_ok in Hk.
    apply andb_true_iff in Hk as [Hk _]. rewrite Hk. simpl.
    apply forallb_forall. intros [k x] Hin.
    rewrite forallb_forall in H. rewrite Forall_forall in IH.
    apply (IH (k, x) Hin). exact (H _ Hin).
Qed.

(** The reference parser reads back the text of a value, for every
    indentation. *)
Theorem parse_SerializeJSON (v : jsval) (gap : string) :
  json_wf v = true -> all_ws gap = true ->
  RefJSON.parse (ser gap "" v) = Some v.
Proof.
  intros Hwf Hgap. pose proof (json_wf_distinct v Hwf) as Hd.
  unfold RefJSON.parse.
  rewrite <- (append_nil_r (ser gap "" v)) at 2.
  rewrite (reads_all v Hd gap "" "" _ Hgap eq_refl).
  - simpl. now rewrite Hwf.
  - pose proof (size_le_length v Hd gap ""). lia.
  - reflexivity.
Qed.

End RefJSONFacts.

#[export] Instance RefJSONParser_laws : JSONParserLaws RefJSONParser.
Proof.
  split.
  - intros v Hwf. apply (RefJSONFacts.parse_SerializeJSON v "  " Hwf eq_refl).
  - intros raw v. simpl. unfold RefJSON.parse.
    destruct (RefJSON.parse_value _ raw) as [[v' rest] |]; [| discriminate].
    destruct (RefJSON.skip_ws rest); [| discriminate].
    destruct (json_wf v') eqn:E; [| discriminate].
    now intros [= <-].
  - reflexivity.
Qed.

(** ** The canonical text determines the fields *)






Lemma N_of_ascii_of_N (n : N) : (n < 256)%N -> N_of_ascii (ascii_of_N n) = n.
Proof. apply N_ascii_embedding. Qed.

Lemma cons_eq {A} (x y : A) (l l' : list A) : x :: l = y :: l' -> x = y /\ l = l'.
Proof. now intros [= -> ->]. Qed.

Lemma TextEncoder_encode_injective (s s' : string) :
  TextEncoder_encode s = TextEncoder_encode s' -> s = s'.
Proof.
  revert s'. induction s as [| c s IH]; intros [| c' s']; cbn [TextEncoder_encode].
  - reflexivity.
  - destruct (N_of_ascii c' <? 128)%N; discriminate.
  - destruct (N_of_ascii c <? 128)%N; discriminate.
  - pose proof (N_ascii_bounded c) as Hc. pose proof (N_ascii_bounded c') as Hc'.
    destruct (N_of_ascii c <? 128)%N eqn:E, (N_of_ascii c' <? 128)%N eqn:E';
      intros H; apply cons_eq in H as [H1 H2].
    + subst c'. f_equal. auto.
    + exfalso. apply N.ltb_lt in E. subst c. clear Hc H2.
      rewrite N_of_ascii_of_N in E; clear IH; sextet_arith.
    + exfalso. apply N.ltb_lt in E'. subst c'. clear Hc' H2.
      rewrite N_of_ascii_of_N in E'; clear IH; sextet_arith.
    + apply cons_eq in H2 as [H2 H3].
      apply (f_equal N_of_ascii) in H1, H2.
      rewrite !N_of_ascii_of_N in H1, H2 by (clear; sextet_arith).
      assert (Hn : N_of_ascii c = N_of_ascii c').
      { clear - H1 H2. revert H1 H2.
        generalize (N_of_ascii c), (N_of_ascii c'). intros n m H1 H2.
        zify. Z.to_euclidean_division_equations. lia. }
      f_equal; [| auto].
      rewrite <- (ascii_N_embedding c), <- (ascii_N_embedding c'). now rewrite Hn.
Qed.



(** ** Signing and verification *)

Section Verification.

Variable config : Config.
Context {ED : Ed25519} {EL : Ed25519Laws ED} {NB : NodeBuffer}.









End Verification.




(** ** The stand-in signature library obeys the laws *)

Lemma MockEd_digest_length (message : Uint8Array) :
  List.length (MockEd.digest message) = 32%nat.
Proof.
  unfold MockEd.digest.
  destruct (Nat.ltb_spec (List.length message) 32); cbn [List.length].
  - rewrite length_app, repeat_length. lia.
  - now rewrite length_map, length_seq.
Qed.

Lemma MockEd_sign_length (message key : Uint8Array) :
  List.length (MockEd.sign message key) = (List.length key + 32)%nat.
Proof. unfold MockEd.sign. now rewrite length_app, MockEd_digest_length. Qed.





#[export] Instance MockEd25519_laws : Ed25519Laws MockEd25519.
Proof.
  split.
  - intros message key sig. simpl. unfold MockEd.signAsync.
    destruct (List.length key =? 32)%nat eqn:E; [| discriminate].
    intros [= <-]. rewrite MockEd_sign_length. apply Nat.eqb_eq in E. lia.
  - intros sig message key. simpl. unfold MockEd.verifyAsync.
    destruct (List.length sig =? 64)%nat eqn:E; [| discriminate].
    intros _. now apply Nat.eqb_eq in E.
Qed.

Lemma test_config_keypair : keypair_matches test_config.
Proof.
  intros message. eexists. split; [reflexivity |].
  simpl. unfold MockEd.verifyAsync.
  rewrite MockEd_sign_length.
  change (List.length (hexToBytes (licensePrivateKey test_config))) with 32%nat.
  change (List.length (hexToBytes (licensePublicKey test_config))) with 32%nat.
  simpl. unfold MockEd.ascii_list_eqb. now rewrite String.eqb_refl.
Qed.

(** ** The properties at concrete inputs *)

Lemma subscribed_db :
  db subscribed = Some {| customers := [paddle_customer]; licenses := [paddle_license] |}.
Proof. vm_compute. reflexivity. Qed.

(** The licenses table has no column for the payment provider or the
    transaction id: no row read back from it has the property. *)
Lemma license_row_has_no_provider (l : LicenseRow) :
  obj_get "payment_provider" (license_getAsObject l) = None
  /\ obj_get "external_transaction_id" (license_getAsObject l) = None.
Proof. split; reflexivity. Qed.

(** C1, at the event of the test suite: the checkout succeeds and returns
    the new customer and license ids, and the license row it stored, read
    back as the test does, has [payment_provider] and
    [external_transaction_id] undefined, although the event carried
    ["paddle"] and ["txn_paddle"]. *)
Theorem checkout_drops_provider :
  fst (processPaymentEvent test_config paddle_checkout started)
  = Ok {| success := true; customerId := Some "uuid-0"; licenseId := Some "uuid-1";
          error := None |}
  /\ fst (findLicenseByCustomer "uuid-0" subscribed) = Ok (Some paddle_license)
  /\ obj_get "payment_provider" (license_getAsObject paddle_license) = None
  /\ obj_get "external_transaction_id" (license_getAsObject paddle_license) = None
  /\ provider_string (provider paddle_checkout) = "paddle"
  /\ externalTransactionId paddle_checkout = "txn_paddle".
Proof. vm_compute. repeat split. Qed.

(** Without a database handle, the error thrown by [getDb] comes back as a
    failure result. *)
Example checkout_without_database :
  fst (processPaymentEvent test_config paddle_checkout boot)
  = Ok {| success := false; customerId := None; licenseId := None;
          error := Some "Error: Database not initialized. Call initDb() first." |}.
Proof. vm_compute. reflexivity. Qed.


(** The signature text of the sample license, whole and with its last
    character cut off. *)
Example sample_signature_cut :
  sample_signature
  = "AAECAwQFBgcICQoLDA0ODxAREhMUFRYXGBkaGxwdHh//5HI5nE6n02k0Go3GY7HY7HY7nc7n8/l8vl8vFwsFAg=="
  /\ verifyLicense test_config (JObj sample_signed) = Ok true
  /\ verifyLicense test_config
       (JObj (obj_set "signature" (JStr (String.substring 0 87 sample_signature))
                sample_signed))
     = Ok true.
Proof. vm_compute. repeat split. Qed.




Lemma canonicalization_is_order_independent_witness :
  canonicalize sample_payload = canonicalize sample_payload_permuted
  /\ canonicalize sample_payload = canonical_form sample_payload.
Proof.
  assert (Hnd : NoDup (Object_keys sample_payload)).
  { repeat constructor; simpl; intuition discriminate. }
  assert (Hflat : flat sample_payload) by (repeat constructor).
  assert (Hperm : Permutation sample_payload sample_payload_permuted).
  { change sample_payload_permuted with (rev sample_payload). apply Permutation_rev. }
  pose proof (canonicalization_is_order_independent test_config
                sample_payload sample_payload_permuted Hnd Hflat Hperm)
    as (H1 & _ & H3 & _).
  exact (conj H1 H3).
Defined.

Lemma payment_failed_changes_nothing_witness :
  fst (processPaymentEvent test_config (paddle_event payment_failed) subscribed)
  = Ok {| success := true; customerId := None; licenseId := None; error := None |}
  /\ fst (isRevoked "uuid-0"
            (snd (processPaymentEvent test_config (paddle_event payment_failed)
                    subscribed)))
     = Ok false
  /\ fst (findLicenseByCustomer "uuid-0"
            (snd (processPaymentEvent test_config (paddle_event payment_failed)
                    subscribed)))
     = Ok (Some paddle_license).
Proof.
  destruct (payment_failed_changes_nothing test_config (paddle_event payment_failed)
              subscribed eq_refl) as (Hrun & Hrev & Hlic).
  rewrite Hrun, Hrev, Hlic. repeat split.
Defined.








Lemma unreadable_registry_reads_empty_witness :
  fst (isRevoked "uuid-0" corrupted) = Ok false
  /\ fst (getRevocationInfo "uuid-0" corrupted) = Ok None
  /\ fst (listRevocations corrupted) = Ok (Some (JArr []))
  /\ fst (getRevocationCount corrupted) = Ok (Some (JNum 0)).
Proof.
  apply unreadable_registry_reads_empty.
  right. exists "{ entries: [". split; reflexivity.
Defined.

Lemma isWithinOfflineTTL_spec_witness :
  fst (isWithinOfflineTTL issued_license (ValidDate 1767225600000)
         (world_at (1767225600000 + 30 * msPerDay - 1))) = Ok true
  /\ fst (isWithinOfflineTTL issued_license (ValidDate 1767225600000)
            (world_at (1767225600000 + 30 * msPerDay + 1))) = Ok false.
Proof.
  assert (Hrange : Z.abs (1767225600000 + offline_ttl_days issued_license * msPerDay)
                   <= maxTimeValue)
    by (vm_compute; discriminate).
  split.
  - destruct (isWithinOfflineTTL_spec issued_license 1767225600000
                (world_at (1767225600000 + 30 * msPerDay - 1))) as [H _].
    destruct (H Hrange) as (_ & Hbefore & _). now apply Hbefore.
  - destruct (isWithinOfflineTTL_spec issued_license 1767225600000
                (world_at (1767225600000 + 30 * msPerDay + 1))) as [H _].
    destruct (H Hrange) as (_ & _ & Hafter). now apply Hafter.
Defined.

Lemma repeated_cancellation_witness :
  let w' := snd (run_events test_config
                   [paddle_event subscription_cancelled;
                    paddle_event subscription_cancelled] subscribed) in
  fst (isRevoked "uuid-0" w') = Ok true
  /\ count_subject "uuid-0" (registry_entries w') = 1%nat.
Proof.
  pose proof (repeated_cancellation test_config
                (paddle_event subscription_cancelled)
                [paddle_event subscription_cancelled] "paddle@example.com"
                subscribed
                {| customers := [paddle_customer]; licenses := [paddle_license] |}
                paddle_customer) as H.
  assert (Hall : Forall (fun e => eventType e = subscription_cancelled
                                  /\ email e = "paddle@example.com")
                   [paddle_event subscription_cancelled;
                    paddle_event subscription_cancelled])
    by (repeat constructor).
  assert (Hok : registry_ok subscribed) by exact I.
  assert (Hcount : (count_subject (cust_id paddle_customer)
                      (registry_entries subscribed) <= 1)%nat)
    by (vm_compute; repeat constructor).
  destruct (H Hall subscribed_db eq_refl Hok Hcount) as (_ & Hrev & Hone & _).
  exact (conj Hrev Hone).
Defined.

(** C9 as stated fails: a write stopped before its first code unit leaves
    an empty registry file, which is neither the old file nor the new one. *)
Lemma stopped_write_truncates : ~ atomic_replace.
Proof.
  intros H. specialize (H two_entries revoked_world 0%nat (Nat.le_0_l _)).
  vm_compute in H. destruct H as [H | H]; discriminate H.
Qed.

(** The customer was revoked before the write and is revoked in the store
    being written; in the file the stopped write leaves, nobody is. *)
Example stopped_write_loses_revocations :
  fst (isRevoked "uuid-0" revoked_world) = Ok true
  /\ fst (isRevoked "uuid-0" (snd (saveRevocationStore two_entries revoked_world)))
     = Ok true
  /\ fst (isRevoked "uuid-0"
            (snd (saveRevocationStore_stopped 0 two_entries revoked_world)))
     = Ok false.
Proof. vm_compute. repeat split. Qed.

Lemma saveRevocationStore_writes_in_place_witness :
  revoked_file (snd (saveRevocationStore_stopped 1 two_entries revoked_world))
  = Some "{"
  /\ fst (isRevoked "uuid-0"
            (snd (saveRevocationStore_stopped 0 two_entries revoked_world)))
     = Ok false.
Proof.
  destruct (saveRevocationStore_writes_in_place two_entries revoked_world)
    as (Hprefix & _ & Hempty).
  split.
  - rewrite Hprefix. reflexivity.
  - apply Hempty.
Defined.

(* ================================================================== *)
(** * Further properties: registry, store, credentials, issuing, routes *)
(* ================================================================== *)

(** ** The registry: reading, adding and removing *)

Lemma Array_filter_out_not_null (licenseId : string) (entries : list jsval) :
  forallb not_null entries = true ->
  Array_filter_out licenseId entries
  = Ok (filter (fun e => negb (matchesb licenseId e)) entries).
Proof.
  induction entries as [| e rest IH]; simpl; [reflexivity |].
  intros H. apply andb_true_iff in H as [He Hrest].
  rewrite entry_matches_not_null by assumption. simpl.
  rewrite IH by assumption. simpl.
  destruct (matchesb licenseId e); reflexivity.
Qed.

Lemma filter_out_length (subject : string) (entries : list jsval) :
  (List.length (filter (fun e => negb (matchesb subject e)) entries)
   <? List.length entries)%nat
  = existsb (matchesb subject) entries.
Proof.
  assert (Hle : forall l, (List.length (filter (fun e => negb (matchesb subject e)) l)
                           <= List.length l)%nat).
  { induction l as [| e l IH]; simpl; [lia |].
    destruct (matchesb subject e); simpl; lia. }
  induction entries as [| e rest IH]; simpl; [reflexivity |].
  destruct (matchesb subject e) eqn:E; simpl.
  - apply Nat.ltb_lt. specialize (Hle rest). lia.
  - rewrite <- IH.
    set (n := List.length (filter (fun e => negb (matchesb subject e)) rest)).
    destruct (Nat.ltb_spec n (List.length rest)).
    + apply Nat.ltb_lt. lia.
    + apply Nat.ltb_ge. lia.
Qed.

Lemma filter_out_none (subject : string) (entries : list jsval) :
  existsb (matchesb subject) entries = false ->
  filter (fun e => negb (matchesb subject e)) entries = entries.
Proof.
  induction entries as [| e rest IH]; simpl; [reflexivity |].
  intros H. apply orb_false_iff in H as [-> H]. simpl. now rewrite IH.
Qed.

Lemma filter_out_gone (subject : string) (entries : list jsval) :
  existsb (matchesb subject) (filter (fun e => negb (matchesb subject e)) entries)
  = false.
Proof.
  induction entries as [| e rest IH]; simpl; [reflexivity |].
  destruct (matchesb subject e) eqn:E; simpl; [assumption |]. now rewrite E.
Qed.

Lemma find_app_new (subject : string) (entries : list jsval) (e : jsval) :
  existsb (matchesb subject) entries = false ->
  find (matchesb subject) (entries ++ [e])
  = if matchesb subject e then Some e else None.
Proof.
  induction entries as [| x rest IH]; simpl; [reflexivity |].
  intros H. apply orb_false_iff in H as [-> H]. auto.
Qed.

Lemma find_app_other (subject : string) (entries : list jsval) (e : jsval) :
  matchesb subject e = false ->
  find (matchesb subject) (entries ++ [e]) = find (matchesb subject) entries.
Proof.
  intros He. induction entries as [| x rest IH]; simpl; [now rewrite He |].
  destruct (matchesb subject x); [reflexivity | exact IH].
Qed.

(** An entry is an entry of at most one subject. *)
Lemma matchesb_same (a b : string) (e : jsval) :
  matchesb a e = true -> matchesb b e = true -> a = b.
Proof.
  destruct e; simpl; try discriminate.
  destruct (obj_get "license_id" props) as [[| | | s | |] |]; try discriminate.
  intros Ha Hb. apply String.eqb_eq in Ha, Hb. congruence.
Qed.

Lemma existsb_filter_other (licenseId other : string) (entries : list jsval) :
  other <> licenseId ->
  existsb (matchesb other) (filter (fun e => negb (matchesb licenseId e)) entries)
  = existsb (matchesb other) entries.
Proof.
  intros Hne. induction entries as [| x rest IH]; simpl; [reflexivity |].
  destruct (matchesb licenseId x) eqn:E; simpl; [| now rewrite IH].
  destruct (matchesb other x) eqn:E'; [| exact IH].
  elim Hne. eapply matchesb_same; eauto.
Qed.

Lemma find_filter_other (licenseId other : string) (entries : list jsval) :
  other <> licenseId ->
  find (matchesb other) (filter (fun e => negb (matchesb licenseId e)) entries)
  = find (matchesb other) entries.
Proof.
  intros Hne. induction entries as [| x rest IH]; simpl; [reflexivity |].
  destruct (matchesb licenseId x) eqn:E; simpl; [| now rewrite IH].
  destruct (matchesb other x) eqn:E'; [| exact IH].
  elim Hne. eapply matchesb_same; eauto.
Qed.

Lemma find_matches (subject : string) (entries : list jsval) (e : jsval) :
  find (matchesb subject) entries = Some e -> matchesb subject e = true.
Proof. intros H. now apply find_some in H. Qed.

Lemma existsb_find (subject : string) (entries : list jsval) :
  existsb (matchesb subject) entries = true ->
  exists e, find (matchesb subject) entries = Some e.
Proof.
  induction entries as [| x rest IH]; simpl; [discriminate |].
  destruct (matchesb subject x); simpl; eauto.
Qed.

Section RegistryReads.

Context {JP : JSONParser} {JL : JSONParserLaws JP}.

Lemma getRevocationInfo_spec (subject : string) (w : World) :
  registry_ok w ->
  fst (getRevocationInfo subject w) = Ok (find (matchesb subject) (registry_entries w)).
Proof.
  intros Hok.
  destruct (load_ok w Hok) as (props & w1 & Hload & Hget & Hnn & _).
  unfold getRevocationInfo, bind. rewrite Hload.
  unfold lift, entries_array, store_entries, exc_bind. rewrite Hget.
  simpl. now apply Array_find_not_null.
Qed.

Lemma listRevocations_spec (w : World) :
  registry_ok w ->
  fst (listRevocations w) = Ok (Some (JArr (registry_entries w))).
Proof.
  intros Hok.
  destruct (load_ok w Hok) as (props & w1 & Hload & Hget & _).
  unfold listRevocations, bind. rewrite Hload.
  unfold lift, store_entries. now rewrite Hget.
Qed.

Lemma getRevocationCount_spec (w : World) :
  registry_ok w ->
  fst (getRevocationCount w)
  = Ok (Some (JNum (Z.of_nat (List.length (registry_entries w))))).
Proof.
  intros Hok.
  destruct (load_ok w Hok) as (props & w1 & Hload & Hget & _).
  unfold getRevocationCount, bind. rewrite Hload.
  unfold lift, store_entries, exc_bind. now rewrite Hget.
Qed.

(** [addRevocation] on a subject that has an entry writes nothing. *)
Lemma addRevocation_known (licenseId reason : string) (w : World) :
  registry_ok w ->
  existsb (matchesb licenseId) (registry_entries w) = true ->
  fst (addRevocation licenseId reason w) = Ok tt
  /\ revoked_file (snd (addRevocation licenseId reason w)) = revoked_file w.
Proof.
  intros Hok Hdup.
  destruct (load_ok w Hok) as (props & w1 & Hload & Hget & Hnn & _ & Hf1 & _).
  unfold addRevocation, bind. rewrite Hload.
  unfold lift, entries_array, store_entries, exc_bind. rewrite Hget.
  rewrite (Array_some_not_null _ _ Hnn), Hdup. split; [reflexivity | exact Hf1].
Qed.

(** [addRevocation] on a subject without entry appends one, stamped with
    the time read after the registry was loaded. *)
Lemma addRevocation_new (licenseId reason : string) (w : World) :
  registry_ok w ->
  existsb (matchesb licenseId) (registry_entries w) = false ->
  fst (addRevocation licenseId reason w) = Ok tt
  /\ registry_ok (snd (addRevocation licenseId reason w))
  /\ registry_entries (snd (addRevocation licenseId reason w))
     = registry_entries w
       ++ [revocation_entry licenseId (ISO_at (snd (loadRevocationStore w))) reason].
Proof.
  intros Hok Hnew.
  destruct (load_ok w Hok) as (props & w1 & Hload & Hget & Hnn & Hwf & _).
  unfold addRevocation, bind. rewrite Hload.
  unfold lift, entries_array, store_entries, exc_bind. rewrite Hget.
  rewrite (Array_some_not_null _ _ Hnn), Hnew.
  rewrite now_ISO_run. simpl snd.
  fold (revocation_entry licenseId (ISO_at w1) reason).
  pose proof (registry_after_save props
                (registry_entries w ++ [revocation_entry licenseId (ISO_at w1) reason])
                (tick w1) Hwf) as Hsave.
  assert (Hwfi : json_wf (JArr (registry_entries w
                    ++ [revocation_entry licenseId (ISO_at w1) reason])) = true).
  { apply json_wf_snoc; [| reflexivity]. eapply json_wf_get; eauto. }
  assert (Hnn' : forallb not_null (registry_entries w
                    ++ [revocation_entry licenseId (ISO_at w1) reason]) = true).
  { rewrite forallb_app, Hnn. reflexivity. }
  specialize (Hsave Hwfi Hnn'). rewrite Hget in Hsave.
  specialize (Hsave ltac:(discriminate)). simpl in Hsave.
  destruct Hsave as [Hok' Hent'].
  simpl store_set in *.
  rewrite saveRevocationStore_run in *. simpl snd in *. simpl fst.
  split; [reflexivity |]. split; assumption.
Qed.

Lemma removeRevocation_run (licenseId : string) (w : World) :
  registry_ok w ->
  let w' := snd (removeRevocation licenseId w) in
  fst (removeRevocation licenseId w)
  = Ok (existsb (matchesb licenseId) (registry_entries w))
  /\ registry_ok w'
  /\ registry_entries w'
     = filter (fun e => negb (matchesb licenseId e)) (registry_entries w)
  /\ (existsb (matchesb licenseId) (registry_entries w) = false ->
      revoked_file w' = revoked_file w).
Proof.
  intros Hok.
  destruct (load_ok w Hok) as (props & w1 & Hload & Hget & Hnn & Hwf & Hf1 & _).
  unfold removeRevocation, bind. rewrite Hload.
  unfold lift, entries_array, store_entries, exc_bind. rewrite Hget.
  rewrite (Array_filter_out_not_null _ _ Hnn), filter_out_length.
  destruct (existsb (matchesb licenseId) (registry_entries w)) eqn:Hin.
  - set (kept := filter (fun e => negb (matchesb licenseId e)) (registry_entries w)).
    pose proof (registry_after_save props kept w1 Hwf) as Hsave.
    assert (Hall : json_wf (JArr (registry_entries w)) = true)
      by (eapply json_wf_get; eauto).
    assert (Hwfk : json_wf (JArr kept) = true).
    { simpl in *. rewrite forallb_forall in *. intros x Hx.
      apply Hall. unfold kept in Hx. now apply filter_In in Hx. }
    assert (Hnnk : forallb not_null kept = true).
    { rewrite forallb_forall in *. intros x Hx.
      apply Hnn. unfold kept in Hx. now apply filter_In in Hx. }
    specialize (Hsave Hwfk Hnnk). rewrite Hget in Hsave.
    specialize (Hsave ltac:(discriminate)). simpl in Hsave.
    destruct Hsave as [Hok' Hent'].
    simpl store_set in *. rewrite saveRevocationStore_run in *. simpl in *.
    repeat split; try assumption. discriminate.
  - simpl. rewrite filter_out_none by assumption.
    repeat split.
    + eapply registry_ok_file; eauto.
    + now apply registry_entries_file.
    + intros _. exact Hf1.
Qed.

End RegistryReads.

Section RegistryOperations.

Context {JP : JSONParser} {JL : JSONParserLaws JP}.

(** X1.  After [addRevocation(id, reason)] on a registry in good shape,
    [isRevoked(id)] is true and [getRevocationInfo(id)] returns an entry
    whose [license_id] is [id]; when the subject had no entry before, it is
    the new entry: the given reason, stamped with the time read after the
    registry was loaded. *)
Theorem addRevocation_then_revoked (licenseId reason : string) (w : World) :
  registry_ok w ->
  let w' := snd (addRevocation licenseId reason w) in
  fst (addRevocation licenseId reason w) = Ok tt
  /\ fst (isRevoked licenseId w') = Ok true
  /\ exists props,
       fst (getRevocationInfo licenseId w') = Ok (Some (JObj props))
       /\ obj_get "license_id" props = Some (JStr licenseId)
       /\ (fst (isRevoked licenseId w) = Ok false ->
           JObj props
           = revocation_entry licenseId (ISO_at (snd (loadRevocationStore w))) reason).
Proof.
  intros Hok w'.
  destruct (existsb (matchesb licenseId) (registry_entries w)) eqn:Hin.
  - destruct (addRevocation_known licenseId reason w Hok Hin) as [Hrun Hfile].
    assert (Hok' : registry_ok w') by (eapply registry_ok_file; eauto).
    assert (Hent : registry_entries w' = registry_entries w)
      by (now apply registry_entries_file).
    split; [exact Hrun |].
    rewrite (isRevoked_spec _ _ Hok'), (getRevocationInfo_spec _ _ Hok'), Hent, Hin.
    split; [reflexivity |].
    destruct (existsb_find _ _ Hin) as [e He]. rewrite He.
    pose proof (find_matches _ _ _ He) as Hm.
    destruct e as [| | | | | props]; try discriminate Hm.
    exists props. split; [reflexivity |]. split.
    + simpl in Hm. destruct (obj_get "license_id" props) as [[| | | s | |] |];
        try discriminate Hm.
      apply String.eqb_eq in Hm. now subst.
    + rewrite (isRevoked_spec _ _ Hok), Hin. discriminate.
  - destruct (addRevocation_new licenseId reason w Hok Hin) as (Hrun & Hok' & Hent).
    split; [exact Hrun |]. fold w' in Hok', Hent.
    rewrite (isRevoked_spec _ _ Hok'), (getRevocationInfo_spec _ _ Hok'), Hent.
    rewrite existsb_app, (find_app_new _ _ _ Hin), matchesb_revocation_entry.
    simpl. rewrite String.eqb_refl, orb_true_r.
    split; [reflexivity |].
    eexists. split; [reflexivity |]. split; [reflexivity |]. reflexivity.
Qed.

(** X2.  Revoking a subject that is revoked already writes nothing: the
    registry file is the file before, and the subject keeps its first
    entry, with the reason and the date of the first revocation. *)
Theorem addRevocation_again (licenseId reason : string) (w : World) :
  registry_ok w ->
  fst (isRevoked licenseId w) = Ok true ->
  let w' := snd (addRevocation licenseId reason w) in
  fst (addRevocation licenseId reason w) = Ok tt
  /\ revoked_file w' = revoked_file w
  /\ fst (getRevocationInfo licenseId w') = fst (getRevocationInfo licenseId w)
  /\ fst (getRevocationCount w') = fst (getRevocationCount w).
Proof.
  intros Hok Hrev w'.
  rewrite (isRevoked_spec _ _ Hok) in Hrev. injection Hrev as Hin.
  destruct (addRevocation_known licenseId reason w Hok Hin) as [Hrun Hfile].
  assert (Hok' : registry_ok w') by (eapply registry_ok_file; eauto).
  assert (Hent : registry_entries w' = registry_entries w)
    by (now apply registry_entries_file).
  rewrite (getRevocationInfo_spec _ _ Hok'), (getRevocationInfo_spec _ _ Hok).
  rewrite (getRevocationCount_spec _ Hok'), (getRevocationCount_spec _ Hok), Hent.
  auto.
Qed.

(** X3.  [addRevocation(id, reason)] touches no other subject: what
    [isRevoked] and [getRevocationInfo] answer for another subject is what
    they answered before; the list of revocations is the list before, with
    one entry appended when [id] was not revoked. *)
Theorem addRevocation_frame (licenseId reason other : string) (w : World) :
  registry_ok w ->
  other <> licenseId ->
  let w' := snd (addRevocation licenseId reason w) in
  fst (isRevoked other w') = fst (isRevoked other w)
  /\ fst (getRevocationInfo other w') = fst (getRevocationInfo other w)
  /\ exists added,
       fst (listRevocations w') = Ok (Some (JArr (registry_entries w ++ added)))
       /\ fst (listRevocations w) = Ok (Some (JArr (registry_entries w)))
       /\ List.length added
          = (if existsb (matchesb licenseId) (registry_entries w) then 0 else 1)%nat.
Proof.
  intros Hok Hne w'.
  assert (Hother : forall t, matchesb other (revocation_entry licenseId t reason) = false).
  { intros t. rewrite matchesb_revocation_entry. apply String.eqb_neq. congruence. }
  destruct (existsb (matchesb licenseId) (registry_entries w)) eqn:Hin.
  - destruct (addRevocation_known licenseId reason w Hok Hin) as [_ Hfile].
    assert (Hok' : registry_ok w') by (eapply registry_ok_file; eauto).
    assert (Hent : registry_entries w' = registry_entries w)
      by (now apply registry_entries_file).
    rewrite !(isRevoked_spec _ _ Hok'), !(getRevocationInfo_spec _ _ Hok').
    rewrite !(isRevoked_spec _ _ Hok), !(getRevocationInfo_spec _ _ Hok).
    rewrite (listRevocations_spec _ Hok'), (listRevocations_spec _ Hok), Hent.
    repeat split. exists []. now rewrite app_nil_r.
  - destruct (addRevocation_new licenseId reason w Hok Hin) as (_ & Hok' & Hent).
    fold w' in Hok', Hent.
    rewrite !(isRevoked_spec _ _ Hok'), !(getRevocationInfo_spec _ _ Hok').
    rewrite !(isRevoked_spec _ _ Hok), !(getRevocationInfo_spec _ _ Hok).
    rewrite (listRevocations_spec _ Hok'), (listRevocations_spec _ Hok), Hent.
    rewrite existsb_app. cbn [existsb]. rewrite Hother, !orb_false_r.
    split; [reflexivity |]. split.
    + f_equal. apply find_app_other, Hother.
    + eexists. repeat split.
Qed.

(** X4.  [removeRevocation(id)] answers whether [id] was revoked.
    Afterwards [id] is not revoked and has no revocation info, and every
    other subject is revoked exactly when it was before.  When the answer
    is false the registry file is not written. *)
Theorem removeRevocation_spec (licenseId : string) (w : World) :
  registry_ok w ->
  let w' := snd (removeRevocation licenseId w) in
  (exists was, fst (removeRevocation licenseId w) = Ok was
               /\ fst (isRevoked licenseId w) = Ok was
               /\ (was = false -> revoked_file w' = revoked_file w))
  /\ fst (isRevoked licenseId w') = Ok false
  /\ fst (getRevocationInfo licenseId w') = Ok None
  /\ (forall other, other <> licenseId ->
        fst (isRevoked other w') = fst (isRevoked other w)
        /\ fst (getRevocationInfo other w') = fst (getRevocationInfo other w)).
Proof.
  intros Hok w'.
  destruct (removeRevocation_run licenseId w Hok) as (Hrun & Hok' & Hent & Hfile).
  fold w' in Hok', Hent, Hfile.
  split; [| split; [| split]].
  - eexists. split; [exact Hrun |]. split; [apply (isRevoked_spec _ _ Hok) | exact Hfile].
  - rewrite (isRevoked_spec _ _ Hok'), Hent. now rewrite filter_out_gone.
  - rewrite (getRevocationInfo_spec _ _ Hok'), Hent. f_equal.
    destruct (find _ _) as [e |] eqn:He; [| reflexivity].
    apply find_some in He as [Hin Hm]. apply filter_In in Hin as [_ Hn].
    rewrite Hm in Hn. discriminate.
  - intros other Hne.
    rewrite (isRevoked_spec _ _ Hok'), (getRevocationInfo_spec _ _ Hok'), Hent.
    rewrite (isRevoked_spec _ _ Hok), (getRevocationInfo_spec _ _ Hok).
    now rewrite existsb_filter_other, find_filter_other by assumption.
Qed.

(** X5.  Adding a revocation for a subject that has none and removing it
    again leaves the list of revocations as it was. *)
Theorem addRevocation_removeRevocation (licenseId reason : string) (w : World) :
  registry_ok w ->
  fst (isRevoked licenseId w) = Ok false ->
  let w1 := snd (addRevocation licenseId reason w) in
  let w2 := snd (removeRevocation licenseId w1) in
  fst (removeRevocation licenseId w1) = Ok true
  /\ fst (listRevocations w2) = fst (listRevocations w)
  /\ fst (getRevocationCount w2) = fst (getRevocationCount w).
Proof.
  intros Hok Hrev w1 w2.
  rewrite (isRevoked_spec _ _ Hok) in Hrev. injection Hrev as Hin.
  destruct (addRevocation_new licenseId reason w Hok Hin) as (_ & Hok1 & Hent1).
  fold w1 in Hok1, Hent1.
  destruct (removeRevocation_run licenseId w1 Hok1) as (Hrun & Hok2 & Hent2 & _).
  fold w2 in Hok2, Hent2.
  assert (Hsame : registry_entries w2 = registry_entries w).
  { rewrite Hent2, Hent1, filter_app. cbn [filter].
    rewrite matchesb_revocation_entry, String.eqb_refl. cbn [negb].
    rewrite app_nil_r. now apply filter_out_none. }
  split.
  - rewrite Hrun, Hent1, existsb_app. cbn [existsb].
    rewrite matchesb_revocation_entry, String.eqb_refl. now rewrite !orb_true_r.
  - rewrite (listRevocations_spec _ Hok2), (listRevocations_spec _ Hok).
    rewrite (getRevocationCount_spec _ Hok2), (getRevocationCount_spec _ Hok).
    now rewrite Hsame.
Qed.

(** X6.  The registry keeps its shape: from a registry that is in good
    shape with at most one entry per subject (such as a missing file),
    [addRevocation] and [removeRevocation] return without throwing and
    lead to such a registry again. *)
Theorem registry_invariant (licenseId reason : string) (w : World) :
  registry_ok w -> registry_unique w ->
  (fst (addRevocation licenseId reason w) = Ok tt
   /\ registry_ok (snd (addRevocation licenseId reason w))
   /\ registry_unique (snd (addRevocation licenseId reason w)))
  /\ ((exists was, fst (removeRevocation licenseId w) = Ok was)
      /\ registry_ok (snd (removeRevocation licenseId w))
      /\ registry_unique (snd (removeRevocation licenseId w))).
Proof.
  intros Hok Huniq. split.
  - destruct (existsb (matchesb licenseId) (registry_entries w)) eqn:Hin.
    + destruct (addRevocation_known licenseId reason w Hok Hin) as [Hrun Hfile].
      split; [exact Hrun |]. split; [eapply registry_ok_file; eauto |].
      intros s. rewrite (registry_entries_file _ _ Hfile). apply Huniq.
    + destruct (addRevocation_new licenseId reason w Hok Hin) as (Hrun & Hok' & Hent).
      split; [exact Hrun |]. split; [exact Hok' |].
      intros s. rewrite Hent, count_subject_app.
      unfold count_subject at 2. cbn [filter]. rewrite matchesb_revocation_entry.
      destruct (String.eqb licenseId s) eqn:E; cbn [List.length].
      * apply String.eqb_eq in E. subst s.
        rewrite (count_subject_zero _ _ Hin). lia.
      * specialize (Huniq s). lia.
  - destruct (removeRevocation_run licenseId w Hok) as (Hrun & Hok' & Hent & _).
    split; [eauto |]. split; [exact Hok' |].
    intros s. rewrite Hent. specialize (Huniq s).
    unfold count_subject in *.
    assert (Hle : forall l,
               (List.length (filter (matchesb s)
                               (filter (fun e => negb (matchesb licenseId e)) l))
                <= List.length (filter (matchesb s) l))%nat).
    { induction l as [| x l IH]; simpl; [lia |].
      destruct (matchesb licenseId x); simpl; destruct (matchesb s x); simpl; lia. }
    specialize (Hle (registry_entries w)). lia.
Qed.

End RegistryOperations.

Section RegistryMisshapen.

Context {JP : JSONParser}.

Lemma load_misshapen (w : World) (v : jsval) :
  registry_value w = Some v ->
  loadRevocationStore w = (Ok v, with_data_dir w).
Proof.
  unfold registry_value. destruct (revoked_file w) as [raw |] eqn:Hf; [| discriminate].
  intros Hp. now apply (load_parsed w raw).
Qed.

Lemma entries_array_misshapen (v : jsval) :
  (forall props items, v = JObj props -> obj_get "entries" props <> Some (JArr items)) ->
  exists e, entries_array v = Throw e.
Proof.
  intros Hshape. unfold entries_array, store_entries.
  destruct v as [| | | | | props]; simpl; eauto.
  destruct (obj_get "entries" props) as [[| | | | items |] |] eqn:E; simpl; eauto.
  now elim (Hshape props items).
Qed.

Lemma addRevocation_misshapen (w : World) (subject reason : string) :
  registry_misshapen w ->
  (exists e, fst (addRevocation subject reason w) = Throw e)
  /\ revoked_file (snd (addRevocation subject reason w)) = revoked_file w.
Proof.
  intros (v & Hv & Hshape).
  pose proof (load_misshapen w v Hv) as Hload.
  destruct (entries_array_misshapen v Hshape) as [e He].
  unfold addRevocation, bind, lift. rewrite Hload, He. simpl.
  split; eauto using with_data_dir_file.
Qed.

(** X7.  When the registry file holds JSON that is not an object with an
    array as [entries] (such as [{}] or [null]), it is not read as an empty
    registry: [isRevoked], [getRevocationInfo], [addRevocation] and
    [removeRevocation] throw, and the file is left as it is. *)
Theorem misshapen_registry_throws (w : World) (subject reason : string) :
  registry_misshapen w ->
  (exists e, fst (isRevoked subject w) = Throw e)
  /\ (exists e, fst (getRevocationInfo subject w) = Throw e)
  /\ (exists e, fst (addRevocation subject reason w) = Throw e)
  /\ (exists e, fst (removeRevocation subject w) = Throw e)
  /\ revoked_file (snd (addRevocation subject reason w)) = revoked_file w
  /\ revoked_file (snd (removeRevocation subject w)) = revoked_file w.
Proof.
  intros (v & Hv & Hshape).
  pose proof (load_misshapen w v Hv) as Hload.
  destruct (entries_array_misshapen v Hshape) as [e He].
  unfold isRevoked, getRevocationInfo, addRevocation, removeRevocation, bind, lift.
  rewrite Hload, He. simpl.
  repeat split; eauto using with_data_dir_file.
Qed.

End RegistryMisshapen.

(** ** What the gateway leaves alone *)

Section Steps.

Context {A : Type}.
Variable R : World -> World -> Prop.
Hypothesis R_refl : forall w, R w w.
Hypothesis R_trans : forall w1 w2 w3, R w1 w2 -> R w2 w3 -> R w1 w3.

Lemma steps_ret (a : A) : steps R (ret a).
Proof. intros w. apply R_refl. Qed.

Lemma steps_throw (e : JsError) : steps R (@throw A e).
Proof. intros w. apply R_refl. Qed.

Lemma steps_lift (x : Exc A) : steps R (lift x).
Proof. intros w. apply R_refl. Qed.

Lemma steps_bind {B : Type} (c : M B) (k : B -> M A) :
  steps R c -> (forall b, steps R (k b)) -> steps R (bind c k).
Proof.
  intros Hc Hk w. unfold bind. specialize (Hc w).
  destruct (c w) as [[b | e] w1]; simpl in *; [| exact Hc].
  eapply R_trans; [exact Hc | apply Hk].
Qed.

Lemma steps_try_catch (c : M A) (h : JsError -> M A) :
  steps R c -> (forall e, steps R (h e)) -> steps R (try_catch c h).
Proof.
  intros Hc Hh w. unfold try_catch. specialize (Hc w).
  destruct (c w) as [[a | e] w1]; simpl in *; [exact Hc |].
  eapply R_trans; [exact Hc | apply Hh].
Qed.

End Steps.

Section StepsOfTheProgram.

Variable config : Config.
Context {JP : JSONParser} {ED : Ed25519}.
Variable R : World -> World -> Prop.
Hypothesis R_refl : forall w, R w w.
Hypothesis R_trans : forall w1 w2 w3, R w1 w2 -> R w2 w3 -> R w1 w3.
Hypothesis R_ticks : forall n w, R w (set_ticks n w).
Hypothesis R_drawn : forall n w, R w (set_drawn n w).
Hypothesis R_data_dir : forall b w, R w (set_data_dir b w).
Hypothesis R_revoked_file : forall f w, R w (set_revoked_file f w).
Hypothesis R_createCustomer :
  forall id email stripeCustomerId,
    steps R (createCustomer config id email stripeCustomerId).
Hypothesis R_createLicense :
  forall id customerId plan issuedAt expiresAt,
    steps R (createLicense config id customerId plan issuedAt expiresAt).
Hypothesis R_update :
  forall revokedAt customerId,
    steps R (_ <- db_run (update_revoked_at revokedAt customerId) ;; saveDb config).

Ltac steps_bind := apply steps_bind; [assumption | | intro].
Ltac steps_done := solve [apply steps_ret; assumption | apply steps_throw; assumption
                         | apply steps_lift; assumption].

Lemma steps_Date_now : steps R Date_now.
Proof. intros w. apply R_ticks. Qed.

Lemma steps_new_Date : steps R new_Date.
Proof. unfold new_Date. steps_bind; [apply steps_Date_now | steps_done]. Qed.

Lemma steps_now_ISO : steps R now_ISO.
Proof. unfold now_ISO. steps_bind; [apply steps_new_Date | steps_done]. Qed.

Lemma steps_uuid : steps R uuid.
Proof. intros w. apply R_drawn. Qed.

Lemma steps_getDb : steps R getDb.
Proof. intros w. unfold getDb. destruct (db w); apply R_refl. Qed.

Lemma steps_findCustomerByEmail (email : string) : steps R (findCustomerByEmail email).
Proof. unfold findCustomerByEmail. steps_bind; [apply steps_getDb | steps_done]. Qed.

Lemma steps_findLicenseByCustomer (id : string) : steps R (findLicenseByCustomer id).
Proof. unfold findLicenseByCustomer. steps_bind; [apply steps_getDb | steps_done]. Qed.

Lemma steps_ensureDataDir : steps R ensureDataDir.
Proof.
  intros w. unfold ensureDataDir. destruct (data_dir w); [apply R_refl | apply R_data_dir].
Qed.

Lemma steps_empty_store : steps R empty_store.
Proof. unfold empty_store. steps_bind; [apply steps_now_ISO | steps_done]. Qed.

Lemma steps_loadRevocationStore : steps R loadRevocationStore.
Proof.
  unfold loadRevocationStore.
  steps_bind; [apply steps_ensureDataDir |].
  steps_bind; [intros w; apply R_refl |].
  match goal with |- steps _ (if ?b then _ else _) => destruct b end;
    [apply steps_empty_store |].
  apply steps_try_catch; [assumption | | intro; apply steps_empty_store].
  steps_bind.
  - intros w. unfold readFileSync_REVOKED_FILE. destruct (revoked_file w); apply R_refl.
  - unfold JSON_parse_M. destruct (JSON_parse _); steps_done.
Qed.

Lemma steps_saveRevocationStore (store : jsval) : steps R (saveRevocationStore store).
Proof.
  unfold saveRevocationStore.
  steps_bind; [apply steps_ensureDataDir |].
  steps_bind; [apply steps_now_ISO |].
  intros w. apply R_revoked_file.
Qed.

Lemma steps_addRevocation (licenseId reason : string) :
  steps R (addRevocation licenseId reason).
Proof.
  unfold addRevocation.
  steps_bind; [apply steps_loadRevocationStore |].
  steps_bind; [steps_done |].
  steps_bind; [steps_done |].
  match goal with |- steps _ (if ?b then _ else _) => destruct b end; [steps_done |].
  steps_bind; [apply steps_now_ISO |].
  apply steps_saveRevocationStore.
Qed.

Lemma steps_removeRevocation (licenseId : string) : steps R (removeRevocation licenseId).
Proof.
  unfold removeRevocation.
  steps_bind; [apply steps_loadRevocationStore |].
  steps_bind; [steps_done |].
  steps_bind; [steps_done |].
  match goal with |- steps _ (if ?b then _ else _) => destruct b end; [| steps_done].
  steps_bind; [apply steps_saveRevocationStore | steps_done].
Qed.

Lemma steps_isRevoked (licenseId : string) : steps R (isRevoked licenseId).
Proof.
  unfold isRevoked. steps_bind; [apply steps_loadRevocationStore | steps_done].
Qed.

Lemma steps_issue_license (event : PaymentEvent) (customer_id : string) :
  steps R (issue_license config event customer_id).
Proof.
  unfold issue_license.
  steps_bind; [apply steps_new_Date |].
  steps_bind; [steps_done |].
  steps_bind; [steps_done |].
  steps_bind; [steps_done |].
  steps_bind; [apply steps_uuid |].
  steps_bind; [apply R_createLicense | steps_done].
Qed.

Lemma steps_handleCheckoutCompleted (event : PaymentEvent) :
  steps R (handleCheckoutCompleted config event).
Proof.
  unfold handleCheckoutCompleted.
  steps_bind; [apply steps_findCustomerByEmail |].
  steps_bind; [| apply steps_issue_license].
  match goal with |- steps _ (match ?x with _ => _ end) => destruct x end;
    [steps_done |].
  steps_bind; [apply steps_uuid |].
  steps_bind; [apply R_createCustomer | steps_done].
Qed.

Lemma steps_handleSubscriptionUpdated (event : PaymentEvent) :
  steps R (handleSubscriptionUpdated config event).
Proof.
  unfold handleSubscriptionUpdated.
  steps_bind; [apply steps_findCustomerByEmail |].
  match goal with |- steps _ (match ?x with _ => _ end) => destruct x end;
    [| steps_done].
  steps_bind; [apply steps_findLicenseByCustomer |].
  match goal with |- steps _ (if ?b then _ else _) => destruct b end;
    [steps_done | apply steps_issue_license].
Qed.

Lemma steps_handleSubscriptionCancelled (event : PaymentEvent) :
  (forall licenseId reason, steps R (addRevocation licenseId reason)) ->
  steps R (handleSubscriptionCancelled config event).
Proof.
  intros Hadd. unfold handleSubscriptionCancelled.
  steps_bind; [apply steps_findCustomerByEmail |].
  match goal with |- steps _ (match ?x with _ => _ end) => destruct x as [customer |] end;
    [| steps_done].
  steps_bind; [apply Hadd |].
  steps_bind; [apply steps_getDb |].
  steps_bind; [apply steps_now_ISO |].
  match goal with
  | |- steps _ (bind (db_run (update_revoked_at ?t ?c)) _) =>
      intros w; specialize (R_update t c w); unfold bind in *;
      destruct (db_run (update_revoked_at t c) w) as [[[] | e] w1];
        [| exact R_update];
      destruct (saveDb config w1) as [[[] | e] w2]; exact R_update
  end.
Qed.

Lemma steps_processPaymentEvent (event : PaymentEvent) :
  (eventType event = subscription_cancelled ->
   forall licenseId reason, steps R (addRevocation licenseId reason)) ->
  steps R (processPaymentEvent config event).
Proof.
  intros Hadd. rewrite processPaymentEvent_run.
  apply steps_try_catch; [assumption | | intro; steps_done].
  unfold dispatch. destruct (eventType event) eqn:E;
    [apply steps_handleCheckoutCompleted | apply steps_handleSubscriptionUpdated
     | apply steps_handleSubscriptionCancelled; auto | steps_done | steps_done].
Qed.

End StepsOfTheProgram.

(** What a statement followed by [saveDb()] does. *)
Lemma write_run (config : Config) (stmt : Database -> Exc Database) (w : World) :
  (_ <- db_run stmt ;; saveDb config) w
  = match db w with
    | None => (Throw (Error "Database not initialized. Call initDb() first."), w)
    | Some d =>
        match stmt d with
        | Ok d' =>
            (Ok tt,
             if String.eqb (databaseUrl config) ":memory:" then set_db (Some d') w
             else set_db_file (Some d') (set_db (Some d') w))
        | Throw e => (Throw e, w)
        end
    end.
Proof.
  unfold bind, db_run, getDb, saveDb, bind, throw.
  destruct (db w) as [d |] eqn:Hd; [| reflexivity].
  destruct (stmt d) as [d' | e]; [| reflexivity]. simpl.
  destruct (String.eqb _ _); reflexivity.
Qed.

Section StepsOfTheStore.

Variable config : Config.
Variable R : World -> World -> Prop.
Hypothesis R_refl : forall w, R w w.
Hypothesis R_trans : forall w1 w2 w3, R w1 w2 -> R w2 w3 -> R w1 w3.
Hypothesis R_ticks : forall n w, R w (set_ticks n w).
Variable good : (Database -> Exc Database) -> Prop.
Hypothesis R_write :
  forall stmt, good stmt -> steps R (_ <- db_run stmt ;; saveDb config).
Hypothesis good_insert_customer : forall row, good (insert_customer row).
Hypothesis good_insert_license : forall row, good (insert_license row).
Hypothesis good_update : forall t id, good (update_revoked_at t id).

Ltac steps_bind := apply steps_bind; [assumption | | intro].
Ltac steps_done := solve [apply steps_ret; assumption | apply steps_throw; assumption
                         | apply steps_lift; assumption].

Lemma steps_sqlite_now : steps R sqlite_now.
Proof.
  unfold sqlite_now. steps_bind; [now apply steps_Date_now | steps_done].
Qed.

Lemma steps_createCustomer (id email : string) (stripeCustomerId : option string) :
  steps R (createCustomer config id email stripeCustomerId).
Proof.
  unfold createCustomer.
  steps_bind; [now apply steps_getDb |].
  steps_bind; [apply steps_sqlite_now |].
  apply R_write, good_insert_customer.
Qed.

Lemma steps_createLicense (id customerId plan issuedAt expiresAt : string) :
  steps R (createLicense config id customerId plan issuedAt expiresAt).
Proof.
  unfold createLicense.
  steps_bind; [now apply steps_getDb |].
  steps_bind; [apply steps_sqlite_now |].
  apply R_write, good_insert_license.
Qed.

Lemma steps_update (revokedAt customerId : string) :
  steps R (_ <- db_run (update_revoked_at revokedAt customerId) ;; saveDb config).
Proof. apply R_write, good_update. Qed.

(** A payment event steps by [R] when statements and the registry do. *)
Lemma steps_event {JP : JSONParser} {ED : Ed25519} (event : PaymentEvent) :
  (forall n w, R w (set_drawn n w)) ->
  (eventType event = subscription_cancelled ->
   forall licenseId reason, steps R (addRevocation licenseId reason)) ->
  steps R (processPaymentEvent config event).
Proof.
  intros R_drawn Hadd.
  apply steps_processPaymentEvent;
    auto using steps_createCustomer, steps_createLicense, steps_update.
Qed.

End StepsOfTheStore.

Section RegistryReadsTheFile.

Context {JP : JSONParser}.

(** What the registry answers depends on the registry file alone. *)
Lemma registry_reads_file (w w' : World) (subject : string) :
  revoked_file w' = revoked_file w ->
  fst (isRevoked subject w') = fst (isRevoked subject w)
  /\ fst (getRevocationInfo subject w') = fst (getRevocationInfo subject w)
  /\ fst (listRevocations w') = fst (listRevocations w)
  /\ fst (getRevocationCount w') = fst (getRevocationCount w).
Proof.
  intros Hfile.
  unfold isRevoked, getRevocationInfo, listRevocations, getRevocationCount, bind.
  destruct (revoked_file w) as [raw |] eqn:Hf.
  - destruct (JSON_parse raw) as [v |] eqn:Hp.
    + rewrite (load_parsed w raw v Hf Hp), (load_parsed w' raw v Hfile Hp). auto.
    + rewrite (load_corrupt w raw Hf Hp), (load_corrupt w' raw Hfile Hp). auto.
  - rewrite (load_absent w Hf), (load_absent w' Hfile). auto.
Qed.

End RegistryReadsTheFile.

Lemma same_registry_refl (w : World) : same_registry w w.
Proof. reflexivity. Qed.

Lemma same_registry_trans (w1 w2 w3 : World) :
  same_registry w1 w2 -> same_registry w2 w3 -> same_registry w1 w3.
Proof. unfold same_registry. congruence. Qed.

Lemma same_database_refl (w : World) : same_database w w.
Proof. split; reflexivity. Qed.

Lemma same_database_trans (w1 w2 w3 : World) :
  same_database w1 w2 -> same_database w2 w3 -> same_database w1 w3.
Proof. unfold same_database. intuition congruence. Qed.

Lemma same_db_file_trans (w1 w2 w3 : World) :
  same_db_file w1 w2 -> same_db_file w2 w3 -> same_db_file w1 w3.
Proof. unfold same_db_file. congruence. Qed.

Lemma keeps_in_sync_trans (w1 w2 w3 : World) :
  keeps_in_sync w1 w2 -> keeps_in_sync w2 w3 -> keeps_in_sync w1 w3.
Proof. unfold keeps_in_sync. auto. Qed.

Lemma stamped_trans (a b c : LicenseRow) : stamped a b -> stamped b c -> stamped a c.
Proof.
  intros [-> | (Ha & t & ->)] [-> | (Hb & t' & ->)]; unfold stamped; eauto.
  discriminate Hb.
Qed.

Lemma Forall2_stamped_refl (l : list LicenseRow) : Forall2 stamped l l.
Proof. induction l; constructor; auto. now left. Qed.

Lemma Forall2_stamped_trans (l1 l2 l3 : list LicenseRow) :
  Forall2 stamped l1 l2 -> Forall2 stamped l2 l3 -> Forall2 stamped l1 l3.
Proof.
  intros H. revert l3. induction H as [| a b l1 l2 Hab _ IH]; intros l3 H3;
    inversion H3; subst; constructor; eauto using stamped_trans.
Qed.

Lemma grows_refl (d : Database) : grows d d.
Proof.
  split.
  - exists []. now rewrite app_nil_r.
  - exists (licenses d), []. rewrite app_nil_r. auto using Forall2_stamped_refl.
Qed.

Lemma grows_trans (d1 d2 d3 : Database) : grows d1 d2 -> grows d2 d3 -> grows d1 d3.
Proof.
  intros [[c1 Hc1] (o1 & n1 & Hl1 & Hs1)] [[c2 Hc2] (o2 & n2 & Hl2 & Hs2)].
  split.
  - exists (c1 ++ c2). now rewrite Hc2, Hc1, app_assoc.
  - rewrite Hl1 in Hs2. apply Forall2_app_inv_l in Hs2 as (o2a & o2b & Ha & Hb & ->).
    exists o2a, (o2b ++ n2). split.
    + now rewrite Hl2, app_assoc.
    + eauto using Forall2_stamped_trans.
Qed.

Lemma append_only_refl (w : World) : append_only w w.
Proof. intros d Hd. eauto using grows_refl. Qed.

Lemma append_only_trans (w1 w2 w3 : World) :
  append_only w1 w2 -> append_only w2 w3 -> append_only w1 w3.
Proof.
  intros H12 H23 d Hd. destruct (H12 d Hd) as (d2 & Hd2 & Hg2).
  destruct (H23 d2 Hd2) as (d3 & Hd3 & Hg3). eauto using grows_trans.
Qed.

(** Statements under which the database only grows. *)
Lemma insert_customer_grows (row : CustomerRow) (d d' : Database) :
  insert_customer row d = Ok d' -> grows d d'.
Proof.
  unfold insert_customer. destruct (existsb _ _); [discriminate |]. intros [= <-].
  split; simpl.
  - now exists [row].
  - exists (licenses d), []. rewrite app_nil_r. auto using Forall2_stamped_refl.
Qed.

Lemma insert_license_grows (row : LicenseRow) (d d' : Database) :
  insert_license row d = Ok d' -> grows d d'.
Proof.
  unfold insert_license. destruct (existsb _ _); [discriminate |]. intros [= <-].
  split; simpl.
  - exists []. now rewrite app_nil_r.
  - exists (licenses d), [row]. auto using Forall2_stamped_refl.
Qed.

Lemma update_revoked_at_grows (t id : string) (d d' : Database) :
  update_revoked_at t id d = Ok d' -> grows d d'.
Proof.
  unfold update_revoked_at. intros [= <-]. split; simpl.
  - exists []. now rewrite app_nil_r.
  - eexists _, []. rewrite app_nil_r. split; [reflexivity |].
    induction (licenses d) as [| l ls IH]; simpl; constructor; [| exact IH].
    destruct (String.eqb _ _ && is_null (lic_revoked_at l)) eqn:E; [| now left].
    right. apply andb_true_iff in E as [_ E].
    destruct (lic_revoked_at l); [discriminate | eauto].
Qed.

Section GatewayFrames.

Variable config : Config.
Context {JP : JSONParser} {ED : Ed25519}.

Lemma write_same_registry (stmt : Database -> Exc Database) :
  steps same_registry (_ <- db_run stmt ;; saveDb config).
Proof.
  intros w. rewrite write_run. unfold same_registry.
  destruct (db w) as [d |]; [| reflexivity].
  destruct (stmt d); [| reflexivity]. simpl.
  destruct (String.eqb _ _); reflexivity.
Qed.

Lemma write_keeps_in_sync (stmt : Database -> Exc Database) :
  databaseUrl config <> ":memory:" ->
  steps keeps_in_sync (_ <- db_run stmt ;; saveDb config).
Proof.
  intros Hfile w Hsync. rewrite write_run. unfold in_sync in *.
  apply String.eqb_neq in Hfile. rewrite Hfile.
  destruct (db w) as [d |] eqn:Hd; simpl; [| congruence].
  destruct (stmt d); simpl; [reflexivity | congruence].
Qed.

Lemma write_same_db_file (stmt : Database -> Exc Database) :
  databaseUrl config = ":memory:" ->
  steps same_db_file (_ <- db_run stmt ;; saveDb config).
Proof.
  intros Hmem w. rewrite write_run. unfold same_db_file. rewrite Hmem. simpl.
  destruct (db w) as [d |]; [| reflexivity].
  destruct (stmt d); reflexivity.
Qed.

Lemma write_append_only (stmt : Database -> Exc Database) :
  (forall d d', stmt d = Ok d' -> grows d d') ->
  steps append_only (_ <- db_run stmt ;; saveDb config).
Proof.
  intros Hgrows w d Hd. rewrite write_run, Hd.
  destruct (stmt d) as [d' | e] eqn:E; simpl.
  - exists d'. split; [| now apply Hgrows].
    destruct (String.eqb _ _); reflexivity.
  - exists d. split; [assumption | apply grows_refl].
Qed.

(** [addRevocation] leaves the database alone, whatever the registry
    holds. *)
Lemma addRevocation_same_database (licenseId reason : string) :
  steps same_database (addRevocation licenseId reason).
Proof.
  apply steps_addRevocation;
    first [exact same_database_refl | exact same_database_trans
          | intros; split; reflexivity].
Qed.

(** X8.  Only a cancellation writes the registry: any other event leaves
    the registry file as it is, so that every subject is revoked afterwards
    exactly when it was before.  In particular a revoked customer who
    checks out again stays revoked. *)
Theorem only_cancellation_writes_registry (event : PaymentEvent) (w : World) :
  eventType event <> subscription_cancelled ->
  let w' := snd (processPaymentEvent config event w) in
  revoked_file w' = revoked_file w
  /\ forall subject,
       fst (isRevoked subject w') = fst (isRevoked subject w)
       /\ fst (getRevocationInfo subject w') = fst (getRevocationInfo subject w).
Proof.
  intros Hty w'.
  assert (Hfile : same_registry w w').
  { apply (steps_event config same_registry same_registry_refl same_registry_trans
             ltac:(reflexivity) (fun _ => True)); try (intros; exact I); try reflexivity.
    - intros stmt _. apply write_same_registry.
    - intros E. contradiction. }
  split; [exact Hfile |].
  intros subject. destruct (registry_reads_file w w' subject Hfile) as (H1 & H2 & _).
  auto.
Qed.

(** X9.  With a database file configured, the file is kept in step with
    the database in memory: it holds the same rows after [initDb()], and
    still does after [createCustomer], [createLicense] and every payment
    event, whether they return or throw. *)
Theorem database_file_in_sync (w : World) :
  databaseUrl config <> ":memory:" ->
  (db w = None -> in_sync (snd (initDb config w)))
  /\ (in_sync w ->
      (forall id email stripeCustomerId,
         in_sync (snd (createCustomer config id email stripeCustomerId w)))
      /\ (forall id customerId plan issuedAt expiresAt,
            in_sync (snd (createLicense config id customerId plan issuedAt expiresAt w)))
      /\ (forall event, in_sync (snd (processPaymentEvent config event w)))).
Proof.
  intros Hfile. split.
  - intros Hd. unfold initDb. rewrite Hd. apply String.eqb_neq in Hfile.
    unfold in_sync, bind, initSchema, bind, getDb, saveDb, ret. simpl.
    rewrite Hfile. reflexivity.
  - intros Hsync.
    assert (Hticks : forall n w0, keeps_in_sync w0 (set_ticks n w0))
      by (intros n w0 H; exact H).
    assert (Hwrite : forall stmt, True ->
              steps keeps_in_sync (_ <- db_run stmt ;; saveDb config))
      by (intros stmt _; now apply write_keeps_in_sync).
    split; [| split].
    + intros id email s.
      now apply (steps_createCustomer config keeps_in_sync (fun w0 H => H)
                   keeps_in_sync_trans Hticks (fun _ => True) Hwrite (fun _ => I)).
    + intros id customerId plan issuedAt expiresAt.
      now apply (steps_createLicense config keeps_in_sync (fun w0 H => H)
                   keeps_in_sync_trans Hticks (fun _ => True) Hwrite (fun _ => I)).
    + intros event.
      apply (steps_event config keeps_in_sync (fun w0 H => H) keeps_in_sync_trans
               Hticks (fun _ => True) Hwrite (fun _ => I) (fun _ => I) (fun _ _ => I));
        [intros n w0 H; exact H | | exact Hsync].
      intros _ licenseId reason w0 H0.
      destruct (addRevocation_same_database licenseId reason w0) as [Hdb Hdf].
      unfold in_sync in *. congruence.
Qed.

(** X10.  With [DATABASE_URL] set to [:memory:] nothing is ever written to
    a database file, and a restart of the process starts from an empty
    database: no customer is found any more. *)
Theorem memory_database_is_stateless (w : World) :
  databaseUrl config = ":memory:" ->
  (forall event, db_file (snd (processPaymentEvent config event w)) = db_file w)
  /\ db_file (snd (initDb config w)) = db_file w
  /\ (let restarted := snd (initDb config (set_db None w)) in
      db restarted = Some empty_Database
      /\ forall email, fst (findCustomerByEmail email restarted) = Ok None).
Proof.
  intros Hmem. split; [| split].
  - intros event.
    apply (steps_event config same_db_file (fun _ => eq_refl) same_db_file_trans
             (fun _ _ => eq_refl) (fun _ => True)
             (fun stmt _ => write_same_db_file stmt Hmem)
             (fun _ => I) (fun _ => I) (fun _ _ => I));
      [intros; reflexivity |].
    intros _ licenseId reason w0.
    now destruct (addRevocation_same_database licenseId reason w0).
  - unfold initDb. destruct (db w) eqn:Hd; [reflexivity |].
    unfold bind, initSchema, bind, getDb, saveDb, ret. simpl. now rewrite Hmem.
  - unfold initDb, bind, initSchema, bind, getDb, saveDb, ret. simpl.
    rewrite Hmem. simpl. split; reflexivity.
Qed.

(** X11.  With a database file configured and in step, a restart of the
    process loses nothing: [initDb()] in the new process returns the rows
    the database held. *)
Theorem file_database_survives_restart (w : World) (d : Database) :
  databaseUrl config <> ":memory:" ->
  in_sync w -> db w = Some d ->
  initDb config (set_db None w) = (Ok d, w).
Proof.
  intros Hfile Hsync Hd. apply String.eqb_neq in Hfile.
  unfold in_sync in Hsync. rewrite Hd in Hsync.
  unfold initDb, bind, initSchema, bind, getDb, saveDb, ret. simpl.
  rewrite Hfile, Hsync. simpl. f_equal.
  destruct w; simpl in *. now subst.
Qed.

(** X12.  The tables are append-only under payment events: whatever the
    event and whether it succeeds or fails, every customer row is still
    there unchanged and in place, and every license row is still there in
    place, unchanged or with [revoked_at] set where it was [NULL]; new rows
    come after them.  No row is deleted and no revocation stamp is ever
    cleared. *)
Theorem tables_are_append_only (event : PaymentEvent) (w : World) (d : Database) :
  db w = Some d ->
  exists d', db (snd (processPaymentEvent config event w)) = Some d' /\ grows d d'.
Proof.
  apply (steps_event config append_only append_only_refl append_only_trans
           ltac:(intros n w0 d0 H; exists d0; split; [exact H | apply grows_refl])
           (fun stmt => forall d d', stmt d = Ok d' -> grows d d')
           write_append_only
           insert_customer_grows insert_license_grows update_revoked_at_grows).
  - intros n w0 d0 H. exists d0. split; [exact H | apply grows_refl].
  - intros _ licenseId reason w0 d0 H0.
    destruct (addRevocation_same_database licenseId reason w0) as [Hdb _].
    exists d0. split; [congruence | apply grows_refl].
Qed.

End GatewayFrames.

(** ** The store *)

Section StoreFacts.

Variable config : Config.

Lemma createCustomer_run (id email : string) (stripeCustomerId : option string)
    (w : World) (d : Database) :
  db w = Some d ->
  createCustomer config id email stripeCustomerId w
  = (_ <- db_run (insert_customer
                    {| cust_id := id; cust_email := email;
                       cust_stripe_customer_id := or_null stripeCustomerId;
                       cust_created_at := clock w (ticks w) / 1000 |}) ;;
     saveDb config) (tick w).
Proof.
  intros Hd. unfold createCustomer, bind at 1, getDb. rewrite Hd.
  unfold bind at 1, sqlite_now, bind at 1, Date_now, ret. reflexivity.
Qed.

Lemma createLicense_run (id customerId plan issuedAt expiresAt : string)
    (w : World) (d : Database) :
  db w = Some d ->
  createLicense config id customerId plan issuedAt expiresAt w
  = (_ <- db_run (insert_license
                    {| lic_id := id; lic_customer_id := customerId; lic_plan := plan;
                       lic_issued_at := issuedAt; lic_expires_at := expiresAt;
                       lic_revoked_at := None;
                       lic_created_at := clock w (ticks w) / 1000 |}) ;;
     saveDb config) (tick w).
Proof.
  intros Hd. unfold createLicense, bind at 1, getDb. rewrite Hd.
  unfold bind at 1, sqlite_now, bind at 1, Date_now, ret. reflexivity.
Qed.

Lemma find_app_one {T : Type} (p : T -> bool) (l : list T) (x : T) :
  find p (l ++ [x])
  = match find p l with
    | Some y => Some y
    | None => if p x then Some x else None
    end.
Proof.
  induction l as [| y l IH]; simpl; [reflexivity |]. destruct (p y); auto.
Qed.

(** X13.  [createCustomer] with an id that is not taken stores one new row,
    last in the table: the id, the email, the Stripe customer id ([NULL]
    when none or an empty one is given) and the second of the insertion.
    [findCustomerByEmail] for that email then finds the first row with the
    email: an older customer with the same email if there is one (the email
    is not a key), else the new row.  Lookups of other emails answer what
    they answered before. *)
Theorem createCustomer_findCustomerByEmail
    (id email : string) (stripeCustomerId : option string) (w : World) (d : Database) :
  db w = Some d ->
  existsb (fun c => String.eqb (cust_id c) id) (customers d) = false ->
  let row := {| cust_id := id; cust_email := email;
                cust_stripe_customer_id := or_null stripeCustomerId;
                cust_created_at := clock w (ticks w) / 1000 |} in
  let w' := snd (createCustomer config id email stripeCustomerId w) in
  fst (createCustomer config id email stripeCustomerId w) = Ok tt
  /\ db w' = Some {| customers := customers d ++ [row]; licenses := licenses d |}
  /\ fst (findCustomerByEmail email w')
     = Ok (Some (match find (fun c => String.eqb (cust_email c) email) (customers d) with
                 | Some older => older
                 | None => row
                 end))
  /\ forall other, other <> email ->
       fst (findCustomerByEmail other w') = fst (findCustomerByEmail other w).
Proof.
  intros Hd Hfresh row w'.
  assert (Hrun : createCustomer config id email stripeCustomerId w
                 = (Ok tt,
                    let d' := {| customers := customers d ++ [row];
                                 licenses := licenses d |} in
                    if String.eqb (databaseUrl config) ":memory:"
                    then set_db (Some d') (tick w)
                    else set_db_file (Some d') (set_db (Some d') (tick w)))).
  { rewrite (createCustomer_run _ _ _ w d Hd), write_run. simpl db. rewrite Hd.
    unfold insert_customer. simpl cust_id. rewrite Hfresh. reflexivity. }
  assert (Hdb : db w' = Some {| customers := customers d ++ [row];
                                licenses := licenses d |}).
  { unfold w'. rewrite Hrun. simpl. destruct (String.eqb _ _); reflexivity. }
  split; [now rewrite Hrun |]. split; [exact Hdb |].
  unfold findCustomerByEmail, bind, getDb, ret. rewrite Hdb, Hd. simpl.
  split.
  - rewrite find_app_one. simpl. rewrite String.eqb_refl.
    now destruct (find _ (customers d)).
  - intros other Hne. rewrite find_app_one. simpl.
    apply String.eqb_neq in Hne. rewrite String.eqb_sym, Hne.
    now destruct (find _ (customers d)).
Qed.

(** X14.  [findLicenseByCustomer(id)] changes nothing and answers with a
    license row of the customer that is not revoked and that no other
    such row is newer than; it answers [undefined] exactly when the
    customer has no license that is not revoked. *)
Theorem findLicenseByCustomer_spec (customerId : string) (w : World) (d : Database) :
  db w = Some d ->
  let mine := fun l => String.eqb (lic_customer_id l) customerId
                       && is_null (lic_revoked_at l) in
  snd (findLicenseByCustomer customerId w) = w
  /\ match fst (findLicenseByCustomer customerId w) with
     | Ok (Some l) =>
         In l (licenses d) /\ lic_customer_id l = customerId
         /\ lic_revoked_at l = None
         /\ forall l', In l' (licenses d) -> mine l' = true ->
                       lic_created_at l' <= lic_created_at l
     | Ok None => forall l', In l' (licenses d) -> mine l' = false
     | Throw _ => False
     end.
Proof.
  intros Hd mine. unfold findLicenseByCustomer, bind, getDb, ret. rewrite Hd. simpl.
  split; [reflexivity |].
  pose proof (latest_spec (filter mine (licenses d))) as H.
  fold mine. destruct (latest (filter mine (licenses d))) as [l |].
  - destruct H as [Hin Hmax]. apply filter_In in Hin as [Hin Hm].
    unfold mine in Hm. apply andb_true_iff in Hm as [Hc Hr].
    apply String.eqb_eq in Hc.
    repeat split; auto.
    + now destruct (lic_revoked_at l).
    + intros l' Hl' Hm'. apply Hmax. now apply filter_In.
  - intros l' Hl'. destruct (mine l') eqn:E; [| reflexivity].
    assert (Hin : In l' (filter mine (licenses d))) by (now apply filter_In).
    rewrite H in Hin. contradiction.
Qed.

(** X15.  The ids are primary keys: [createCustomer] and [createLicense]
    with an id that is taken throw, and the database, in memory and on
    disk, stays as it was. *)
Theorem taken_id_is_refused (id : string) (w : World) (d : Database) :
  db w = Some d ->
  (existsb (fun c => String.eqb (cust_id c) id) (customers d) = true ->
   forall email stripeCustomerId,
     let r := createCustomer config id email stripeCustomerId w in
     (exists e, fst r = Throw e) /\ db (snd r) = db w /\ db_file (snd r) = db_file w)
  /\ (existsb (fun l => String.eqb (lic_id l) id) (licenses d) = true ->
      forall customerId plan issuedAt expiresAt,
        let r := createLicense config id customerId plan issuedAt expiresAt w in
        (exists e, fst r = Throw e) /\ db (snd r) = db w /\ db_file (snd r) = db_file w).
Proof.
  intros Hd. split.
  - intros Htaken email s r. unfold r.
    rewrite (createCustomer_run _ _ _ w d Hd), write_run. simpl db. rewrite Hd.
    unfold insert_customer. simpl cust_id. rewrite Htaken. simpl. eauto.
  - intros Htaken customerId plan issuedAt expiresAt r. unfold r.
    rewrite (createLicense_run _ _ _ _ _ w d Hd), write_run. simpl db. rewrite Hd.
    unfold insert_license. simpl lic_id. rewrite Htaken. simpl. eauto.
Qed.

End StoreFacts.

(** ** Keys and signatures as text *)

Lemma hexToBytes_pair (c : ascii) :
  ToUint8 (parseInt16
             (String (hex_digit (N_of_ascii c / 16))
                (String (hex_digit (N_of_ascii c mod 16)) "")))
  = c.
Proof.
  destruct c as [[|] [|] [|] [|] [|] [|] [|] [|]]; reflexivity.
Qed.

Lemma hexToBytes_length (hex : string) :
  forall n, (String.length hex <= n)%nat ->
            List.length (hexToBytes hex) = (String.length hex / 2)%nat.
Proof.
  intros n. revert hex. induction n as [| n IH]; intros hex Hn.
  - destruct hex; [reflexivity | simpl in Hn; lia].
  - destruct hex as [| a [| b rest]]; [reflexivity | reflexivity |].
    cbn [hexToBytes List.length String.length].
    rewrite IH by (simpl in Hn; lia).
    change (S (S (String.length rest))) with (2 + String.length rest)%nat.
    replace (2 + String.length rest)%nat with (String.length rest + 1 * 2)%nat by lia.
    rewrite Nat.div_add by lia. lia.
Qed.

(** X16.  [hexToBytes] reads back a key printed in hexadecimal, and reads
    [hex.length / 2] bytes (rounded down) from any text. *)
Theorem hexToBytes_round_trip (bytes : Uint8Array) (hex : string) :
  hexToBytes (Buffer_toString_hex bytes) = bytes
  /\ List.length (hexToBytes hex) = (String.length hex / 2)%nat.
Proof.
  split; [| now apply (hexToBytes_length hex (String.length hex))].
  unfold Buffer_toString_hex.
  induction bytes as [| c bytes IH]; [reflexivity |].
  cbn [map String.concat].
  destruct bytes as [| c' bytes'].
  - cbn [map String.concat hexToBytes]. now rewrite hexToBytes_pair.
  - cbn [map] in *.
    change (String.concat "" (?x :: ?y :: ?l)) with (x ++ "" ++ String.concat "" (y :: l))%string.
    cbn [append hexToBytes]. rewrite hexToBytes_pair. f_equal. exact IH.
Qed.

Lemma hex_prefix_stops (s : string) :
  match s with
  | String c _ => hex_value c = None
  | EmptyString => True
  end ->
  hex_prefix None s = None.
Proof. destruct s as [| c s]; simpl; [reflexivity |]. now intros ->. Qed.

Lemma strip_0x_no_digit (s : string) :
  match s with
  | String c _ => hex_value c = None
  | EmptyString => True
  end ->
  strip_0x s = s.
Proof.
  destruct s as [| c s]; [reflexivity |].
  destruct c as [[|] [|] [|] [|] [|] [|] [|] [|]]; try reflexivity.
  discriminate.
Qed.

Lemma skip_StrWhiteSpace_no_digit (s : string) :
  Forall (fun c => hex_value c = None) (list_ascii_of_string s) ->
  Forall (fun c => hex_value c = None) (list_ascii_of_string (skip_StrWhiteSpace s)).
Proof.
  induction s as [| c s IH]; simpl; [auto |].
  intros H. inversion H; subst. destruct (is_StrWhiteSpaceChar c); auto.
Qed.

(** A text without a hexadecimal digit is not a number. *)
Lemma parseInt16_no_digit (s : string) :
  Forall (fun c => hex_value c = None) (list_ascii_of_string s) ->
  parseInt16 s = None.
Proof.
  intros H. apply skip_StrWhiteSpace_no_digit in H. unfold parseInt16.
  destruct (skip_StrWhiteSpace s) as [| c r]; [reflexivity |].
  simpl in H. inversion H as [| ? ? Hc Hr]; subst.
  assert (Hhead : match r with
                  | String c' _ => hex_value c' = None
                  | EmptyString => True
                  end)
    by (destruct r; [exact I | simpl in Hr; now inversion Hr]).
  assert (Hr' : hex_prefix None (strip_0x r) = None)
    by (rewrite strip_0x_no_digit by exact Hhead; now apply hex_prefix_stops).
  assert (Hall : hex_prefix None (strip_0x (String c r)) = None)
    by (rewrite strip_0x_no_digit by exact Hc; now apply hex_prefix_stops).
  destruct c as [[|] [|] [|] [|] [|] [|] [|] [|]];
    first [exact Hall | now rewrite Hr'].
Qed.

(** X17.  [hexToBytes] raises no error on a text that is not hexadecimal:
    a text without any hexadecimal digit is read as zero bytes, one for
    every two characters. *)
Theorem hexToBytes_without_digits (hex : string) :
  Forall (fun c => hex_value c = None) (list_ascii_of_string hex) ->
  hexToBytes hex = repeat (ascii_of_N 0) (String.length hex / 2).
Proof.
  remember (String.length hex) as n eqn:Hn. revert hex Hn.
  induction n as [n IH] using lt_wf_ind. intros hex Hn H.
  destruct hex as [| a [| b rest]]; subst n; [reflexivity | reflexivity |].
  cbn [hexToBytes String.length].
  change (S (S (String.length rest))) with (2 + String.length rest)%nat.
  replace (2 + String.length rest)%nat with (String.length rest + 1 * 2)%nat by lia.
  rewrite Nat.div_add by lia. rewrite Nat.add_1_r. cbn [repeat].
  simpl in H. inversion H as [| ? ? Ha H']; subst. inversion H' as [| ? ? Hb Hrest]; subst.
  rewrite parseInt16_no_digit by (simpl; auto). f_equal.
  apply (IH (String.length rest)); [simpl; lia | reflexivity | exact Hrest].
Qed.

(** X18.  [base64ToBytes] reads back what [bytesToBase64] writes, and the
    text of [n] bytes has [4 * ceil(n / 3)] characters, padding
    included. *)
Theorem bytesToBase64_round_trip (bytes : Uint8Array) :
  base64ToBytes (bytesToBase64 bytes) = bytes
  /\ String.length (bytesToBase64 bytes) = (4 * ((List.length bytes + 2) / 3))%nat.
Proof.
  split; [apply base64ToBytes_bytesToBase64 |].
  now destruct (base64_encode_length (List.length bytes) bytes).
Qed.

(** ** What the signature covers *)

Lemma In_PropertyList_of (seen keys : list string) (k : string) :
  In k (PropertyList_of seen keys) -> In k keys.
Proof.
  revert seen. induction keys as [| x keys IH]; intros seen; simpl; [auto |].
  destruct (existsb (String.eqb x) seen); simpl; intros H; [eauto |].
  destruct H; eauto.
Qed.

Lemma In_canonical_keys (o : jsobject) (k : string) :
  In k (PropertyList_of [] (Array_sort (Object_keys o))) -> In k (Object_keys o).
Proof.
  intros H. apply In_PropertyList_of in H.
  eapply Permutation_in; [apply Array_sort_is_perm | exact H].
Qed.

(** Under a PropertyList, an object none of whose keys is listed is
    written as the empty object. *)
Lemma SerializeJSON_unlisted (K : list string) (inner : jsobject) :
  (forall k, In k K -> obj_get k inner = None) ->
  SerializeJSON (Some K) "" "" (JObj inner) = "{}".
Proof.
  intros H. rewrite SerializeJSON_object.
  assert (Hnone : forall (f : jsval -> string) (sep : string) (L : list string),
             (forall k, In k L -> obj_get k inner = None) ->
             flat_map (fun P => match option_map f (obj_get P inner) with
                                | Some strP => [(QuoteJSONString P ++ sep ++ strP)%string]
                                | None => []
                                end) L = []).
  { intros f sep L HL. induction L as [| P L IH]; [reflexivity |].
    cbn [flat_map]. rewrite (HL P) by (now left). cbn [option_map app].
    apply IH. intros k Hk. apply HL. now right. }
  now rewrite Hnone.
Qed.

Lemma obj_get_set (k k0 : string) {V} (x : V) (o : list (string * V)) :
  obj_get k0 (obj_set k x o) = if String.eqb k0 k then Some x else obj_get k0 o.
Proof.
  destruct (String.eqb k0 k) eqn:E.
  - apply String.eqb_eq in E. subst. apply obj_get_set_same.
  - apply String.eqb_neq in E. now apply obj_get_set_other.
Qed.

Lemma obj_remove_set_other {V} (k k0 : string) (x : V) (o : list (string * V)) :
  k <> k0 -> obj_get k o <> None ->
  obj_remove k0 (obj_set k x o) = obj_set k x (obj_remove k0 o).
Proof.
  intros Hne. unfold obj_remove.
  induction o as [| [k' v'] o IH]; simpl; [intros H; now elim H |].
  destruct (String.eqb k k') eqn:E; simpl.
  - intros _. apply String.eqb_eq in E. subst k'.
    assert (E0 : String.eqb k0 k = false)
      by (apply String.eqb_neq; congruence).
    rewrite E0. simpl. now rewrite String.eqb_refl.
  - intros H. destruct (String.eqb k0 k') eqn:E'; simpl.
    + now apply IH.
    + rewrite E. f_equal. now apply IH.
Qed.

(** Canonicalization writes a nested object through the list of the
    top-level keys. *)
Lemma canonicalize_nested (o : jsobject) (k : string) (inner inner' : jsobject) :
  obj_get k o <> None ->
  (forall k', In k' (Object_keys o) -> obj_get k' inner = None) ->
  (forall k', In k' (Object_keys o) -> obj_get k' inner' = None) ->
  canonicalize (obj_set k (JObj inner) o) = canonicalize (obj_set k (JObj inner') o).
Proof.
  intros Hk Hin Hin'. rewrite !canonicalize_unfold.
  assert (Hkeys : forall x, Object_keys (obj_set k x o) = Object_keys o).
  { intros x. unfold Object_keys. rewrite keys_obj_set.
    destruct (existsb (String.eqb k) (map fst o)) eqn:E; [reflexivity |].
    elim Hk. apply obj_get_None_keys. exact E. }
  rewrite !Hkeys. rewrite !SerializeJSON_object. f_equal.
  apply flat_map_ext. intros P. rewrite !obj_get_set.
  destruct (String.eqb P k); [| reflexivity].
  cbn [option_map].
  rewrite !SerializeJSON_unlisted; [reflexivity | |];
    intros k' Hk'; apply In_canonical_keys in Hk'; auto.
Qed.

Lemma keys_remove_In {V} (k k' : string) (o : list (string * V)) :
  In k' (Object_keys (obj_remove k o)) -> In k' (Object_keys o).
Proof.
  unfold Object_keys, obj_remove. intros H.
  apply in_map_iff in H as (kv & <- & Hin). apply filter_In in Hin as [Hin _].
  now apply in_map.
Qed.

Lemma obj_remove_perm {V} (k : string) (o o' : list (string * V)) :
  Permutation o o' -> Permutation (obj_remove k o) (obj_remove k o').
Proof.
  unfold obj_remove. induction 1 as [| x l l' _ IH | x y l | l1 l2 l3 _ IH1 _ IH2]; simpl.
  - constructor.
  - destruct (negb _); [now constructor | assumption].
  - destruct (negb (String.eqb k (fst x))), (negb (String.eqb k (fst y)));
      try reflexivity. constructor.
  - now transitivity (filter (fun kv => negb (String.eqb k (fst kv))) l2).
Qed.

Section Coverage.

Variable config : Config.
Context {ED : Ed25519} {NB : NodeBuffer}.

Lemma verifyLicense_try_object (props : jsobject) :
  verifyLicense_try config (JObj props)
  = exc_bind (Buffer_from (obj_get "signature" props))
      (fun sig => ed_verifyAsync sig (verified_message props)
                    (hexToBytes (licensePublicKey config))).
Proof. reflexivity. Qed.

(** X19.  The signature does not cover what is nested: [canonicalize]
    writes a nested object through the list of the top-level keys, so a
    field holding an object none of whose keys is a top-level key is signed
    as the empty object.  Replacing such an object by another one leaves
    the signed message, and the answer of [verifyLicense], as they are. *)
Theorem nested_fields_are_not_signed
    (props : jsobject) (k : string) (inner inner' : jsobject) :
  k <> "signature" -> obj_get k props <> None ->
  (forall k', In k' (Object_keys props) -> obj_get k' inner = None) ->
  (forall k', In k' (Object_keys props) -> obj_get k' inner' = None) ->
  verified_message (obj_set k (JObj inner) props)
  = verified_message (obj_set k (JObj inner') props)
  /\ verifyLicense config (JObj (obj_set k (JObj inner) props))
     = verifyLicense config (JObj (obj_set k (JObj inner') props)).
Proof.
  intros Hk Hhas Hin Hin'.
  assert (Hmsg : verified_message (obj_set k (JObj inner) props)
                 = verified_message (obj_set k (JObj inner') props)).
  { unfold verified_message. f_equal.
    rewrite !obj_remove_set_other by assumption.
    apply canonicalize_nested.
    - now rewrite obj_get_remove_other.
    - intros k' Hk'. apply Hin. eapply keys_remove_In; eauto.
    - intros k' Hk'. apply Hin'. eapply keys_remove_In; eauto. }
  split; [exact Hmsg |].
  unfold verifyLicense. rewrite !verifyLicense_try_object, Hmsg.
  rewrite !obj_get_set_other by congruence. reflexivity.
Qed.

(** X20.  [verifyLicense] does not depend on the order of the fields of the
    credential it is given (the signature included). *)
Theorem verifyLicense_any_field_order (props props' : jsobject) :
  NoDup (Object_keys props) -> Permutation props props' ->
  verifyLicense config (JObj props) = verifyLicense config (JObj props').
Proof.
  intros Hnd Hp. unfold verifyLicense. rewrite !verifyLicense_try_object.
  rewrite (obj_get_perm "signature" props props' Hnd Hp).
  unfold verified_message.
  rewrite (canonicalize_perm (obj_remove "signature" props)
             (obj_remove "signature" props'));
    [reflexivity | now apply keys_remove_NoDup | now apply obj_remove_perm].
Qed.

End Coverage.

(** ** Expiry *)

(** X21.  [isLicenseExpired] answers true exactly when [expires_at] reads
    as a date strictly before the current time.  A license is not expired
    at the instant of its expiry, and a license whose [expires_at] does not
    read as a date never expires. *)
Theorem isLicenseExpired_spec {DP : DateParser} (license : SignedLicense) (w : World) :
  fst (isLicenseExpired license w) = Ok true
  <-> exists t, Date_parse (expires_at license) = ValidDate t /\ t < clock w (ticks w).
Proof.
  unfold isLicenseExpired, bind, new_Date, bind, Date_now, ret, Date_lt. simpl.
  destruct (Date_parse (expires_at license)) as [t |]; simpl; split.
  - intros [= H]. exists t. split; [reflexivity | now apply Z.ltb_lt].
  - intros (t' & [= <-] & H). f_equal. now apply Z.ltb_lt.
  - discriminate.
  - intros (t' & H & _). discriminate.
Qed.

(** ** Issuing a license *)

Lemma toISOString_ISO_of (t : Z) : toISOString (ValidDate t) = Ok (ISO_of t).
Proof. unfold ISO_of. now destruct (toISOString_valid t) as [s ->]. Qed.

Section Issuing.

Variable config : Config.
Context {JP : JSONParser} {ED : Ed25519}.

Lemma key_signs_signLicense (payload : jsobject) :
  key_signs config -> exists signed, signLicense config payload = Ok signed.
Proof.
  intros Hkey. unfold signLicense.
  destruct (Hkey (TextEncoder_encode (canonicalize payload))) as [sig ->].
  simpl. eauto.
Qed.

Lemma issue_license_run (event : PaymentEvent) (customer_id : string)
    (w : World) (d : Database) (expires : Z) :
  db w = Some d ->
  key_signs config ->
  getTime (expiry event (ValidDate (clock w (ticks w)))) = Some expires ->
  existsb (fun l => String.eqb (lic_id l) (uuids w (drawn w))) (licenses d) = false ->
  let id := uuids w (drawn w) in
  let row := issued_row event id customer_id (clock w (ticks w)) expires
               (clock w (S (ticks w))) in
  issue_license config event customer_id w
  = (Ok {| success := true; customerId := Some customer_id; licenseId := Some id;
           error := None |},
     issued_world config row d w).
Proof.
  intros Hd Hkey Hexp Hfresh id row.
  unfold issue_license, bind at 1, new_Date, bind at 1, Date_now, ret.
  cbv beta iota.
  unfold bind at 1, lift. rewrite toISOString_ISO_of.
  assert (He : expiry event (ValidDate (clock w (ticks w))) = ValidDate expires).
  { destruct (expiry event _); simpl in Hexp; [congruence | discriminate]. }
  rewrite He. unfold bind at 1. rewrite toISOString_ISO_of.
  unfold bind at 1.
  destruct (key_signs_signLicense
              (LicensePayload_literal (plan_string (ev_plan event)) customer_id
                 (ISO_of (clock w (ticks w))) (ISO_of expires)) Hkey) as [signed ->].
  unfold bind at 1, uuid. cbv beta iota.
  unfold bind at 1.
  rewrite (createLicense_run config _ _ _ _ _ _ d) by exact Hd.
  rewrite write_run. simpl db. rewrite Hd.
  unfold insert_license. simpl lic_id. simpl licenses. simpl drawn. simpl uuids.
  rewrite Hfresh. reflexivity.
Qed.

Lemma issued_world_db (l : LicenseRow) (d : Database) (w : World) :
  db (issued_world config l d w) = Some (with_license l d).
Proof. unfold issued_world. destruct (String.eqb _ _); reflexivity. Qed.

Lemma customer_world_facts (c : CustomerRow) (d : Database) (w : World) :
  let w' := customer_world config c d w in
  db w' = Some (with_customer c d) /\ clock w' = clock w /\ uuids w' = uuids w
  /\ ticks w' = S (ticks w) /\ drawn w' = drawn w.
Proof. unfold customer_world. destruct (String.eqb _ _); repeat split. Qed.

Lemma createCustomer_fresh (id email : string) (s : option string)
    (w : World) (d : Database) :
  db w = Some d ->
  existsb (fun c => String.eqb (cust_id c) id) (customers d) = false ->
  createCustomer config id email s w
  = (Ok tt,
     customer_world config
       {| cust_id := id; cust_email := email; cust_stripe_customer_id := or_null s;
          cust_created_at := clock w (ticks w) / 1000 |} d w).
Proof.
  intros Hd Hfresh.
  rewrite (createCustomer_run config _ _ _ w d Hd), write_run. simpl db. rewrite Hd.
  unfold insert_customer. simpl cust_id. rewrite Hfresh. reflexivity.
Qed.

(** X22.  A checkout for an email that is known issues a license for that
    customer and creates no customer: the result carries the customer's id
    and the id drawn for the license, and the license table gets one row
    more, with the event's plan, issued at the current time and expiring at
    the event's [expiresAt] or else 365 days later; no other row changes. *)
Theorem checkout_known_customer
    (event : PaymentEvent) (w : World) (d : Database) (c : CustomerRow) (expires : Z) :
  eventType event = checkout_completed ->
  db w = Some d ->
  find (fun c => String.eqb (cust_email c) (email event)) (customers d) = Some c ->
  key_signs config ->
  getTime (expiry event (ValidDate (clock w (ticks w)))) = Some expires ->
  existsb (fun l => String.eqb (lic_id l) (uuids w (drawn w))) (licenses d) = false ->
  let id := uuids w (drawn w) in
  let row := issued_row event id (cust_id c) (clock w (ticks w)) expires
               (clock w (S (ticks w))) in
  fst (processPaymentEvent config event w)
  = Ok {| success := true; customerId := Some (cust_id c); licenseId := Some id;
          error := None |}
  /\ db (snd (processPaymentEvent config event w)) = Some (with_license row d).
Proof.
  intros Hty Hd Hfind Hkey Hexp Hfresh id row.
  assert (Hrun : processPaymentEvent config event w
                 = (Ok {| success := true; customerId := Some (cust_id c);
                          licenseId := Some id; error := None |},
                    issued_world config row d w)).
  { rewrite processPaymentEvent_run. unfold try_catch, dispatch. rewrite Hty.
    unfold handleCheckoutCompleted, bind at 1, findCustomerByEmail, bind at 1, getDb, ret.
    rewrite Hd. cbv beta iota. rewrite Hfind. unfold bind at 1. cbv beta iota.
    now rewrite (issue_license_run event (cust_id c) w d expires Hd Hkey Hexp Hfresh). }
  rewrite Hrun. split; [reflexivity | apply issued_world_db].
Qed.

(** X23.  A checkout for an email that is not known creates the customer
    and issues the license: the result carries the two ids drawn, the
    customer table gets one row more (with the external customer id when
    the provider is Stripe, and without it when the provider is Paddle),
    and the license table gets one row more, for the new customer. *)
Theorem checkout_new_customer
    (event : PaymentEvent) (w : World) (d : Database) (expires : Z) :
  eventType event = checkout_completed ->
  db w = Some d ->
  find (fun c => String.eqb (cust_email c) (email event)) (customers d) = None ->
  key_signs config ->
  getTime (expiry event (ValidDate (clock w (S (ticks w))))) = Some expires ->
  existsb (fun c => String.eqb (cust_id c) (uuids w (drawn w))) (customers d) = false ->
  existsb (fun l => String.eqb (lic_id l) (uuids w (S (drawn w)))) (licenses d) = false ->
  let customer := uuids w (drawn w) in
  let license := uuids w (S (drawn w)) in
  let crow := checkout_customer event customer (clock w (ticks w)) in
  let row := issued_row event license customer (clock w (S (ticks w))) expires
               (clock w (S (S (ticks w)))) in
  fst (processPaymentEvent config event w)
  = Ok {| success := true; customerId := Some customer; licenseId := Some license;
          error := None |}
  /\ db (snd (processPaymentEvent config event w))
     = Some (with_license row (with_customer crow d)).
Proof.
  intros Hty Hd Hfind Hkey Hexp Hfresh_c Hfresh_l customer license crow row.
  assert (Hrun : exists w',
             processPaymentEvent config event w
             = (Ok {| success := true; customerId := Some customer;
                      licenseId := Some license; error := None |}, w')
             /\ db w' = Some (with_license row (with_customer crow d)));
    [| destruct Hrun as (w' & -> & Hdb); split; [reflexivity | exact Hdb]].
  rewrite processPaymentEvent_run. unfold try_catch, dispatch. rewrite Hty.
  unfold handleCheckoutCompleted, bind at 1, findCustomerByEmail, bind at 1, getDb, ret.
  rewrite Hd. cbv beta iota. rewrite Hfind.
  unfold bind at 1, bind at 1, uuid. cbv beta iota. unfold bind at 1.
  rewrite (createCustomer_fresh _ _ _ _ d) by (simpl; assumption).
  cbv beta iota.
  match goal with
  | |- context [customer_world config ?r d ?w0] =>
      replace r with crow
        by (unfold crow, checkout_customer; simpl; destruct (provider event); reflexivity);
      destruct (customer_world_facts crow d w0) as (Hd' & Hc' & Hu' & Ht' & Hn');
      set (w2 := customer_world config crow d w0) in *
  end.
  simpl in Hc', Hu', Ht', Hn'.
  fold customer.
  rewrite (issue_license_run event customer w2 (with_customer crow d) expires Hd' Hkey).
  - rewrite Hc', Hu', Ht', Hn'. eexists. split; [reflexivity | apply issued_world_db].
  - now rewrite Hc', Ht'.
  - now rewrite Hu', Hn'.
Qed.


(** [issue_license] stores a license or leaves the database as it is. *)
Lemma issue_license_all_or_nothing (event : PaymentEvent) (customer_id : string)
    (w : World) :
  match issue_license config event customer_id w with
  | (Ok r, _) => success r = true
  | (Throw _, w') => db w' = db w
  end.
Proof.
  unfold issue_license, bind at 1, new_Date, bind at 1, Date_now, ret. cbv beta iota.
  unfold bind at 1, lift. rewrite toISOString_ISO_of.
  unfold bind at 1.
  destruct (toISOString (expiry event _)) as [expires_at | e]; [| reflexivity].
  unfold bind at 1. destruct (signLicense config _) as [signed | e]; [| reflexivity].
  unfold bind at 1, uuid. cbv beta iota. unfold bind at 1.
  destruct (db w) as [d |] eqn:Hd.
  - rewrite (createLicense_run config _ _ _ _ _ _ d) by exact Hd.
    rewrite write_run. simpl db. rewrite Hd.
    destruct (insert_license _ d) as [d' | e]; [reflexivity | simpl; congruence].
  - unfold createLicense, bind, getDb. simpl. rewrite Hd. simpl. congruence.
Qed.

(** X25.  A checkout that fails stores no license, but it is not undone:
    when it fails for an email that was not known, the customer row it
    created first stays in the table. *)
Theorem failed_checkout_keeps_customer
    (event : PaymentEvent) (w : World) (d : Database) (r : PaymentResult) :
  eventType event = checkout_completed ->
  db w = Some d ->
  find (fun c => String.eqb (cust_email c) (email event)) (customers d) = None ->
  existsb (fun c => String.eqb (cust_id c) (uuids w (drawn w))) (customers d) = false ->
  fst (processPaymentEvent config event w) = Ok r -> success r = false ->
  db (snd (processPaymentEvent config event w))
  = Some (with_customer
            (checkout_customer event (uuids w (drawn w)) (clock w (ticks w))) d).
Proof.
  intros Hty Hd Hfind Hfresh.
  set (crow := checkout_customer event (uuids w (drawn w)) (clock w (ticks w))).
  set (w2 := customer_world config crow d (set_drawn (S (drawn w)) w)).
  assert (Hrun : processPaymentEvent config event w
                 = try_catch (issue_license config event (uuids w (drawn w)))
                     (fun err => ret (failure (String_of_error err))) w2).
  { rewrite processPaymentEvent_run. unfold try_catch, dispatch. rewrite Hty.
    unfold handleCheckoutCompleted, bind at 1, findCustomerByEmail, bind at 1, getDb, ret.
    rewrite Hd. cbv beta iota. rewrite Hfind.
    unfold bind at 1, bind at 1, uuid. cbv beta iota. unfold bind at 1.
    rewrite (createCustomer_fresh _ _ _ _ d) by (simpl; assumption).
    cbv beta iota.
    match goal with
    | |- context [customer_world config ?row d ?w0] =>
        replace row with crow
          by (unfold crow, checkout_customer; simpl; destruct (provider event);
              reflexivity)
    end.
    reflexivity. }
  rewrite Hrun. unfold try_catch.
  destruct (customer_world_facts crow d (set_drawn (S (drawn w)) w)) as (Hd' & _).
  fold w2 in Hd'.
  pose proof (issue_license_all_or_nothing event (uuids w (drawn w)) w2) as Hall.
  destruct (issue_license config event (uuids w (drawn w)) w2) as [[r0 | e0] w3];
    simpl in *.
  - intros [= <-] Hfalse. congruence.
  - intros _ _. congruence.
Qed.

Lemma unknown_customer_run (event : PaymentEvent) (w : World) (d : Database) :
  eventType event = subscription_updated \/ eventType event = subscription_cancelled ->
  db w = Some d ->
  find (fun c => String.eqb (cust_email c) (email event)) (customers d) = None ->
  processPaymentEvent config event w = (Ok (failure "Customer not found"), w).
Proof.
  intros Hty Hd Hfind.
  rewrite processPaymentEvent_run. unfold try_catch, dispatch.
  destruct Hty as [-> | ->];
    unfold handleSubscriptionUpdated, handleSubscriptionCancelled,
      bind, findCustomerByEmail, bind, getDb, ret;
    rewrite Hd; simpl; rewrite Hfind; reflexivity.
Qed.

Lemma no_database_run (event : PaymentEvent) (w : World) :
  eventType event = checkout_completed \/ eventType event = subscription_updated
  \/ eventType event = subscription_cancelled ->
  db w = None ->
  processPaymentEvent config event w
  = (Ok (failure "Error: Database not initialized. Call initDb() first."), w).
Proof.
  intros Hty Hd.
  rewrite processPaymentEvent_run. unfold try_catch, dispatch.
  destruct Hty as [-> | [-> | ->]];
    unfold handleCheckoutCompleted, handleSubscriptionUpdated,
      handleSubscriptionCancelled, bind, findCustomerByEmail, bind, getDb, ret;
    rewrite Hd; reflexivity.
Qed.

(** X26.  An event that cannot be served is refused without a trace.
    Before [initDb()], a checkout, an update and a cancellation are answered
    with a failure carrying the error of [getDb]; after it, an update and a
    cancellation for an email no customer has are answered with the failure
    [Customer not found].  In both cases the world is left as it was: no
    customer is created, nothing is revoked. *)
Theorem refused_events_change_nothing (event : PaymentEvent) (w : World) :
  (db w = None
   /\ (eventType event = checkout_completed \/ eventType event = subscription_updated
       \/ eventType event = subscription_cancelled))
  \/ ((eventType event = subscription_updated
       \/ eventType event = subscription_cancelled)
      /\ exists d, db w = Some d
                   /\ find (fun c => String.eqb (cust_email c) (email event))
                        (customers d) = None) ->
  processPaymentEvent config event w
  = (Ok (failure (match db w with
                  | None => "Error: Database not initialized. Call initDb() first."
                  | Some _ => "Customer not found"
                  end)), w).
Proof.
  intros [[Hd Hty] | [Hty (d & Hd & Hfind)]]; rewrite Hd.
  - now apply no_database_run.
  - now apply (unknown_customer_run event w d).
Qed.

(** X27.  A cancellation on a registry file that holds JSON without an
    array of entries fails, and revokes nothing: the answer is a failure,
    no license row is stamped and the registry file is left as it is. *)
Theorem cancellation_on_misshapen_registry
    (event : PaymentEvent) (w : World) (d : Database) (c : CustomerRow) :
  eventType event = subscription_cancelled ->
  db w = Some d ->
  find (fun c => String.eqb (cust_email c) (email event)) (customers d) = Some c ->
  registry_misshapen w ->
  let w' := snd (processPaymentEvent config event w) in
  (exists message, fst (processPaymentEvent config event w) = Ok (failure message))
  /\ db w' = Some d /\ revoked_file w' = revoked_file w.
Proof.
  intros Hty Hd Hfind Hbad w'. unfold w'. clear w'.
  set (reason := ("Subscription cancelled via " ++ provider_string (provider event))%string).
  destruct (addRevocation_misshapen w (cust_id c) reason Hbad)
    as ((e & Hthrow) & Hfile).
  destruct (addRevocation_same_database (cust_id c) reason w) as [Hdb _].
  remember (processPaymentEvent config event w) as run eqn:Hrun.
  rewrite processPaymentEvent_run in Hrun. unfold try_catch, dispatch in Hrun. rewrite Hty in Hrun.
  unfold handleSubscriptionCancelled, bind at 1, findCustomerByEmail, bind at 1,
    getDb, ret in Hrun.
  rewrite Hd in Hrun. cbv beta iota in Hrun. rewrite Hfind in Hrun.
  unfold bind at 1 in Hrun. fold reason in Hrun.
  destruct (addRevocation (cust_id c) reason w) as [[[] | e0] w1]; simpl in *;
    [discriminate |].
  subst run. simpl.
  split; [eexists; reflexivity |]. split; congruence.
Qed.

End Issuing.

(** ** The routes *)

Lemma plan_of_items_PRO (items : list PaddleItem) : plan_of_items items = PRO.
Proof.
  induction items as [| item rest IH]; simpl; [reflexivity |].
  destruct (match planFromCustomData item with Some _ => _ | None => _ end);
    [reflexivity |].
  destruct (_ || _); [reflexivity | exact IH].
Qed.

(** X28.  Both routes map a purchase to the plan [PRO] whatever was
    bought: [determinePlanFromItems] answers [FREE] only when there is no
    item at all, and [determinePlanFromPriceId] only when there is no price
    id; the name of the product, its [custom_data.plan] and the configured
    price id never make a difference. *)
Theorem plan_is_FREE_only_without_purchase :
  (forall items,
     determinePlanFromItems items = FREE <-> items = None \/ items = Some [])
  /\ (forall proPriceId priceId,
        determinePlanFromPriceId proPriceId priceId = FREE <-> truthy priceId = false).
Proof.
  split.
  - intros [[| item rest] |]; unfold determinePlanFromItems; try tauto.
    rewrite plan_of_items_PRO. split; [discriminate | intros [H | H]; discriminate].
  - intros proPriceId [id |]; simpl; [| tauto].
    destruct (String.eqb id ""); simpl; [tauto |].
    destruct (truthy proPriceId && _); [split; discriminate |].
    destruct (_ || _); split; discriminate.
Qed.

Lemma timingSafeEqual_true (a b : string) :
  timingSafeEqual (Buffer_from_string a) (Buffer_from_string b) = Ok true <-> a = b.
Proof.
  unfold timingSafeEqual, Buffer_from_string. split.
  - destruct (negb _); [discriminate |]. intros [= H].
    apply String.eqb_eq in H.
    apply TextEncoder_encode_injective.
    rewrite <- (list_ascii_of_string_of_list_ascii (TextEncoder_encode a)).
    rewrite <- (list_ascii_of_string_of_list_ascii (TextEncoder_encode b)).
    now rewrite H.
  - intros ->. rewrite Nat.eqb_refl. simpl. now rewrite String.eqb_refl.
Qed.

(** X29.  [verifyPaddleSignature] never throws.  Without a secret
    ([undefined] or empty) it accepts every payload with every signature.
    With a secret it accepts exactly when the signature header has a part
    [ts=...] and a part [h1=...], the timestamp is not a number or lies
    within 300 seconds of the current time, and the text after [h1=] is the
    HMAC of the text after [ts=], a colon and the payload. *)
Theorem verifyPaddleSignature_spec {NC : NodeCrypto}
    (payload signature : string) (secret : option string) (w : World) :
  (exists answer w', verifyPaddleSignature payload signature secret w = (Ok answer, w'))
  /\ (truthy secret = false ->
      verifyPaddleSignature payload signature secret w = (Ok true, w))
  /\ (forall key, secret = Some key -> key <> "" ->
      (fst (verifyPaddleSignature payload signature secret w) = Ok true
       <-> exists tsMatch h1Match,
             find (String.prefix "ts=") (split ";" signature) = Some tsMatch
             /\ find (String.prefix "h1=") (split ";" signature) = Some h1Match
             /\ too_old (clock w (ticks w) / 1000) (parseInt10 (slice 3 tsMatch)) = false
             /\ slice 3 h1Match
                = hmac_sha256_hex key (slice 3 tsMatch ++ ":" ++ payload)%string)).
Proof.
  split; [| split].
  - unfold verifyPaddleSignature. destruct secret as [key |]; [| unfold ret; eauto].
    destruct (String.eqb key ""); [unfold ret; eauto |].
    unfold try_catch.
    match goal with |- context [?c w] => destruct (c w) as [[b | e] w'] end;
      unfold ret; eauto.
  - unfold verifyPaddleSignature. destruct secret as [key |]; [| reflexivity].
    simpl. destruct (String.eqb key ""); [reflexivity | discriminate].
  - intros key -> Hkey. unfold verifyPaddleSignature.
    apply String.eqb_neq in Hkey. rewrite Hkey.
    unfold try_catch. cbv zeta.
    destruct (find (String.prefix "ts=") (split ";" signature)) as [tsMatch |].
    + destruct (find (String.prefix "h1=") (split ";" signature)) as [h1Match |].
      * unfold bind, Date_now, ret, lift.
        destruct (too_old _ _) eqn:Hold.
        -- cbn [fst]. split; [discriminate |].
           intros (ts & h1 & [= <-] & [= <-] & Hold' & _). congruence.
        -- destruct (timingSafeEqual _ _) as [b | e] eqn:Heq; cbn [fst].
           ++ split.
              ** intros [= ->]. apply timingSafeEqual_true in Heq. eauto 10.
              ** intros (ts & h1 & [= <-] & [= <-] & _ & Hmac).
                 apply timingSafeEqual_true in Hmac. congruence.
           ++ split; [discriminate |].
              intros (ts & h1 & [= <-] & [= <-] & _ & Hmac).
              apply timingSafeEqual_true in Hmac. congruence.
      * cbn [fst]. split; [discriminate | intros (ts & h1 & _ & H & _); discriminate].
    + cbn [fst]. split; [discriminate | intros (ts & h1 & H & _); discriminate].
Qed.

Section PaddleFacts.

Variable config : Config.
Context {JP : JSONParser} {JL : JSONParserLaws JP} {ED : Ed25519} {DP : DateParser}.

(** X30.  A Paddle webhook [subscription.canceled] whose [custom_data]
    carries the email of a known customer revokes that customer, in the
    registry and on the license rows; a webhook without an email in
    [custom_data] is dropped by every handler, and nothing changes. *)
Theorem paddle_cancellation_revokes
    (event : PaddleWebhookEvent) (w : World) (d : Database) :
  (truthy (PaddleRoute.custom_email (data event)) = false ->
   PaddleRoute.handleTransactionCompleted config event w = (Ok tt, w)
   /\ PaddleRoute.handleSubscriptionUpdated config event w = (Ok tt, w)
   /\ PaddleRoute.handleSubscriptionCanceled config event w = (Ok tt, w))
  /\ (forall E c,
        PaddleRoute.custom_email (data event) = Some E -> E <> "" ->
        db w = Some d ->
        find (fun c => String.eqb (cust_email c) E) (customers d) = Some c ->
        registry_ok w ->
        let w' := snd (PaddleRoute.handleSubscriptionCanceled config event w) in
        fst (PaddleRoute.handleSubscriptionCanceled config event w) = Ok tt
        /\ fst (isRevoked (cust_id c) w') = Ok true
        /\ exists revokedAt,
             db w' = Some {| customers := customers d;
                             licenses := map (revoke_row revokedAt (cust_id c))
                                           (licenses d) |}).
Proof.
  split.
  - unfold PaddleRoute.handleTransactionCompleted, PaddleRoute.handleSubscriptionUpdated,
      PaddleRoute.handleSubscriptionCanceled.
    destruct (PaddleRoute.custom_email (data event)) as [E |]; simpl; [| auto].
    destruct (String.eqb E ""); [auto | discriminate].
  - intros E c Hmail HE Hd Hfind Hok w'. unfold w'. clear w'.
    unfold PaddleRoute.handleSubscriptionCanceled. rewrite Hmail.
    apply String.eqb_neq in HE. rewrite HE.
    match goal with
    | |- context [processPaymentEvent config ?e] =>
        destruct (cancel_step config e w d c eq_refl Hd Hfind Hok)
          as (w1 & t & t' & Hrun & Hok1 & Hent1 & Hdb1)
    end.
    unfold bind. rewrite Hrun. unfold cancelled, ret. simpl.
    split; [reflexivity |]. split; [| eauto].
    rewrite (isRevoked_spec _ _ Hok1), Hent1.
    destruct (existsb (matchesb (cust_id c)) (registry_entries w)) eqn:Hin;
      [now rewrite Hin |].
    rewrite existsb_app. cbn [existsb]. rewrite matchesb_revocation_entry.
    now rewrite String.eqb_refl, orb_true_r.
Qed.

End PaddleFacts.

(** ** The further properties at concrete inputs *)

Example MockDate_reads_toISOString :
  Date_parse (ISO_of 1767225601234) = ValidDate 1767225601234
  /\ Date_parse (ISO_of (-86400001)) = ValidDate (-86400001)
  /\ Date_parse "tomorrow" = InvalidDate.
Proof. vm_compute. repeat split. Qed.

Lemma test_config_key_signs : key_signs test_config.
Proof.
  intros message. destruct (test_config_keypair message) as (sig & Hsig & _). eauto.
Qed.

Lemma file_config_key_signs : key_signs file_config.
Proof. exact test_config_key_signs. Qed.

Lemma revoked_world_ok : registry_ok revoked_world.
Proof. vm_compute. do 2 eexists. repeat split. Qed.

Lemma misshapen_is_misshapen : registry_misshapen misshapen.
Proof.
  exists (JObj []). split; [vm_compute; reflexivity |].
  intros props items [= <-]. discriminate.
Qed.

Lemma addRevocation_then_revoked_witness :
  fst (isRevoked "uuid-9" (snd (addRevocation "uuid-9" "chargeback" subscribed)))
  = Ok true.
Proof.
  pose proof (addRevocation_then_revoked "uuid-9" "chargeback" subscribed I) as H.
  cbv zeta in H. destruct H as (_ & H & _). exact H.
Defined.

Lemma addRevocation_again_witness :
  revoked_file (snd (addRevocation "uuid-0" "chargeback" revoked_world))
  = revoked_file revoked_world.
Proof.
  pose proof (addRevocation_again "uuid-0" "chargeback" revoked_world
                revoked_world_ok eq_refl) as H.
  cbv zeta in H. destruct H as (_ & H & _). exact H.
Defined.

Lemma addRevocation_frame_witness :
  fst (isRevoked "uuid-1" (snd (addRevocation "uuid-0" "chargeback" subscribed)))
  = fst (isRevoked "uuid-1" subscribed).
Proof.
  pose proof (addRevocation_frame "uuid-0" "chargeback" "uuid-1" subscribed I
                ltac:(discriminate)) as H.
  cbv zeta in H. destruct H as (H & _). exact H.
Defined.

Lemma removeRevocation_spec_witness :
  fst (isRevoked "uuid-0" (snd (removeRevocation "uuid-0" revoked_world))) = Ok false.
Proof.
  pose proof (removeRevocation_spec "uuid-0" revoked_world revoked_world_ok) as H.
  cbv zeta in H. destruct H as (_ & H & _). exact H.
Defined.

Lemma addRevocation_removeRevocation_witness :
  fst (listRevocations
         (snd (removeRevocation "uuid-0"
                 (snd (addRevocation "uuid-0" "chargeback" subscribed)))))
  = fst (listRevocations subscribed).
Proof.
  pose proof (addRevocation_removeRevocation "uuid-0" "chargeback" subscribed I
                eq_refl) as H.
  cbv zeta in H. destruct H as (_ & H & _). exact H.
Defined.

Lemma registry_invariant_witness :
  registry_unique (snd (addRevocation "uuid-0" "chargeback" subscribed)).
Proof.
  assert (Hunique : registry_unique subscribed) by (intros subject; apply Nat.le_0_l).
  destruct (registry_invariant "uuid-0" "chargeback" subscribed I Hunique)
    as ((_ & _ & H) & _).
  exact H.
Defined.

Lemma misshapen_registry_throws_witness :
  exists e, fst (isRevoked "uuid-0" misshapen) = Throw e.
Proof.
  destruct (misshapen_registry_throws misshapen "uuid-0" "chargeback"
              misshapen_is_misshapen) as (H & _).
  exact H.
Defined.

Lemma only_cancellation_writes_registry_witness :
  fst (isRevoked "uuid-0" (snd (processPaymentEvent test_config paddle_checkout
                                  revoked_world)))
  = Ok true.
Proof.
  pose proof (only_cancellation_writes_registry test_config paddle_checkout
                revoked_world ltac:(discriminate)) as H.
  cbv zeta in H. destruct H as (_ & H). destruct (H "uuid-0") as (Hrev & _).
  rewrite Hrev. vm_compute. reflexivity.
Defined.

Lemma database_file_in_sync_witness :
  in_sync (snd (initDb file_config boot)) /\ in_sync file_subscribed.
Proof.
  destruct (database_file_in_sync file_config boot ltac:(discriminate))
    as (Hinit & _).
  split; [exact (Hinit eq_refl) |].
  destruct (database_file_in_sync file_config (snd (initDb file_config boot))
              ltac:(discriminate)) as (_ & Hkeep).
  destruct (Hkeep (Hinit eq_refl)) as (_ & _ & Hevent).
  exact (Hevent paddle_checkout).
Defined.

Lemma memory_database_is_stateless_witness :
  fst (findCustomerByEmail "paddle@example.com"
         (snd (initDb test_config (set_db None subscribed))))
  = Ok None.
Proof.
  destruct (memory_database_is_stateless test_config subscribed eq_refl)
    as (_ & _ & H).
  cbv zeta in H. destruct H as (_ & H). exact (H "paddle@example.com").
Defined.

Lemma file_database_survives_restart_witness :
  fst (initDb file_config (set_db None file_subscribed))
  = Ok {| customers := [paddle_customer]; licenses := [paddle_license] |}.
Proof.
  rewrite (file_database_survives_restart file_config file_subscribed
             {| customers := [paddle_customer]; licenses := [paddle_license] |}
             ltac:(discriminate) eq_refl eq_refl).
  reflexivity.
Defined.

Lemma tables_are_append_only_witness :
  exists d', db revoked_world = Some d'
             /\ grows {| customers := [paddle_customer]; licenses := [paddle_license] |} d'.
Proof.
  exact (tables_are_append_only test_config (paddle_event subscription_cancelled)
           subscribed _ subscribed_db).
Defined.

Lemma createCustomer_findCustomerByEmail_witness :
  fst (findCustomerByEmail "new@example.com"
         (snd (createCustomer test_config "cust-9" "new@example.com" None subscribed)))
  = Ok (Some {| cust_id := "cust-9"; cust_email := "new@example.com";
                cust_stripe_customer_id := None; cust_created_at := 1767225603 |}).
Proof.
  pose proof (createCustomer_findCustomerByEmail test_config "cust-9"
                "new@example.com" None subscribed _ subscribed_db eq_refl) as H.
  cbv zeta in H. destruct H as (_ & _ & H & _). exact H.
Defined.

Lemma findLicenseByCustomer_spec_witness :
  snd (findLicenseByCustomer "uuid-0" subscribed) = subscribed.
Proof.
  pose proof (findLicenseByCustomer_spec "uuid-0" subscribed _ subscribed_db) as H.
  cbv zeta in H. destruct H as (H & _). exact H.
Defined.

Lemma taken_id_is_refused_witness :
  exists e, fst (createCustomer test_config "uuid-0" "other@example.com" None
                   subscribed) = Throw e.
Proof.
  destruct (taken_id_is_refused test_config "uuid-0" subscribed _ subscribed_db)
    as (H & _).
  destruct (H eq_refl "other@example.com" None) as (Hthrow & _).
  exact Hthrow.
Defined.

Lemma hexToBytes_without_digits_witness :
  hexToBytes "zz--" = [ascii_of_N 0; ascii_of_N 0].
Proof.
  apply (hexToBytes_without_digits "zz--"). repeat constructor.
Defined.

Lemma nested_fields_are_not_signed_witness :
  verifyLicense test_config (JObj (with_limits 1))
  = verifyLicense test_config (JObj (with_limits 100)).
Proof.
  assert (Hkeys : forall seats k', In k' (Object_keys (with_limits 1)) ->
                                   obj_get k' [("seats", JNum seats)] = None).
  { intros seats k' Hin. vm_compute in Hin.
    repeat (destruct Hin as [<- | Hin]; [reflexivity |]). contradiction. }
  destruct (nested_fields_are_not_signed test_config (with_limits 1) "limits"
              [("seats", JNum 1)] [("seats", JNum 100)]
              ltac:(discriminate) ltac:(discriminate) (Hkeys 1) (Hkeys 100))
    as (_ & H).
  exact H.
Defined.

Lemma verifyLicense_any_field_order_witness :
  verifyLicense test_config (JObj (rev sample_signed)) = Ok true.
Proof.
  assert (Hnd : NoDup (Object_keys sample_signed)).
  { vm_compute. repeat constructor; simpl; intuition discriminate. }
  rewrite <- (verifyLicense_any_field_order test_config sample_signed
                (rev sample_signed) Hnd (Permutation_rev _)).
  vm_compute. reflexivity.
Defined.

Lemma checkout_known_customer_witness :
  fst (processPaymentEvent test_config (paddle_event checkout_completed) subscribed)
  = Ok {| success := true; customerId := Some "uuid-0"; licenseId := Some "uuid-2";
          error := None |}.
Proof.
  pose proof (checkout_known_customer test_config (paddle_event checkout_completed)
                subscribed _ paddle_customer _ eq_refl subscribed_db eq_refl
                test_config_key_signs eq_refl eq_refl) as H.
  cbv zeta in H. destruct H as (H & _). exact H.
Defined.

Lemma checkout_new_customer_witness :
  db subscribed
  = Some {| customers := [paddle_customer]; licenses := [paddle_license] |}.
Proof.
  pose proof (checkout_new_customer test_config paddle_checkout started _ _
                eq_refl eq_refl eq_refl test_config_key_signs eq_refl eq_refl eq_refl)
    as H.
  cbv zeta in H. destruct H as (_ & H). exact H.
Defined.


Lemma failed_checkout_keeps_customer_witness :
  fst (findCustomerByEmail "late@example.com"
         (snd (processPaymentEvent test_config undated_checkout started)))
  = Ok (Some {| cust_id := "uuid-0"; cust_email := "late@example.com";
                cust_stripe_customer_id := Some "cus_late";
                cust_created_at := 1767225600 |})
  /\ exists message,
       fst (processPaymentEvent test_config undated_checkout started)
       = Ok (failure message).
Proof.
  pose proof (failed_checkout_keeps_customer test_config undated_checkout started
                _ _ eq_refl eq_refl eq_refl eq_refl eq_refl eq_refl) as H.
  split; [| eexists; reflexivity].
  unfold findCustomerByEmail, bind, getDb. rewrite H. reflexivity.
Defined.

Lemma refused_events_change_nothing_witness :
  processPaymentEvent test_config (paddle_event subscription_cancelled) started
  = (Ok (failure "Customer not found"), started)
  /\ processPaymentEvent test_config paddle_checkout boot
     = (Ok (failure "Error: Database not initialized. Call initDb() first."), boot).
Proof.
  split.
  - apply (refused_events_change_nothing test_config
             (paddle_event subscription_cancelled) started).
    right. split; [now right |]. eexists. split; reflexivity.
  - apply (refused_events_change_nothing test_config paddle_checkout boot).
    left. split; [reflexivity | now left].
Defined.

Lemma cancellation_on_misshapen_registry_witness :
  db (snd (processPaymentEvent test_config (paddle_event subscription_cancelled)
             misshapen))
  = Some {| customers := [paddle_customer]; licenses := [paddle_license] |}.
Proof.
  pose proof (cancellation_on_misshapen_registry test_config
                (paddle_event subscription_cancelled) misshapen _ paddle_customer
                eq_refl subscribed_db eq_refl misshapen_is_misshapen) as H.
  cbv zeta in H. destruct H as (_ & H & _). exact H.
Defined.

Lemma paddle_cancellation_revokes_witness :
  fst (isRevoked "uuid-0"
         (snd (PaddleRoute.handleSubscriptionCanceled test_config cancel_webhook
                 subscribed)))
  = Ok true.
Proof.
  destruct (paddle_cancellation_revokes test_config cancel_webhook subscribed
              {| customers := [paddle_customer]; licenses := [paddle_license] |})
    as (_ & H).
  pose proof (H "paddle@example.com" paddle_customer eq_refl ltac:(discriminate)
                subscribed_db eq_refl I) as H'.
  cbv zeta in H'. destruct H' as (_ & H' & _). exact H'.
Defined.
